(** * Grad-CAM++ (core/grad_cam_plus_plus.py): a shallow embedding

    The module is embedded function by function:
    - [infer_grad_cam_target_layer]  (target layer selector),
    - [get_gradients_and_filters]    (gradient extractor; automatic
      differentiation itself is an injected capability, the guided-gradient
      masking is the code's),
    - [generate_ponderated_output] and [ponderate_output] (CAM composer),
    - [explain]                      (the pipeline; rendering is injected).

    Tensors are a shape together with a row-major buffer, as numpy and
    TensorFlow have them.  Scalars are an interface ([Scalar]): every theorem
    about shapes, indexing and control flow holds for any implementation of
    it.  Two implementations are given: the rationals [Qc] and IEEE single
    precision (the Standard Library's [spec_float] at 24 bits), the
    [float32] of the tensors.  The theorems that need arithmetic laws ask
    for [FiniteArith], the laws both share on finite values, or say that
    they ask for [ExactArith], the laws of exact arithmetic, which the
    special values of IEEE arithmetic (NaN, infinities) break. *)

From Stdlib Require Import ZArith QArith Qcanon Lia SpecFloat.
From stdpp Require Import base tactics option list strings numbers.

Local Open Scope nat_scope.

(** ** Exceptions and the error monad *)

Inductive exception : Type :=
| ValueError (msg : string)
| IndexError (msg : string)
| TypeError (msg : string)
| InvalidArgumentError (op : string)
| ExternalError (msg : string).

Inductive result (A : Type) : Type :=
| Ok (a : A)
| Raise (e : exception).
Arguments Ok {A} a.
Arguments Raise {A} e.

#[global] Instance result_ret : MRet result := fun A a => Ok a.
#[global] Instance result_bind : MBind result := fun A B f m =>
  match m with
  | Ok a => f a
  | Raise e => Raise e
  end.

Definition from_option {A} (e : exception) (o : option A) : result A :=
  match o with
  | Some a => Ok a
  | None => Raise e
  end.

(** [for x in xs: st = body(x, st)], stopping at the first exception. *)
Fixpoint for_each {A St} (xs : list A) (body : A -> St -> result St) (st : St)
  : result St :=
  match xs with
  | [] => Ok st
  | x :: xs' => st' ← body x st; for_each xs' body st'
  end.

(** [for i in range(n)] *)
Definition for_range {St} (n : nat) (body : nat -> St -> result St) (st : St)
  : result St :=
  for_each (seq 0 n) body st.

(** ** Scalars: the numeric capability of the tensor engine *)

Class Scalar (F : Type) : Type := {
  zero : F;
  one : F;
  two : F;
  add : F -> F -> F;
  mul : F -> F -> F;
  div : F -> F -> F;
  gtb0 : F -> bool;      (* x > 0 *)
  neqb0 : F -> bool;     (* x != 0.0 *)
  eqb1 : F -> bool;      (* x == 1 *)
  of_nat : nat -> F      (* an element count, as a scalar *)
}.

(** The laws of exact (real or rational) arithmetic that the value-level
    claims rely on. *)
Class ExactArith (F : Type) `{Scalar F} : Type := {
  lt0 : F -> Prop;       (* 0 < x *)
  le0 : F -> Prop;       (* x <= 0 *)
  gtb0_lt0 : forall x, gtb0 x = true <-> lt0 x;
  gtb0_le0 : forall x, gtb0 x = false <-> le0 x;
  neqb0_zero : forall x, neqb0 x = false <-> x = zero;
  neqb0_one : neqb0 one = true;
  add_zero_zero : add zero zero = zero;
  mul_one_l : forall x, mul one x = x;
  mul_zero_l : forall x, mul zero x = zero;
  mul_zero_r : forall x, mul x zero = zero;
  div_one_r : forall x, div x one = x;
  div_zero_l : forall x, div zero x = zero
}.

(** ** Tensors: a shape and a row-major buffer *)

Record tensor (A : Type) : Type := Tensor {
  shape : list nat;
  data : list A
}.
Arguments Tensor {A} shape data.
Arguments shape {A} t.
Arguments data {A} t.

(** number of elements of a shape *)
Definition numel (s : list nat) : nat := foldr Nat.mul 1 s.

(** a tensor is well formed when its buffer has as many cells as its shape *)
Definition wf {A} (t : tensor A) : Prop := length (data t) = numel (shape t).

(** row-major offset of a full index; [None] is out of bounds or wrong rank *)
Fixpoint ravel (s idx : list nat) : option nat :=
  match s, idx with
  | [], [] => Some 0
  | n :: s', i :: idx' =>
      if decide (i < n) then o ← ravel s' idx'; Some (i * numel s' + o)
      else None
  | _, _ => None
  end.

(** the buffer of the tensor whose cell at [idx] is [f idx] *)
Fixpoint tabulate {A} (s : list nat) (f : list nat -> A) : list A :=
  match s with
  | [] => [f []]
  | n :: s' => flat_map (fun i => tabulate s' (fun idx => f (i :: idx))) (seq 0 n)
  end.

Definition build {A} (s : list nat) (f : list nat -> A) : tensor A :=
  Tensor s (tabulate s f).

Definition get {A} (t : tensor A) (idx : list nat) : option A :=
  o ← ravel (shape t) idx; data t !! o.

(** numpy: [a[i, j, ...]] with a full index *)
Definition np_getitem {A} (t : tensor A) (idx : list nat) : result A :=
  from_option (IndexError "index out of bounds") (get t idx).

(** numpy: [a[i, j, ...] = v] with a full index, in place *)
Definition np_setitem {A} (t : tensor A) (idx : list nat) (v : A)
  : result (tensor A) :=
  match ravel (shape t) idx with
  | Some o => if decide (o < length (data t))
              then Ok (Tensor (shape t) (<[o := v]> (data t)))
              else Raise (IndexError "index out of bounds")
  | None => Raise (IndexError "index out of bounds")
  end.

(** [a.shape[k]] *)
Definition shape_at {A} (t : tensor A) (k : nat) : result nat :=
  from_option (IndexError "tuple index out of range") (shape t !! k).

Definition tmap {A B} (f : A -> B) (t : tensor A) : tensor B :=
  Tensor (shape t) (f <$> data t).

(** [tf.reshape(t, s)] *)
Definition tf_reshape {A} (t : tensor A) (s : list nat) : result (tensor A) :=
  if decide (length (data t) = numel s) then Ok (Tensor s (data t))
  else Raise (InvalidArgumentError "Reshape").

(** [a.reshape(s)] *)
Definition np_reshape {A} (t : tensor A) (s : list nat) : result (tensor A) :=
  if decide (length (data t) = numel s) then Ok (Tensor s (data t))
  else Raise (ValueError "cannot reshape array").

(** iterating a tensor yields its slices along the first axis *)
Definition unstack {A} (t : tensor A) : result (list (tensor A)) :=
  match shape t with
  | [] => Raise (TypeError "iteration over a 0-d tensor")
  | n :: s =>
      Ok ((fun b => Tensor s (take (numel s) (drop (b * numel s) (data t))))
            <$> seq 0 n)
  end.

(** broadcasting of two shapes, aligned on the last axis *)
Fixpoint broadcast_rev (r1 r2 : list nat) : option (list nat) :=
  match r1, r2 with
  | [], r => Some r
  | r, [] => Some r
  | a :: r1', b :: r2' =>
      if decide (a = b) then (a ::.) <$> broadcast_rev r1' r2'
      else if decide (a = 1) then (b ::.) <$> broadcast_rev r1' r2'
      else if decide (b = 1) then (a ::.) <$> broadcast_rev r1' r2'
      else None
  end.

Definition broadcast_shapes (s1 s2 : list nat) : option (list nat) :=
  reverse <$> broadcast_rev (reverse s1) (reverse s2).

(** the index into an operand of shape [s] for the output index [idx] *)
Definition bindex (s idx : list nat) : list nat :=
  zip_with (fun n i => if decide (n = 1) then 0 else i)
           s (drop (length idx - length s) idx).

Section TensorOps.
Context {F : Type} `{Scalar F}.

(** a read that cannot fail, for cells known to exist *)
Definition at_ (t : tensor F) (idx : list nat) : F := default zero (get t idx).

(** sum of [f 0 .. f (n-1)] *)
Definition fsum (n : nat) (f : nat -> F) : F :=
  foldr (fun i acc => add (f i) acc) zero (seq 0 n).

(** elementwise binary operation with broadcasting *)
Definition binop (opname : string) (f : F -> F -> F) (a b : tensor F)
  : result (tensor F) :=
  match broadcast_shapes (shape a) (shape b) with
  | Some s =>
      Ok (build s (fun idx => f (at_ a (bindex (shape a) idx))
                                (at_ b (bindex (shape b) idx))))
  | None => Raise (InvalidArgumentError opname)
  end.

Definition tf_multiply := binop "Mul" mul.
Definition tf_add := binop "AddV2" add.
Definition tf_truediv := binop "RealDiv" div.

(** [t * 2.0] *)
Definition scale2 (t : tensor F) : tensor F := tmap (fun x => mul x two) t.

(** [tf.cast(t > 0, "float32")] *)
Definition cast_gt0 (t : tensor F) : tensor F :=
  tmap (fun x => if gtb0 x then one else zero) t.

(** [np.ones(s)] *)
Definition np_ones (s : list nat) : tensor F := Tensor s (replicate (numel s) one).

(** [np.where(cond, a, b)] on operands of one shape *)
Definition np_where (c : tensor bool) (a b : tensor F) : result (tensor F) :=
  if decide (shape c = shape a /\ shape c = shape b) then
    Ok (Tensor (shape c)
          (zip_with (fun (cx : bool * F) y => if cx.1 then cx.2 else y)
                    (zip (data c) (data a)) (data b)))
  else Raise (ValueError "operands could not be broadcast together").

(** an axis as Python gives it, counted from the end when negative *)
Definition norm_axis (rank : nat) (a : Z) : option nat :=
  if decide (0 <= a < Z.of_nat rank)%Z then Some (Z.to_nat a)
  else if decide (- Z.of_nat rank <= a < 0)%Z then Some (Z.to_nat (Z.of_nat rank + a))
  else None.

(** the shape left once the axes in [axes] are summed away; [k] is the
    position of the head of [s] *)
Fixpoint kept_shape (axes : list nat) (k : nat) (s : list nat) : list nat :=
  match s with
  | [] => []
  | n :: s' => if bool_decide (k ∈ axes) then kept_shape axes (S k) s'
               else n :: kept_shape axes (S k) s'
  end.

Fixpoint reduced_count (axes : list nat) (k : nat) (s : list nat) : nat :=
  match s with
  | [] => 1
  | n :: s' => if bool_decide (k ∈ axes) then n * reduced_count axes (S k) s'
               else reduced_count axes (S k) s'
  end.

(** the cell [idx] of the reduction: [g] reads the operand *)
Fixpoint reduce_at (axes : list nat) (k : nat) (s : list nat)
    (g : list nat -> F) (idx : list nat) : F :=
  match s with
  | [] => g []
  | n :: s' =>
      if bool_decide (k ∈ axes)
      then fsum n (fun i => reduce_at axes (S k) s' (fun r => g (i :: r)) idx)
      else match idx with
           | i :: idx' => reduce_at axes (S k) s' (fun r => g (i :: r)) idx'
           | [] => zero
           end
  end.

(** [tf.reduce_sum(t, axis=axes)] *)
Definition tf_reduce_sum (t : tensor F) (axes : list Z) : result (tensor F) :=
  match mapM (norm_axis (length (shape t))) axes with
  | Some ax =>
      Ok (build (kept_shape ax 0 (shape t))
                (reduce_at ax 0 (shape t) (at_ t)))
  | None => Raise (InvalidArgumentError "Sum")
  end.

(** [tf.reduce_mean(t, axis=axes)]: the sum over the count *)
Definition tf_reduce_mean (t : tensor F) (axes : list Z) : result (tensor F) :=
  match mapM (norm_axis (length (shape t))) axes with
  | Some ax =>
      Ok (build (kept_shape ax 0 (shape t))
                (fun idx => div (reduce_at ax 0 (shape t) (at_ t) idx)
                                (of_nat (reduced_count ax 0 (shape t)))))
  | None => Raise (InvalidArgumentError "Mean")
  end.
End TensorOps.

(** [xs[i]] on a Python list, for [i >= 0] *)
Definition list_get {A} (xs : list A) (i : nat) : result A :=
  from_option (IndexError "list index out of range") (xs !! i).

(** ** The model, as far as this module inspects it *)

(** [layer.output_shape]: the tuple of dimensions of a layer with one output
    ([None] is the unknown batch size), or a list of such tuples for a layer
    with several outputs (Keras gives an input layer a list of one) *)
Inductive OutputShape : Type :=
| one_shape (dims : list (option nat))
| shape_list (shapes : list (list (option nat))).

(** [len(output_shape)]: the rank of the one output, or the number of
    outputs *)
Definition len_output_shape (s : OutputShape) : nat :=
  match s with
  | one_shape dims => length dims
  | shape_list shapes => length shapes
  end.

Record Layer : Type := {
  name : string;
  output_shape : OutputShape
}.

Record Model : Type := {
  layers : list Layer
}.

(** ** Target layer selector *)

Definition no_4d_layer : exception :=
  ValueError "Model does not seem to contain 4D layer. Grad CAM cannot be applied.".

(** the spec's name for that failure *)
Definition NoConvolutionalLayerError : exception := no_4d_layer.

(** [for layer in ls: if len(layer.output_shape) == 4: return layer.name] and
    the [raise] after the loop *)
Fixpoint scan_layers (ls : list Layer) : result string :=
  match ls with
  | [] => Raise no_4d_layer
  | layer :: ls' =>
      if decide (len_output_shape (output_shape layer) = 4) then Ok (name layer)
      else scan_layers ls'
  end.

Definition infer_grad_cam_target_layer (model : Model) : result string :=
  scan_layers (reverse (layers model)).

(** ** Gradient extractor *)

(** What one recorded forward pass gives: the target layer's output and, for a
    class [c], the derivative of order [k] of the score of [c] with respect to
    that output ([tape.gradient], chained). *)
Record Tape (F : Type) : Type := {
  tape_conv_outputs : tensor F;
  tape_gradient : nat -> Z -> result (tensor F)
}.
Arguments tape_conv_outputs {F} t.
Arguments tape_gradient {F} t k c.

(** the four lists the extractor fills *)
Record Gradients (F : Type) : Type := {
  grads : list (tensor F);
  second_derivative : list (tensor F);
  third_derivative : list (tensor F);
  guided_grads : list (tensor F)
}.
Arguments grads {F} g.
Arguments second_derivative {F} g.
Arguments third_derivative {F} g.
Arguments guided_grads {F} g.
Arguments Build_Gradients {F} _ _ _ _.

Section Extractor.
Context {F : Type} `{Scalar F}.

(** [tf.cast(conv_outputs > 0, "float32") * tf.cast(grad > 0, "float32") * grad] *)
Definition guided_grad (conv_outputs grad : tensor F) : result (tensor F) :=
  mask ← tf_multiply (cast_gt0 conv_outputs) (cast_gt0 grad);
  tf_multiply mask grad.

Definition gradients_step (tape : Tape F) (class_index : list Z) (i : nat)
    (st : Gradients F) : result (Gradients F) :=
  c ← list_get class_index i;
  g1 ← tape_gradient tape 1 c;
  let grads' := grads st ++ [g1] in
  g2 ← tape_gradient tape 2 c;
  let second' := second_derivative st ++ [g2] in
  g3 ← tape_gradient tape 3 c;
  let third' := third_derivative st ++ [g3] in
  gi ← list_get grads' i;
  gg ← guided_grad (tape_conv_outputs tape) gi;
  Ok (Build_Gradients grads' second' third' (guided_grads st ++ [gg])).

(** the body of [get_gradients_and_filters] once the forward pass is recorded *)
Definition gradients_loop (tape : Tape F) (class_index : list Z)
  : result (Gradients F) :=
  for_range (length class_index) (gradients_step tape class_index)
            (Build_Gradients [] [] [] []).

Definition get_gradients_and_filters
    (run_grad_model : Model -> tensor F -> string -> result (Tape F))
    (model : Model) (images : tensor F) (layer_name : string)
    (class_index : list Z)
  : result (tensor F * list (tensor F) * list (tensor F) * list (tensor F) * list Z) :=
  tape ← run_grad_model model images layer_name;
  g ← gradients_loop tape class_index;
  Ok (tape_conv_outputs tape, second_derivative g, third_derivative g,
      guided_grads g, class_index).
End Extractor.

(** ** CAM composer *)

Section Composer.
Context {F : Type} `{Scalar F}.

Definition ponderate_output (output alpha grad : tensor F) : result (tensor F) :=
  ag ← tf_multiply alpha grad;
  weights ← tf_reduce_mean ag [0; 1]%Z;
  wo ← tf_multiply weights output;
  tf_reduce_sum wo [-1]%Z.

(** [grey[m,k,j] = sum1[m,j]*grey[m,k,j]] *)
Definition scale_cell (sum1 : tensor F) (m j k : nat) (grey : tensor F)
  : result (tensor F) :=
  s ← np_getitem sum1 [m; j];
  g ← np_getitem grey [m; k; j];
  np_setitem grey [m; k; j] (mul s g).

(** the three nested loops over [grey], in place *)
Definition scale_grey (sum1 grey : tensor F) : result (tensor F) :=
  d0 ← shape_at grey 0;
  for_range d0 (fun m grey =>
    d2 ← shape_at grey 2;
    for_range d2 (fun j grey =>
      d1 ← shape_at grey 1;
      for_range d1 (fun k grey => scale_cell sum1 m j k grey) grey) grey) grey.

(** lines 178-188 for one class, with the two shapes of the reshapes *)
Definition global_sum_of (grey_shape sum_shape : list nat) (sum1 third : tensor F)
  : result (tensor F) :=
  grey ← tf_reshape third grey_shape;
  grey ← scale_grey sum1 grey;
  np_reshape grey sum_shape.

(** lines 189-192 for one class: [alpha_num / alpha_denom] *)
Definition alpha_from (second global_sum : tensor F) : result (tensor F) :=
  let alpha_num := second in
  alpha_denom ← tf_add (scale2 second) global_sum;
  alpha_denom ← np_where (tmap neqb0 alpha_denom) alpha_denom
                         (np_ones (shape alpha_denom));
  tf_truediv alpha_num alpha_denom.

(** lines 178-192 for one class, from its second and third derivatives *)
Definition alpha_of (grey_shape sum_shape : list nat) (sum1 second third : tensor F)
  : result (tensor F) :=
  global_sum ← global_sum_of grey_shape sum_shape sum1 third;
  alpha_from second global_sum.

(** the [zip] loop: the first row whose position [j] equals [class_index[i]]
    gives a CAM, then [break] *)
Fixpoint scan_batch (rows : list (tensor F * tensor F * tensor F * nat))
    (ci : result Z) (maps : list (tensor F)) : result (list (tensor F)) :=
  match rows with
  | [] => Ok maps
  | (output, alpha, grad, j) :: rows' =>
      c ← ci;
      if decide (Z.of_nat j = c)
      then cam ← ponderate_output output alpha grad; Ok (maps ++ [cam])
      else scan_batch rows' ci maps
  end.

Definition composer_step (grey_shape sum_shape : list nat)
    (outputs sum1 : tensor F) (seconds thirds grads : list (tensor F))
    (class_index : list Z) (i : nat)
    (st : list (tensor F) * list (tensor F))
  : result (list (tensor F) * list (tensor F)) :=
  let '(maps, alphas) := st in
  third ← list_get thirds i;
  global_sum ← global_sum_of grey_shape sum_shape sum1 third;
  second ← list_get seconds i;
  alpha ← alpha_from second global_sum;
  let alphas := alphas ++ [alpha] in
  alpha_i ← list_get alphas i;
  grad_i ← list_get grads i;
  n ← shape_at grad_i 0;
  rows_o ← unstack outputs;
  rows_a ← unstack alpha_i;
  rows_g ← unstack grad_i;
  maps ← scan_batch (zip (zip (zip rows_o rows_a) rows_g) (seq 0 n))
                    (list_get class_index i) maps;
  Ok (maps, alphas).

(** the whole loop, with the local lists [maps] and [alphas] it leaves *)
Definition composer_loop (grey_shape sum_shape : list nat)
    (outputs : tensor F) (seconds thirds grads : list (tensor F))
    (class_index : list Z)
  : result (list (tensor F) * list (tensor F)) :=
  sum1 ← tf_reduce_sum outputs [1; 2]%Z;
  for_range (length grads)
    (composer_step grey_shape sum_shape outputs sum1 seconds thirds grads class_index)
    ([], []).

Definition generate_ponderated_output_state
    (outputs : tensor F) (seconds thirds grads : list (tensor F))
    (class_index : list Z) :=
  composer_loop [4; 64; 1280] [4; 8; 8; 1280] outputs seconds thirds grads class_index.

Definition generate_ponderated_output
    (outputs : tensor F) (seconds thirds grads : list (tensor F))
    (class_index : list Z) : result (list (tensor F)) :=
  st ← generate_ponderated_output_state outputs seconds thirds grads class_index;
  Ok st.1.
End Composer.

(** ** The pipeline *)

(** a batch provider: [validation_data.__getitem__] and [.batch_index] *)
Record Sequence (F : Type) : Type := {
  getitem : Z -> result (tensor F * tensor F);
  batch_index : Z
}.
Arguments getitem {F} s i.
Arguments batch_index {F} s.

Section Pipeline.
Context {F : Type} `{Scalar F}.

(** [np.where(flat == 1)[0]]: the positions holding 1, from position [k] on *)
Fixpoint where_eq1 (k : nat) (flat : list F) : list nat :=
  match flat with
  | [] => []
  | x :: flat' => if eqb1 x then k :: where_eq1 (S k) flat'
                  else where_eq1 (S k) flat'
  end.

(** lines 57-59: [flatten], [np.where(... == 1)],
    [[num - (i*4) for i,num in enumerate(...)]] *)
Definition labels_to_class_index (labels : tensor F) : list Z :=
  let flat := data labels in
  let hits := where_eq1 0 flat in
  imap (fun i num => (Z.of_nat num - Z.of_nat i * 4)%Z) hits.

(** lines 49-61: the images and the class indices the call goes on with *)
Definition select_batch (validation_data : Sequence F) (first batch_mode : bool)
    (class_index : list Z) : result (tensor F * list Z) :=
  if batch_mode then
    '(images, labels) ← (if first then getitem validation_data 0%Z
                         else getitem validation_data (batch_index validation_data));
    Ok (images, labels_to_class_index labels)
  else
    '(images, _) ← getitem validation_data 0%Z;
    Ok (images, class_index).

(** rendering and the differentiation engine are collaborators *)
Context {Pic Grid : Type}.
Variable run_grad_model : Model -> tensor F -> string -> result (Tape F).
Variable heatmap_display : tensor F -> tensor F -> Z -> F -> result Pic.
Variable image_to_rgb : tensor F -> result Pic.
Variable np_concatenate : list Pic -> Pic -> result (list Pic).
Variable grid_display : list Pic -> nat -> nat -> result Grid.

Definition explain (validation_data : Sequence F) (model : Model) (first : bool)
    (class_index : list Z) (batch_mode : bool) (layer_name : option string)
    (colormap : Z) (image_weight : F) : result Grid :=
  '(images, class_index) ← select_batch validation_data first batch_mode class_index;
  layer_name ← match layer_name with
               | None => infer_grad_cam_target_layer model
               | Some n => Ok n
               end;
  '(outputs, seconds, thirds, guided, class_index) ←
      get_gradients_and_filters run_grad_model model images layer_name class_index;
  cams ← generate_ponderated_output outputs seconds thirds guided class_index;
  rows ← unstack images;
  heatmaps ← mapM (fun ci : tensor F * tensor F =>
                     heatmap_display ci.1 ci.2 colormap image_weight)
                  (zip cams rows);
  n ← shape_at images 0;
  heatmaps ← for_range n (fun i heatmaps =>
                image ← list_get rows i;
                pic ← image_to_rgb image;
                np_concatenate heatmaps pic) heatmaps;
  grid_display heatmaps 2 n.
End Pipeline.


(** ** Exact rationals as scalars *)

#[global] Instance Qc_scalar : Scalar Qc := {
  zero := 0%Qc;
  one := 1%Qc;
  two := (1 + 1)%Qc;
  add := Qcplus;
  mul := Qcmult;
  div := Qcdiv;
  gtb0 x := bool_decide (0 < x)%Qc;
  neqb0 x := negb (bool_decide (x = 0%Qc));
  eqb1 x := bool_decide (x = 1%Qc);
  of_nat n := Q2Qc (inject_Z (Z.of_nat n))
}.

#[global] Instance Qc_exact : ExactArith Qc.
Proof.
  refine {| lt0 := fun x => (0 < x)%Qc; le0 := fun x => (x <= 0)%Qc |}.
  - intros x. apply bool_decide_eq_true.
  - intros x. simpl. rewrite bool_decide_eq_false. split.
    + apply Qcnot_lt_le.
    + apply Qcle_not_lt.
  - intros x. simpl. rewrite negb_false_iff. apply bool_decide_eq_true.
  - reflexivity.
  - apply Qcplus_0_l.
  - apply Qcmult_1_l.
  - apply Qcmult_0_l.
  - apply Qcmult_0_r.
  - intros x. simpl. unfold Qcdiv. replace (/ 1)%Qc with 1%Qc by reflexivity.
    apply Qcmult_1_r.
  - intros x. simpl. unfold Qcdiv. apply Qcmult_0_l.
Defined.

(** ** Values of an arithmetic, and IEEE single precision *)

(** what the value-level statements say of a scalar *)
Class Values (F : Type) : Type := {
  is_value : F -> Prop;     (* a value the arithmetic can hold *)
  is_finite : F -> Prop;    (* neither an infinity nor NaN *)
  is_zero : F -> Prop;      (* 0, of either sign *)
  is_pos : F -> Prop;       (* 0 < x *)
  is_nonpos : F -> Prop     (* x <= 0 *)
}.

(** The laws that exact arithmetic and IEEE arithmetic share: the tests
    [> 0], the products of the masks 0 and 1, and what a zero gives with
    finite values. *)
Class FiniteArith (F : Type) `{Scalar F} `{Values F} : Prop := {
  is_pos_gtb0 : forall x, is_pos x -> gtb0 x = true;
  is_nonpos_gtb0 : forall x, is_nonpos x -> gtb0 x = false;
  is_zero_zero : is_zero zero;
  is_zero_finite : forall x, is_zero x -> is_finite x;
  mul_one_one : mul one one = one;
  mul_one_zero : mul one zero = zero;
  mul_zero_one : mul zero one = zero;
  mul_zero_zero : mul zero zero = zero;
  mul_one_value : forall x, is_value x -> mul one x = x;
  mul_zero_finite : forall z x, is_zero z -> is_finite x -> is_zero (mul z x);
  mul_finite_zero : forall x z, is_finite x -> is_zero z -> is_zero (mul x z);
  add_zeros : forall x y, is_zero x -> is_zero y -> is_zero (add x y);
  div_zero_count : forall z n, 0 < n -> is_zero z -> is_zero (div z (of_nat n))
}.

#[global] Instance Qc_values : Values Qc := {
  is_value _ := True;
  is_finite _ := True;
  is_zero x := x = 0%Qc;
  is_pos x := (0 < x)%Qc;
  is_nonpos x := (x <= 0)%Qc
}.

#[global] Instance Qc_finite_arith : FiniteArith Qc.
Proof.
  split.
  - intros x. apply bool_decide_eq_true.
  - intros x Hx. simpl. apply bool_decide_eq_false. apply Qcle_not_lt. exact Hx.
  - reflexivity.
  - intros x _. exact I.
  - reflexivity.
  - reflexivity.
  - reflexivity.
  - reflexivity.
  - intros x _. apply Qcmult_1_l.
  - intros z x -> _. apply Qcmult_0_l.
  - intros x z _ ->. apply Qcmult_0_r.
  - intros x y -> ->. reflexivity.
  - intros z n _ ->. simpl. unfold Qcdiv. apply Qcmult_0_l.
Qed.

(** IEEE 754 binary32, the [float32] of the tensors, on the Standard
    Library's [spec_float]: 24 bits of precision, exponents below 128,
    rounding to nearest even, with signed zeros, infinities and NaN *)

(** the conversion of an element count *)
Definition b32_of_nat (n : nat) : spec_float :=
  binary_normalize 24 128 (Z.of_nat n) 0 false.

#[global] Instance binary32_scalar : Scalar spec_float := {
  zero := S754_zero false;
  one := S754_finite false 8388608 (-23);
  two := S754_finite false 8388608 (-22);
  add := SFadd 24 128;
  mul := SFmul 24 128;
  div := SFdiv 24 128;
  gtb0 x := SFltb (S754_zero false) x;
  neqb0 x := negb (SFeqb x (S754_zero false));
  eqb1 x := SFeqb x (S754_finite false 8388608 (-23));
  of_nat := b32_of_nat
}.

#[global] Instance binary32_values : Values spec_float := {
  is_value x := valid_binary 24 128 x = true;
  is_finite x := match x with
                 | S754_zero _ | S754_finite _ _ _ => True
                 | _ => False
                 end;
  is_zero x := match x with S754_zero _ => True | _ => False end;
  is_pos x := SFltb (S754_zero false) x = true;
  is_nonpos x := SFleb x (S754_zero false) = true
}.

(** ** Vocabulary of the statements *)

(** the selector's test: [len(layer.output_shape) == 4] *)
Definition has_length_4 (layer : Layer) : Prop :=
  len_output_shape (output_shape layer) = 4.

(** a layer with one output, of exactly four dimensions *)
Definition is_4d (layer : Layer) : Prop :=
  exists dims, output_shape layer = one_shape dims /\ length dims = 4.

(** a layer with four outputs *)
Definition four_outputs (layer : Layer) : Prop :=
  exists shapes, output_shape layer = shape_list shapes /\ length shapes = 4.

(** [r] is a label row of [K] entries in which the test [== 1] holds at
    position [c] and nowhere else *)
Definition hot_row {F : Type} `{Scalar F} (K c : nat) (r : list F) : Prop :=
  length r = K /\ c < K /\
  forall k x, r !! k = Some x -> eqb1 x = bool_decide (k = c).

(** [labels] is the one-hot encoding, with [K] classes, of the classes [cs] of
    the images of a batch *)
Definition one_hot {F : Type} `{Scalar F} (K : nat) (cs : list nat)
    (labels : tensor F) : Prop :=
  exists rows, Forall2 (hot_row K) cs rows /\
               data labels = concat rows /\
               shape labels = [length cs; K].

(** the differentiation engine answers, for every class of [class_index] and
    every order 1..3, with a well-formed tensor shaped like the target
    layer's output *)
Definition tape_ok {F : Type} (tape : Tape F) (class_index : list Z) : Prop :=
  wf (tape_conv_outputs tape) /\
  forall c k, c ∈ class_index -> 1 <= k <= 3 ->
    exists g, tape_gradient tape k c = Ok g /\
              shape g = shape (tape_conv_outputs tape) /\ wf g.

(** the sum of a 4-dimensional tensor over height and width, at image [m] and
    channel [j] *)
Definition spatial_sum {F : Type} `{Scalar F} (t : tensor F) (m j : nat) : F :=
  match shape t with
  | [_; h; w; _] => fsum h (fun y => fsum w (fun x => at_ t [m; y; x; j]))
  | _ => zero
  end.

(** [2 * grad2 + global_sum] at one cell, [s] being the spatial sum *)
Definition alpha_denominator {F : Type} `{Scalar F} (s g2 g3 : F) : F :=
  add (mul g2 two) (mul s g3).

(** the denominator after the substitution of 1 for an exact zero *)
Definition guarded {F : Type} `{Scalar F} (d : F) : F :=
  if neqb0 d then d else one.

(** the [v]-th slice of a tensor along its first axis *)
Definition slice {A} (t : tensor A) (v : nat) : tensor A :=
  Tensor (tail (shape t))
         (take (numel (tail (shape t))) (drop (v * numel (tail (shape t))) (data t))).

(** the weight of channel [j]: the spatial mean of [alpha * grad] *)
Definition channel_weight {F : Type} `{Scalar F} (alpha grad : tensor F)
    (h w j : nat) : F :=
  div (fsum h (fun y => fsum w (fun x =>
         mul (at_ alpha [y; x; j]) (at_ grad [y; x; j]))))
      (of_nat (h * w)).

(** every cell of the buffer is zero *)
Definition all_zero {F : Type} `{Scalar F} (t : tensor F) : Prop :=
  Forall (fun x => x = zero) (data t).

(** every cell of the buffer is a zero; every cell that an index reaches is
    finite *)
Definition zero_everywhere {F : Type} `{Values F} (t : tensor F) : Prop :=
  Forall is_zero (data t).
Definition finite_everywhere {F : Type} `{Values F} (t : tensor F) : Prop :=
  forall idx v, get t idx = Some v -> is_finite v.

(** what the extractor hands to the composer: a well-formed feature map of
    shape [b; h; w; c] and, aligned by class position, one second derivative,
    one third derivative and one guided gradient of that shape per class
    index *)
Definition composer_input {F : Type} (b h w c : nat) (outputs : tensor F)
    (seconds thirds grads : list (tensor F)) (class_index : list Z) : Prop :=
  shape outputs = [b; h; w; c] /\ wf outputs /\
  length seconds = length grads /\ length thirds = length grads /\
  length class_index = length grads /\
  Forall (fun t => shape t = [b; h; w; c] /\ wf t) seconds /\
  Forall (fun t => shape t = [b; h; w; c] /\ wf t) thirds /\
  Forall (fun t => shape t = [b; h; w; c] /\ wf t) grads.

(** what the [zip] loop appends for a class index of value [ci]: the CAM of
    the image at batch position [ci] when there is one, nothing otherwise *)
Definition class_result {F : Type} `{Scalar F} (outputs alpha grad : tensor F)
    (b : nat) (ci : Z) (pc : option (tensor F)) : Prop :=
  if decide (0 <= ci < Z.of_nat b)%Z then
    exists cam, pc = Some cam /\
      ponderate_output (slice outputs (Z.to_nat ci)) (slice alpha (Z.to_nat ci))
                       (slice grad (Z.to_nat ci)) = Ok cam
  else pc = None.

(** ** Invariants of the loops *)

(** what the extractor's lists hold after [n] classes *)
Definition extracted {F : Type} `{Scalar F} (tape : Tape F) (class_index : list Z)
    (n : nat) (st : Gradients F) : Prop :=
  length (grads st) = n /\ length (second_derivative st) = n /\
  length (third_derivative st) = n /\ length (guided_grads st) = n /\
  forall i c, i < n -> class_index !! i = Some c ->
    exists g1 g2 g3 gg,
      tape_gradient tape 1 c = Ok g1 /\ tape_gradient tape 2 c = Ok g2 /\
      tape_gradient tape 3 c = Ok g3 /\
      guided_grad (tape_conv_outputs tape) g1 = Ok gg /\
      grads st !! i = Some g1 /\ second_derivative st !! i = Some g2 /\
      third_derivative st !! i = Some g3 /\ guided_grads st !! i = Some gg.

(** the state of [grey] while it is scaled in place: the cells in [done] hold
    their first value times the sum [Sf m j], the others their first value *)
Definition scaled {F : Type} `{Scalar F} (Sf : nat -> nat -> F) (grey0 : tensor F)
    (done : nat -> nat -> nat -> Prop) (g : tensor F) : Prop :=
  shape g = shape grey0 /\ length (data g) = length (data grey0) /\
  forall m k j v, get grey0 [m; k; j] = Some v ->
    (done m k j -> get g [m; k; j] = Some (mul (Sf m j) v)) /\
    (~ done m k j -> get g [m; k; j] = Some v).

(** the cells already scaled when the loops stand at [m], at [m, j] and at
    [m, j, k] *)
Definition done_m (m : nat) : nat -> nat -> nat -> Prop :=
  fun m' _ _ => m' < m.
Definition done_j (m j : nat) : nat -> nat -> nat -> Prop :=
  fun m' _ j' => m' < m \/ (m' = m /\ j' < j).
Definition done_k (m j k : nat) : nat -> nat -> nat -> Prop :=
  fun m' k' j' => m' < m \/ (m' = m /\ (j' < j \/ (j' = j /\ k' < k))).

(** the composer's lists [maps] and [alphas] after [i] class positions;
    [per] holds, per class position, the CAM appended for it, if any *)
Definition composed {F : Type} `{Scalar F} (grey_shape sum_shape : list nat)
    (outputs sum1 : tensor F) (seconds thirds grads : list (tensor F))
    (class_index : list Z) (b i : nat)
    (st : list (tensor F) * list (tensor F)) (per : list (option (tensor F)))
  : Prop :=
  length st.2 = i /\ length per = i /\ st.1 = omap id per /\
  forall i' second third grad ci,
    seconds !! i' = Some second -> thirds !! i' = Some third ->
    grads !! i' = Some grad -> class_index !! i' = Some ci -> i' < i ->
    exists alpha pc,
      st.2 !! i' = Some alpha /\
      alpha_of grey_shape sum_shape sum1 second third = Ok alpha /\
      per !! i' = Some pc /\ class_result outputs alpha grad b ci pc.

(** ** Concrete inputs *)

Definition toy_model : Model :=
  {| layers := [ {| name := "conv1";
                    output_shape := one_shape [None; Some 8; Some 8; Some 4] |};
                 {| name := "conv2";
                    output_shape := one_shape [None; Some 4; Some 4; Some 8] |};
                 {| name := "flatten"; output_shape := one_shape [None; Some 128] |};
                 {| name := "dense"; output_shape := one_shape [None; Some 2] |} ] |}.

Definition dense_model : Model :=
  {| layers := [ {| name := "flatten"; output_shape := one_shape [None; Some 12] |};
                 {| name := "dense"; output_shape := one_shape [None; Some 2] |} ] |}.

(** a convolutional layer followed by a layer with four outputs, each of
    shape (None, 2); and the same head on a network without convolution *)
Definition four_heads : Layer :=
  {| name := "heads";
     output_shape := shape_list [[None; Some 2]; [None; Some 2];
                                 [None; Some 2]; [None; Some 2]] |}.
Definition multi_head_model : Model :=
  {| layers := [ {| name := "input";
                    output_shape := shape_list [[None; Some 8; Some 8; Some 3]] |};
                 {| name := "conv";
                    output_shape := one_shape [None; Some 8; Some 8; Some 4] |};
                 {| name := "flatten"; output_shape := one_shape [None; Some 256] |};
                 four_heads ] |}.
Definition dense_multi_head_model : Model :=
  {| layers := [ {| name := "flatten"; output_shape := one_shape [None; Some 12] |};
                 four_heads ] |}.

(** collaborators that give nothing *)
Definition no_tape : Model -> tensor Qc -> string -> result (Tape Qc) :=
  fun _ _ _ => Raise (ExternalError "no engine").
Definition no_heatmap : tensor Qc -> tensor Qc -> Z -> Qc -> result unit :=
  fun _ _ _ _ => Ok tt.
Definition no_rgb : tensor Qc -> result unit := fun _ => Ok tt.
Definition no_concatenate : list unit -> unit -> result (list unit) :=
  fun l x => Ok (l ++ [x]).
Definition no_grid : list unit -> nat -> nat -> result unit := fun _ _ _ => Ok tt.

(** a batch of one 1x1x1 image, with one-hot labels over three classes for
    two images of classes 1 and 2 *)
Definition tiny_labels : tensor Qc :=
  Tensor [2; 3] [0%Qc; 1%Qc; 0%Qc;  0%Qc; 0%Qc; 1%Qc].
Definition tiny_images : tensor Qc := Tensor [1; 1; 1; 1] [1%Qc].
Definition tiny_data : Sequence Qc :=
  {| getitem := fun _ => Ok (tiny_images, tiny_labels); batch_index := 0%Z |}.

(** a recorded pass over one 1x1 image with two channels: activations 1 and
    -1, and every derivative equal to (3, 5) *)
Definition toy_tape : Tape Qc :=
  {| tape_conv_outputs := Tensor [1; 1; 1; 2] [1%Qc; (-1)%Qc];
     tape_gradient := fun _ _ => Ok (Tensor [1; 1; 1; 2] [Q2Qc 3; Q2Qc 5]) |}.
Definition toy_engine : Model -> tensor Qc -> string -> result (Tape Qc) :=
  fun _ _ _ => Ok toy_tape.

(** a tensor of the shape the composer's reshapes expect, with one value in
    every cell *)
Definition big_const (x : Qc) : tensor Qc :=
  Tensor [4; 8; 8; 1280] (replicate (numel [4; 8; 8; 1280]) x).

(** the target layer's output of a toy model with one convolutional layer of
    shape (1, 8, 8, 4), for a batch of one image *)
Definition toy_feature_map : tensor Qc :=
  Tensor [1; 8; 8; 4] (replicate (numel [1; 8; 8; 4]) 1%Qc).

(** an engine that knows the classes 0..4 only: asking for another class
    raises, as slicing the predictions out of range does *)
Definition five_class_tape : Tape Qc :=
  {| tape_conv_outputs := Tensor [1; 1; 1; 2] [1%Qc; (-1)%Qc];
     tape_gradient := fun _ c =>
       if decide (0 <= c < 5)%Z
       then Ok (Tensor [1; 1; 1; 2] [Q2Qc 3; Q2Qc 5])
       else Raise (InvalidArgumentError "StridedSlice") |}.
Definition five_class_engine : Model -> tensor Qc -> string -> result (Tape Qc) :=
  fun _ _ _ => Ok five_class_tape.

(** one 1x1 image with two channels, as a slice of a batch *)
Definition two_channels (x y : Qc) : tensor Qc := Tensor [1; 1; 2] [x; y].

(** feature maps with as many cells as (4, 8, 8, 1280) but another layout: a
    batch of two images with 2560 channels, and four images of 64 x 1 *)
Definition two_image_map : tensor Qc :=
  Tensor [2; 8; 8; 2560] (replicate (numel [2; 8; 8; 2560]) 1%Qc).
Definition flat_image_map : tensor Qc :=
  Tensor [4; 64; 1; 1280] (replicate (numel [4; 64; 1; 1280]) 1%Qc).

(** a batch of four 1x1x1 images with one-hot labels over four classes, for
    the classes 2, 0, 1 and 3 *)
Definition four_images : tensor Qc :=
  Tensor [4; 1; 1; 1] [Q2Qc 1; Q2Qc 2; Q2Qc 3; Q2Qc 4].
Definition four_labels : tensor Qc :=
  Tensor [4; 4] [0%Qc; 0%Qc; 1%Qc; 0%Qc;   1%Qc; 0%Qc; 0%Qc; 0%Qc;
                 0%Qc; 1%Qc; 0%Qc; 0%Qc;   0%Qc; 0%Qc; 0%Qc; 1%Qc].
Definition four_data : Sequence Qc :=
  {| getitem := fun _ => Ok (four_images, four_labels); batch_index := 0%Z |}.

(** an engine whose target layer has the shape (4, 8, 8, 1280), with 1 in
    every activation and in every derivative *)
Definition big_tape : Tape Qc :=
  {| tape_conv_outputs := big_const 1%Qc;
     tape_gradient := fun _ _ => Ok (big_const 1%Qc) |}.
Definition big_engine : Model -> tensor Qc -> string -> result (Tape Qc) :=
  fun _ _ _ => Ok big_tape.

(** pictures that remember what they were drawn from *)
Inductive picture : Type :=
  | Heatmap (cam image : tensor Qc)
  | Rgb (image : tensor Qc).
Definition draw_heatmap : tensor Qc -> tensor Qc -> Z -> Qc -> result picture :=
  fun cam image _ _ => Ok (Heatmap cam image).
Definition draw_rgb : tensor Qc -> result picture := fun image => Ok (Rgb image).
(** [np.concatenate([heatmaps, [x]])]: an empty [heatmaps] is the
    1-dimensional [np.array([])], which does not concatenate with pictures *)
Definition concatenate_one : list picture -> picture -> result (list picture) :=
  fun l x =>
    match l with
    | [] => Raise (ValueError "all the input arrays must have same number of dimensions")
    | _ :: _ => Ok (l ++ [x])
    end.
Definition lay_out : list picture -> nat -> nat -> result (list picture * nat * nat) :=
  fun l r c => Ok (l, r, c).

(** single-precision values: -1, 3, 5, and the powers of two 2^70, 2^127 and
    -2^70 *)
Definition minus_one32 : spec_float := S754_finite true 8388608 (-23).
Definition three32 : spec_float := S754_finite false 12582912 (-22).
Definition five32 : spec_float := S754_finite false 10485760 (-21).
Definition pow70_32 : spec_float := S754_finite false 8388608 47.
Definition pow127_32 : spec_float := S754_finite false 8388608 104.
Definition minus_pow70_32 : spec_float := S754_finite true 8388608 47.

Definition tiny_image32 : tensor spec_float :=
  Tensor [1; 1; 1; 1] [S754_finite false 8388608 (-23)].

(** a recorded pass in single precision over one 1x1 image with two
    channels: activations 1 and -1, and every derivative equal to (3, 5) *)
Definition toy_tape32 : Tape spec_float :=
  {| tape_conv_outputs :=
       Tensor [1; 1; 1; 2] [S754_finite false 8388608 (-23); minus_one32];
     tape_gradient := fun _ _ => Ok (Tensor [1; 1; 1; 2] [three32; five32]) |}.
Definition toy_engine32 : Model -> tensor spec_float -> string -> result (Tape spec_float) :=
  fun _ _ _ => Ok toy_tape32.

(** a recorded pass whose one activation is -1 and whose derivatives are
    +infinity *)
Definition infinite_gradient_tape : Tape spec_float :=
  {| tape_conv_outputs := Tensor [1; 1; 1; 1] [minus_one32];
     tape_gradient := fun _ _ => Ok (Tensor [1; 1; 1; 1] [S754_infinity false]) |}.
Definition infinite_gradient_engine
  : Model -> tensor spec_float -> string -> result (Tape spec_float) :=
  fun _ _ _ => Ok infinite_gradient_tape.

(** [np.full(s, x)] *)
Definition full {A} (s : list nat) (x : A) : tensor A :=
  Tensor s (replicate (numel s) x).

(** single-precision tensors of the composer's shape: a feature map of 2^70
    everywhere, second derivatives of 2^127, third derivatives of -2^70, and a
    guided gradient of 0 *)
Definition hot_map32 : tensor spec_float := full [4; 8; 8; 1280] pow70_32.
Definition steep_second32 : tensor spec_float := full [4; 8; 8; 1280] pow127_32.
Definition steep_third32 : tensor spec_float := full [4; 8; 8; 1280] minus_pow70_32.
Definition zero_guided32 : tensor spec_float :=
  full [4; 8; 8; 1280] (S754_zero false).

(** a feature map and derivatives of 1 everywhere, in single precision *)
Definition unit_map32 : tensor spec_float :=
  full [4; 8; 8; 1280] (S754_finite false 8388608 (-23)).

(** * Properties *)

(** ** The error monad and loops *)

Lemma bind_Ok {A B} (m : result A) (f : A -> result B) (b : B) :
  m ≫= f = Ok b <-> exists a, m = Ok a /\ f a = Ok b.
Proof.
  destruct m as [a|e]; simpl; split.
  - intros Hf. exists a. split; [reflexivity | exact Hf].
  - intros (a' & Ha & Hf). injection Ha as ->. exact Hf.
  - discriminate.
  - intros (a' & Ha & _). discriminate.
Qed.

Lemma for_each_app {A St} (xs ys : list A) (body : A -> St -> result St) st :
  for_each (xs ++ ys) body st = for_each xs body st ≫= for_each ys body.
Proof.
  revert st. induction xs as [|x xs IH]; intros st; simpl.
  - reflexivity.
  - destruct (body x st) as [st'|e]; simpl; [apply IH | reflexivity].
Qed.

Lemma for_range_S {St} n (body : nat -> St -> result St) st :
  for_range (S n) body st = for_range n body st ≫= body n.
Proof.
  unfold for_range. rewrite seq_S, for_each_app. simpl.
  destruct (for_each (seq 0 n) body st) as [st'|e]; simpl; [|reflexivity].
  destruct (body n st'); reflexivity.
Qed.

(** A loop that keeps an invariant, and whose body cannot fail under it, ends
    in a state satisfying it. *)
Lemma for_range_inv {St} (P : nat -> St -> Prop) n
    (body : nat -> St -> result St) st :
  P 0 st ->
  (forall i s, i < n -> P i s -> exists s', body i s = Ok s' /\ P (S i) s') ->
  exists s', for_range n body st = Ok s' /\ P n s'.
Proof.
  intros H0 Hstep. induction n as [|n IH].
  - exists st. split; [reflexivity | exact H0].
  - destruct IH as (s1 & Hrun & HP).
    { intros i s Hi. apply Hstep. lia. }
    destruct (Hstep n s1 (Nat.lt_succ_diag_r n) HP) as (s2 & Hb & HP2).
    exists s2. split; [|exact HP2].
    rewrite for_range_S, Hrun. exact Hb.
Qed.

(** ** Buffers and indices *)

Lemma length_flat_map_seq {A} (g : nat -> list A) n a m :
  (forall i, length (g i) = n) -> length (flat_map g (seq a m)) = m * n.
Proof.
  intros Hg. revert a. induction m as [|m IH]; intros a; simpl.
  - reflexivity.
  - rewrite length_app, Hg, IH. reflexivity.
Qed.

Lemma lookup_flat_map_seq {A} (g : nat -> list A) n a m i j :
  (forall i, length (g i) = n) -> i < m -> j < n ->
  flat_map g (seq a m) !! (i * n + j) = g (a + i) !! j.
Proof.
  intros Hg. revert a i. induction m as [|m IH]; intros a i Hi Hj; [lia|].
  simpl. destruct i as [|i].
  - rewrite lookup_app_l by (rewrite Hg; lia).
    simpl. rewrite Nat.add_0_r. reflexivity.
  - rewrite lookup_app_r by (rewrite Hg; lia).
    rewrite Hg.
    replace (S i * n + j - n) with (i * n + j) by lia.
    rewrite IH by lia. replace (S a + i) with (a + S i) by lia. reflexivity.
Qed.

Lemma length_tabulate {A} s (f : list nat -> A) :
  length (tabulate s f) = numel s.
Proof.
  revert f. induction s as [|n s IH]; intros f; simpl.
  - reflexivity.
  - rewrite (length_flat_map_seq _ (numel s)); [reflexivity|].
    intros i. apply IH.
Qed.

Lemma ravel_lt s idx o : ravel s idx = Some o -> o < numel s.
Proof.
  revert idx o. induction s as [|n s IH]; intros [|i idx] o; simpl; try discriminate.
  - intros [= <-]. lia.
  - destruct (decide (i < n)) as [Hi|]; [|discriminate].
    destruct (ravel s idx) as [o'|] eqn:Hr; simpl; [|discriminate].
    intros [= <-]. specialize (IH _ _ Hr). nia.
Qed.

Lemma tabulate_lookup {A} s (f : list nat -> A) idx o :
  ravel s idx = Some o -> tabulate s f !! o = Some (f idx).
Proof.
  revert f idx o. induction s as [|n s IH]; intros f [|i idx] o; simpl;
    try discriminate.
  - intros [= <-]. reflexivity.
  - destruct (decide (i < n)) as [Hi|]; [|discriminate].
    destruct (ravel s idx) as [o'|] eqn:Hr; simpl; [|discriminate].
    intros [= <-].
    rewrite (lookup_flat_map_seq _ (numel s)).
    + simpl. apply (IH (fun idx' => f (i :: idx'))). exact Hr.
    + intros k. apply length_tabulate.
    + exact Hi.
    + eapply ravel_lt. exact Hr.
Qed.

Lemma wf_build {A} s (f : list nat -> A) : wf (build s f).
Proof. unfold wf, build. simpl. apply length_tabulate. Qed.

Lemma get_build {A} s (f : list nat -> A) idx o :
  ravel s idx = Some o -> get (build s f) idx = Some (f idx).
Proof.
  intros Hr. unfold get, build. simpl. rewrite Hr. simpl.
  apply tabulate_lookup. exact Hr.
Qed.

Lemma ravel_is_Some s idx :
  Forall2 lt idx s -> is_Some (ravel s idx).
Proof.
  intros Hb. induction Hb as [|i n idx s Hi Hb IH]; simpl.
  - eexists. reflexivity.
  - rewrite decide_True by exact Hi.
    destruct IH as (o & ->). simpl. eexists. reflexivity.
Qed.

Lemma ravel_Some_inv s idx o :
  ravel s idx = Some o -> Forall2 lt idx s.
Proof.
  revert idx o. induction s as [|n s IH]; intros [|i idx] o; simpl; try discriminate.
  - intros _. constructor.
  - destruct (decide (i < n)) as [Hi|]; [|discriminate].
    destruct (ravel s idx) as [o'|] eqn:Hr; simpl; [|discriminate].
    intros _. constructor; [exact Hi | eapply IH; exact Hr].
Qed.

(** distinct in-bounds indices have distinct offsets *)
Lemma ravel_inj s idx1 idx2 o :
  ravel s idx1 = Some o -> ravel s idx2 = Some o -> idx1 = idx2.
Proof.
  revert idx1 idx2 o.
  induction s as [|n s IH]; intros [|i1 idx1] [|i2 idx2] o; simpl; try discriminate.
  - reflexivity.
  - destruct (decide (i1 < n)) as [H1|]; [|discriminate].
    destruct (decide (i2 < n)) as [H2|]; [|discriminate].
    destruct (ravel s idx1) as [o1|] eqn:Hr1; simpl; [|discriminate].
    destruct (ravel s idx2) as [o2|] eqn:Hr2; simpl; [|discriminate].
    intros [= <-] [= Ho].
    pose proof (ravel_lt _ _ _ Hr1) as Hl1.
    pose proof (ravel_lt _ _ _ Hr2) as Hl2.
    assert (i1 = i2) as -> by nia.
    assert (o1 = o2) as -> by lia.
    f_equal. eapply IH; eassumption.
Qed.

Lemma get_wf_is_Some {A} (t : tensor A) idx :
  wf t -> Forall2 lt idx (shape t) -> is_Some (get t idx).
Proof.
  intros Hwf Hb. unfold get.
  destruct (ravel_is_Some _ _ Hb) as (o & Hr). rewrite Hr. simpl.
  apply lookup_lt_is_Some. rewrite Hwf. eapply ravel_lt. exact Hr.
Qed.

(** ** Target layer selector *)

Lemma scan_layers_first ls :
  Exists has_length_4 ls ->
  exists skipped layer rest,
    ls = skipped ++ layer :: rest /\ Forall (fun l => ~ has_length_4 l) skipped /\
    has_length_4 layer /\ scan_layers ls = Ok (name layer).
Proof.
  induction ls as [|l ls IH]; intros Hex.
  - inversion Hex.
  - simpl. destruct (decide (len_output_shape (output_shape l) = 4)) as [H4|H4].
    + exists [], l, ls. repeat split; [constructor | exact H4].
    + destruct IH as (sk & layer & rest & -> & Hsk & Hl & Hscan).
      { inversion Hex; subst; [contradiction | assumption]. }
      exists (l :: sk), layer, rest. repeat split; try assumption.
      constructor; assumption.
Qed.

Lemma scan_layers_none ls :
  Forall (fun l => ~ has_length_4 l) ls -> scan_layers ls = Raise no_4d_layer.
Proof.
  induction 1 as [|l ls Hl _ IH]; simpl; [reflexivity|].
  rewrite decide_False by exact Hl. exact IH.
Qed.

(** every 4-dimensional layer and every layer with four outputs passes the
    selector's test, and nothing else does *)
Lemma has_length_4_cases (layer : Layer) :
  has_length_4 layer <-> is_4d layer \/ four_outputs layer.
Proof.
  unfold has_length_4, is_4d, four_outputs, len_output_shape.
  destruct (output_shape layer) as [dims|shapes]; split.
  - intros Hl. left. exists dims. split; [reflexivity | exact Hl].
  - intros [(d & [= <-] & Hl)|(sh & Hsh & _)]; [exact Hl | discriminate].
  - intros Hl. right. exists shapes. split; [reflexivity | exact Hl].
  - intros [(d & Hd & _)|(sh & [= <-] & Hl)]; [discriminate | exact Hl].
Qed.

(** C5: the selector returns the name of the last layer that passes its test
    [len(layer.output_shape) == 4]: the layer list splits as
    [before ++ layer :: after] with [layer] passing, no layer of [after]
    passing, and the result is [layer]'s name.  That layer is 4-dimensional
    or has four outputs, and no layer after it is 4-dimensional; it is the
    last 4-dimensional layer, as the claim has it, when every layer has one
    output, but not when a layer with four outputs follows that one. *)
Theorem infer_grad_cam_target_layer_last_of_length_4 (model : Model) :
  Exists has_length_4 (layers model) ->
  exists before layer after,
    layers model = before ++ layer :: after /\
    has_length_4 layer /\
    Forall (fun l => ~ has_length_4 l) after /\
    infer_grad_cam_target_layer model = Ok (name layer) /\
    (is_4d layer \/ four_outputs layer) /\
    Forall (fun l => ~ is_4d l) after /\
    ((forall l, l ∈ layers model -> exists dims, output_shape l = one_shape dims) ->
     is_4d layer).
Proof.
  intros Hex. unfold infer_grad_cam_target_layer.
  destruct (scan_layers_first (reverse (layers model)))
    as (sk & layer & rest & Hrev & Hsk & Hl & Hscan).
  { apply Exists_exists. apply Exists_exists in Hex as (l & Hin & Hl).
    exists l. split; [|exact Hl].
    apply list_elem_of_In, elem_of_reverse, list_elem_of_In, Hin. }
  assert (layers model = reverse rest ++ layer :: reverse sk) as Hsplit.
  { rewrite <- (reverse_involutive (layers model)), Hrev.
    rewrite reverse_app, reverse_cons, <- app_assoc. reflexivity. }
  exists (reverse rest), layer, (reverse sk).
  split; [exact Hsplit|]. split; [exact Hl|].
  split; [apply Forall_reverse; exact Hsk|]. split; [exact Hscan|].
  split; [apply has_length_4_cases; exact Hl|]. split.
  - apply Forall_reverse. eapply Forall_impl; [|exact Hsk].
    intros l Hno H4. apply Hno, has_length_4_cases. left. exact H4.
  - intros Hone. destruct (Hone layer) as (dims & Hdims).
    { rewrite Hsplit. apply elem_of_app. right. apply elem_of_cons. left.
      reflexivity. }
    exists dims. split; [exact Hdims|].
    unfold has_length_4 in Hl. rewrite Hdims in Hl. exact Hl.
Qed.

Lemma infer_grad_cam_target_layer_last_of_length_4_witness :
  (exists before layer after,
     layers multi_head_model = before ++ layer :: after /\
     has_length_4 layer /\
     Forall (fun l => ~ has_length_4 l) after /\
     infer_grad_cam_target_layer multi_head_model = Ok (name layer) /\
     (is_4d layer \/ four_outputs layer) /\
     Forall (fun l => ~ is_4d l) after /\
     ((forall l, l ∈ layers multi_head_model ->
                 exists dims, output_shape l = one_shape dims) ->
      is_4d layer)) /\
  infer_grad_cam_target_layer multi_head_model = Ok "heads" /\
  ~ is_4d four_heads /\
  exists before conv after,
    layers multi_head_model = before ++ conv :: after /\
    name conv = "conv" /\ is_4d conv /\ Forall (fun l => ~ is_4d l) after.
Proof.
  split; [|split; [reflexivity|split]].
  - apply (infer_grad_cam_target_layer_last_of_length_4 multi_head_model).
    apply Exists_cons_tl, Exists_cons_hd. reflexivity.
  - intros (dims & Hd & _). discriminate.
  - eexists [_], _, [_; _]. split; [reflexivity|]. split; [reflexivity|].
    split; [eexists; split; reflexivity|].
    constructor; [|constructor; [|constructor]];
      intros (dims & Hd & Hl); cbv in Hd; simplify_eq; discriminate.
Defined.

Example infer_toy_model : infer_grad_cam_target_layer toy_model = Ok "conv2".
Proof. reflexivity. Qed.

(** ** The pipeline around the selector *)

Section PipelineFacts.
Context {F : Type} `{Scalar F} {Pic Grid : Type}.
Variable run_grad_model : Model -> tensor F -> string -> result (Tape F).
Variable heatmap_display : tensor F -> tensor F -> Z -> F -> result Pic.
Variable image_to_rgb : tensor F -> result Pic.
Variable np_concatenate : list Pic -> Pic -> result (list Pic).
Variable grid_display : list Pic -> nat -> nat -> result Grid.

(** C6: the selector raises the no-4D-layer error (the spec's
    NoConvolutionalLayerError, a ValueError in the code) exactly when no layer
    passes its test [len(layer.output_shape) == 4], and a call of [explain]
    that leaves the layer name to be inferred then returns no grid: once the
    batch is fetched it raises exactly that error (and if fetching the batch
    raised, that exception).  A model without a 4-dimensional layer but with
    a layer of four outputs passes the test, so the selector returns a name
    there instead of raising. *)
Theorem explain_aborts_without_layer_of_length_4
    (validation_data : Sequence F) (model : Model) (first : bool)
    (class_index : list Z) (batch_mode : bool) (colormap : Z) (image_weight : F) :
  (infer_grad_cam_target_layer model = Raise NoConvolutionalLayerError <->
   Forall (fun l => ~ has_length_4 l) (layers model)) /\
  (Forall (fun l => ~ has_length_4 l) (layers model) ->
   explain run_grad_model heatmap_display image_to_rgb np_concatenate
           grid_display validation_data model first class_index batch_mode None
           colormap image_weight
   = match select_batch validation_data first batch_mode class_index with
     | Ok _ => Raise NoConvolutionalLayerError
     | Raise e => Raise e
     end /\
   forall grid, explain run_grad_model heatmap_display image_to_rgb np_concatenate
                        grid_display validation_data model first class_index
                        batch_mode None colormap image_weight <> Ok grid) /\
  (Exists four_outputs (layers model) ->
   exists layer_name, infer_grad_cam_target_layer model = Ok layer_name).
Proof.
  assert (Forall (fun l => ~ has_length_4 l) (layers model) ->
          infer_grad_cam_target_layer model = Raise NoConvolutionalLayerError)
    as Hraise.
  { intros Hno. unfold infer_grad_cam_target_layer. apply scan_layers_none.
    apply Forall_reverse. exact Hno. }
  assert (Exists has_length_4 (layers model) ->
          exists layer_name, infer_grad_cam_target_layer model = Ok layer_name)
    as Hfound.
  { intros Hex. unfold infer_grad_cam_target_layer.
    destruct (scan_layers_first (reverse (layers model)))
      as (_ & layer & _ & _ & _ & _ & Hscan).
    - apply Exists_exists. apply Exists_exists in Hex as (l & Hin & Hl).
      exists l. split; [|exact Hl].
      apply list_elem_of_In, elem_of_reverse, list_elem_of_In, Hin.
    - exists (name layer). exact Hscan. }
  split; [|split].
  - split; [|exact Hraise]. intros Hinf.
    apply Forall_forall. intros l Hin Hl.
    destruct Hfound as (n & Hn).
    + apply Exists_exists. exists l. split; assumption.
    + rewrite Hn in Hinf. discriminate.
  - intros Hno. pose proof (Hraise Hno) as Hinf.
    assert (explain run_grad_model heatmap_display image_to_rgb np_concatenate
              grid_display validation_data model first class_index batch_mode None
              colormap image_weight
            = match select_batch validation_data first batch_mode class_index with
              | Ok _ => Raise NoConvolutionalLayerError
              | Raise e => Raise e
              end) as Hex.
    { unfold explain.
      destruct (select_batch validation_data first batch_mode class_index)
        as [[images ci]|e]; simpl; [|reflexivity].
      rewrite Hinf. reflexivity. }
    split; [exact Hex|].
    intros grid. rewrite Hex.
    destruct (select_batch validation_data first batch_mode class_index);
      discriminate.
  - intros Hex. apply Hfound.
    apply Exists_exists. apply Exists_exists in Hex as (l & Hin & Hl).
    exists l. split; [exact Hin|]. apply has_length_4_cases. right. exact Hl.
Qed.
End PipelineFacts.

Lemma explain_aborts_without_layer_of_length_4_witness :
  (infer_grad_cam_target_layer dense_model = Raise NoConvolutionalLayerError /\
   explain no_tape no_heatmap no_rgb no_concatenate no_grid
           tiny_data dense_model true [0%Z] false None 2%Z 1%Qc
   = match select_batch tiny_data true false [0%Z] with
     | Ok _ => Raise NoConvolutionalLayerError
     | Raise e => Raise e
     end /\
   forall grid, explain no_tape no_heatmap no_rgb no_concatenate no_grid
                        tiny_data dense_model true [0%Z] false None 2%Z 1%Qc
                <> Ok grid) /\
  (Forall (fun l => ~ is_4d l) (layers dense_multi_head_model) /\
   infer_grad_cam_target_layer dense_multi_head_model = Ok "heads" /\
   exists layer_name,
     infer_grad_cam_target_layer dense_multi_head_model = Ok layer_name).
Proof.
  split.
  - destruct (explain_aborts_without_layer_of_length_4 no_tape no_heatmap no_rgb
                no_concatenate no_grid tiny_data dense_model true [0%Z] false
                2%Z 1%Qc) as (Hiff & Habort & _).
    assert (Forall (fun l => ~ has_length_4 l) (layers dense_model)) as Hno.
    { repeat constructor; unfold has_length_4; simpl; lia. }
    split; [apply Hiff; exact Hno|]. exact (Habort Hno).
  - split; [|split; [reflexivity|]].
    + constructor; [|constructor; [|constructor]];
        intros (dims & Hd & Hl); cbv in Hd; simplify_eq; discriminate.
    + apply (explain_aborts_without_layer_of_length_4 no_tape no_heatmap no_rgb
               no_concatenate no_grid tiny_data dense_multi_head_model true [0%Z]
               false 2%Z 1%Qc).
      apply Exists_cons_tl, Exists_cons_hd.
      eexists. split; reflexivity.
Defined.

(** ** Class indices in batch mode *)

Section BatchMode.
Context {F : Type} `{Scalar F} {Pic Grid : Type}.
Variable run_grad_model : Model -> tensor F -> string -> result (Tape F).
Variable heatmap_display : tensor F -> tensor F -> Z -> F -> result Pic.
Variable image_to_rgb : tensor F -> result Pic.
Variable np_concatenate : list Pic -> Pic -> result (list Pic).
Variable grid_display : list Pic -> nat -> nat -> result Grid.

Lemma where_eq1_app (a : nat) (l1 l2 : list F) :
  where_eq1 a (l1 ++ l2) = where_eq1 a l1 ++ where_eq1 (a + length l1) l2.
Proof.
  revert a. induction l1 as [|x l1 IH]; intros a; simpl.
  - rewrite Nat.add_0_r. reflexivity.
  - rewrite IH. replace (S a + length l1) with (a + S (length l1)) by lia.
    destruct (eqb1 x); reflexivity.
Qed.

Lemma where_eq1_cold (a : nat) (r : list F) :
  (forall k x, r !! k = Some x -> eqb1 x = false) -> where_eq1 a r = [].
Proof.
  revert a. induction r as [|x r IH]; intros a Hr; simpl; [reflexivity|].
  rewrite (Hr 0 x eq_refl). apply IH.
  intros k y Hk. apply (Hr (S k) y Hk).
Qed.

Lemma where_eq1_hot_row (a K c : nat) (r : list F) :
  hot_row K c r -> where_eq1 a r = [a + c].
Proof.
  intros (Hlen & Hc & Hr). subst K. revert a c Hc Hr.
  induction r as [|x r IH]; intros a c Hc Hr; simpl in Hc; [lia|].
  simpl. rewrite (Hr 0 x eq_refl). destruct c as [|c].
  - rewrite bool_decide_eq_true_2 by reflexivity.
    rewrite where_eq1_cold, Nat.add_0_r; [reflexivity|].
    intros k y Hk. rewrite (Hr (S k) y Hk).
    apply bool_decide_eq_false_2. lia.
  - rewrite bool_decide_eq_false_2 by lia.
    rewrite (IH (S a) c); [f_equal; lia | lia |].
    intros k y Hk. rewrite (Hr (S k) y Hk).
    apply bool_decide_ext. lia.
Qed.

Lemma where_eq1_one_hot (a K : nat) (cs : list nat) (rows : list (list F)) :
  Forall2 (hot_row K) cs rows ->
  where_eq1 a (concat rows) = imap (fun i c => a + i * K + c) cs.
Proof.
  intros Hrows. revert a.
  induction Hrows as [|c r cs rows Hr _ IH]; intros a; simpl; [reflexivity|].
  rewrite where_eq1_app, (where_eq1_hot_row a K c r Hr).
  destruct Hr as (-> & _ & _). rewrite IH. simpl. f_equal; [lia|].
  apply imap_ext. intros i x _. simpl. lia.
Qed.

Lemma labels_to_class_index_one_hot (K : nat) (cs : list nat) (labels : tensor F) :
  one_hot K cs labels ->
  labels_to_class_index labels
  = imap (fun i c => (Z.of_nat c + Z.of_nat i * (Z.of_nat K - 4))%Z) cs.
Proof.
  intros (rows & Hrows & Hdata & _).
  unfold labels_to_class_index. rewrite Hdata, (where_eq1_one_hot 0 K cs rows Hrows).
  apply list_eq. intros i. rewrite !list_lookup_imap.
  destruct (cs !! i) as [c|]; simpl; [|reflexivity].
  f_equal. lia.
Qed.

(** C10: in batch mode [explain] goes on with class indices that do not depend
    on the caller's [class_index]: they are computed from the labels of the
    fetched batch, flattened, by taking the positions that hold 1 and
    subtracting from the i-th of them 4 times i.  For one-hot labels with [K]
    classes that position lies in row i, and the value obtained for image i of
    class c is c + i * (K - 4): the classes themselves when K = 4, and not
    the classes for any other K as soon as the batch has two images. *)
Theorem batch_mode_class_index (validation_data : Sequence F) (first : bool)
    (class_index : list Z) :
  (forall class_index' model layer_name colormap image_weight,
     explain run_grad_model heatmap_display image_to_rgb np_concatenate
          grid_display validation_data model first class_index' true layer_name
              colormap image_weight
     = explain run_grad_model heatmap_display image_to_rgb np_concatenate
          grid_display validation_data model first class_index true layer_name
                colormap image_weight) /\
  select_batch validation_data first true class_index
  = ('(images, labels) ←
        getitem validation_data (if first then 0%Z else batch_index validation_data);
     Ok (images, labels_to_class_index labels)) /\
  (forall class_index',
     select_batch validation_data first true class_index'
     = select_batch validation_data first true class_index) /\
  (forall labels, labels_to_class_index labels
     = imap (fun i num => (Z.of_nat num - Z.of_nat i * 4)%Z)
            (where_eq1 0 (data labels))) /\
  forall (K : nat) (cs : list nat) (labels : tensor F),
    one_hot K cs labels ->
    where_eq1 0 (data labels) = imap (fun i c => i * K + c) cs /\
    labels_to_class_index labels
    = imap (fun i c => (Z.of_nat c + Z.of_nat i * (Z.of_nat K - 4))%Z) cs /\
    (K = 4 -> labels_to_class_index labels = Z.of_nat <$> cs) /\
    (K <> 4 -> 2 <= length cs -> labels_to_class_index labels <> Z.of_nat <$> cs).
Proof.
  split; [|split; [|split; [|split]]].
  - intros ci' model layer_name colormap image_weight. reflexivity.
  - unfold select_batch. destruct first; reflexivity.
  - intros ci'. reflexivity.
  - intros labels. reflexivity.
  - intros K cs labels Hhot.
    pose proof (labels_to_class_index_one_hot K cs labels Hhot) as Heq.
    split; [|split; [exact Heq | split]].
    + destruct Hhot as (rows & Hrows & -> & _).
      rewrite (where_eq1_one_hot 0 K cs rows Hrows).
      apply imap_ext. intros i c _. simpl. lia.
    + intros ->. rewrite Heq. apply list_eq. intros i.
      rewrite list_lookup_imap, list_lookup_fmap.
      destruct (cs !! i) as [c|]; simpl; [|reflexivity]. f_equal. lia.
    + intros HK Hlen. rewrite Heq. intros Habs.
      destruct cs as [|c0 [|c1 cs]]; simpl in Hlen; try lia.
      apply (f_equal (fun l => l !! 1)) in Habs. simpl in Habs.
      injection Habs as Habs. lia.
Qed.
End BatchMode.

Lemma tiny_labels_one_hot : one_hot 3 [1; 2] tiny_labels.
Proof.
  exists [[0%Qc; 1%Qc; 0%Qc]; [0%Qc; 0%Qc; 1%Qc]].
  split; [|split; reflexivity].
  repeat constructor; simpl; try lia;
    intros [|[|[|k]]] x Hx; simpl in Hx; try discriminate;
    injection Hx as <-; reflexivity.
Qed.

Lemma batch_mode_class_index_witness :
  labels_to_class_index tiny_labels = [1%Z; 1%Z] /\
  labels_to_class_index tiny_labels <> Z.of_nat <$> [1; 2].
Proof.
  destruct (batch_mode_class_index no_tape no_heatmap no_rgb no_concatenate
              no_grid tiny_data true []) as (_ & _ & _ & _ & Hhot).
  destruct (Hhot 3 [1; 2] tiny_labels tiny_labels_one_hot) as (_ & Heq & _ & Hne).
  split.
  - rewrite Heq. reflexivity.
  - apply Hne; simpl; lia.
Defined.

(** ** Tensor operations *)

Lemma broadcast_rev_same r : broadcast_rev r r = Some r.
Proof.
  induction r as [|a r IH]; simpl; [reflexivity|].
  rewrite decide_True by reflexivity. rewrite IH. reflexivity.
Qed.

Lemma broadcast_shapes_same s : broadcast_shapes s s = Some s.
Proof.
  unfold broadcast_shapes. rewrite broadcast_rev_same. simpl.
  rewrite reverse_involutive. reflexivity.
Qed.

Lemma bindex_same s idx : Forall2 lt idx s -> bindex s idx = idx.
Proof.
  intros Hb. unfold bindex.
  rewrite (Forall2_length Hb), Nat.sub_diag, drop_0.
  induction Hb as [|i n idx s Hi Hb IH]; [reflexivity|].
  cbn [zip_with]. rewrite IH.
  destruct (decide (n = 1)); [f_equal; lia | reflexivity].
Qed.

Lemma tabulate_ext {A} s (f g : list nat -> A) :
  (forall idx, Forall2 lt idx s -> f idx = g idx) -> tabulate s f = tabulate s g.
Proof.
  revert f g. induction s as [|n s IH]; intros f g Hfg; simpl.
  - rewrite (Hfg [] (Forall2_nil _)). reflexivity.
  - assert (forall a m, a + m <= n ->
      flat_map (fun i => tabulate s (fun idx => f (i :: idx))) (seq a m)
      = flat_map (fun i => tabulate s (fun idx => g (i :: idx))) (seq a m)) as Hall.
    { intros a m. revert a. induction m as [|m IHm]; intros a Ham; simpl; [reflexivity|].
      rewrite IHm by lia. f_equal. apply IH. intros idx Hidx.
      apply Hfg. constructor; [lia | exact Hidx]. }
    apply Hall. lia.
Qed.

Lemma flat_map_replicate {A} (c : A) k a m :
  flat_map (fun _ : nat => replicate k c) (seq a m) = replicate (m * k) c.
Proof.
  revert a. induction m as [|m IH]; intros a; simpl; [reflexivity|].
  rewrite IH, replicate_add. reflexivity.
Qed.

Lemma tabulate_const {A} s (c : A) :
  tabulate s (fun _ => c) = replicate (numel s) c.
Proof.
  induction s as [|n s IH]; simpl; [reflexivity|].
  rewrite <- flat_map_replicate with (a := 0).
  apply flat_map_ext. intros i. exact IH.
Qed.

Lemma get_tmap {A B} (f : A -> B) (t : tensor A) idx :
  get (tmap f t) idx = f <$> get t idx.
Proof.
  unfold get, tmap. simpl. destruct (ravel (shape t) idx) as [o|]; simpl.
  - apply list_lookup_fmap.
  - reflexivity.
Qed.

Lemma wf_tmap {A B} (f : A -> B) (t : tensor A) : wf t -> wf (tmap f t).
Proof. unfold wf, tmap. simpl. rewrite length_fmap. trivial. Qed.

Lemma get_Some_bounds {A} (t : tensor A) idx v :
  get t idx = Some v -> Forall2 lt idx (shape t).
Proof.
  unfold get. destruct (ravel (shape t) idx) as [o|] eqn:Hr; simpl; [|discriminate].
  intros _. eapply ravel_Some_inv. exact Hr.
Qed.

Section TensorFacts.
Context {F : Type} `{Scalar F}.

Lemma at_get (t : tensor F) idx v : get t idx = Some v -> at_ t idx = v.
Proof. unfold at_. intros ->. reflexivity. Qed.

Lemma get_at (t : tensor F) idx :
  wf t -> Forall2 lt idx (shape t) -> get t idx = Some (at_ t idx).
Proof.
  intros Hwf Hb. destruct (get_wf_is_Some t idx Hwf Hb) as (v & Hv).
  rewrite Hv. f_equal. symmetry. apply at_get. exact Hv.
Qed.

Lemma get_build_at s (f : list nat -> F) idx :
  Forall2 lt idx s -> get (build s f) idx = Some (f idx).
Proof.
  intros Hb. destruct (ravel_is_Some _ _ Hb) as (o & Hr).
  eapply get_build. exact Hr.
Qed.

(** an elementwise operation on two tensors of one shape *)
Lemma binop_same opname (f : F -> F -> F) (a b : tensor F) :
  shape a = shape b ->
  binop opname f a b
  = Ok (build (shape a) (fun idx => f (at_ a idx) (at_ b idx))).
Proof.
  intros Hs. unfold binop. rewrite <- Hs, broadcast_shapes_same.
  unfold build. do 2 f_equal. apply tabulate_ext. intros idx Hidx.
  rewrite (bindex_same _ _ Hidx). reflexivity.
Qed.

Lemma get_binop_same opname (f : F -> F -> F) (a b r : tensor F) idx x y :
  shape a = shape b -> binop opname f a b = Ok r ->
  get a idx = Some x -> get b idx = Some y -> get r idx = Some (f x y).
Proof.
  intros Hs Hr Hx Hy. rewrite (binop_same _ _ _ _ Hs) in Hr. injection Hr as <-.
  rewrite get_build_at by (eapply get_Some_bounds; exact Hx).
  rewrite (at_get _ _ _ Hx), (at_get _ _ _ Hy). reflexivity.
Qed.
End TensorFacts.

(** ** Gradient extractor *)

Section ExtractorFacts.
Context {F : Type} `{Scalar F}.

(** the guided gradient, cell by cell, as the code multiplies it out *)
Lemma guided_grad_cells (conv g : tensor F) :
  shape g = shape conv -> wf conv -> wf g ->
  exists gg, guided_grad conv g = Ok gg /\ shape gg = shape conv /\ wf gg /\
    forall idx x d, get conv idx = Some x -> get g idx = Some d ->
      get gg idx = Some (mul (mul (if gtb0 x then one else zero)
                                  (if gtb0 d then one else zero)) d).
Proof.
  intros Hs Hwc Hwg. unfold guided_grad, tf_multiply.
  rewrite binop_same by (simpl; congruence). simpl.
  rewrite binop_same by (simpl; congruence). simpl.
  eexists. split; [reflexivity|]. split; [reflexivity|]. split; [apply wf_build|].
  intros idx x d Hx Hd.
  rewrite get_build_at by (eapply get_Some_bounds; exact Hx).
  f_equal. f_equal; [|apply at_get; exact Hd].
  apply at_get. rewrite get_build_at by (eapply get_Some_bounds; exact Hx).
  f_equal. f_equal; apply at_get; unfold cast_gt0; rewrite get_tmap.
  - rewrite Hx. reflexivity.
  - rewrite Hd. reflexivity.
Qed.

Lemma gradients_step_extracted (tape : Tape F) (class_index : list Z) i st :
  tape_ok tape class_index -> i < length class_index ->
  extracted tape class_index i st ->
  exists st', gradients_step tape class_index i st = Ok st' /\
              extracted tape class_index (S i) st'.
Proof.
  intros (Hwf & Htape) Hi (L1 & L2 & L3 & L4 & Hcells).
  destruct (lookup_lt_is_Some_2 class_index i Hi) as (c & Hc).
  assert (c ∈ class_index) as Hin by (eapply list_elem_of_lookup_2; exact Hc).
  destruct (Htape c 1 Hin ltac:(lia)) as (g1 & Hg1 & Hs1 & Hw1).
  destruct (Htape c 2 Hin ltac:(lia)) as (g2 & Hg2 & _ & _).
  destruct (Htape c 3 Hin ltac:(lia)) as (g3 & Hg3 & _ & _).
  destruct (guided_grad_cells (tape_conv_outputs tape) g1 Hs1 Hwf Hw1)
    as (gg & Hgg & _).
  unfold gradients_step, list_get. rewrite Hc. simpl.
  rewrite Hg1. simpl. rewrite Hg2. simpl. rewrite Hg3. simpl.
  rewrite lookup_app_r by lia. rewrite L1, Nat.sub_diag. simpl.
  rewrite Hgg. simpl. eexists. split; [reflexivity|].
  unfold extracted. simpl. rewrite !length_app. simpl.
  repeat (split; [lia|]).
  intros j cj Hj Hcj. destruct (decide (j = i)) as [->|Hne].
  - rewrite Hc in Hcj. injection Hcj as <-.
    exists g1, g2, g3, gg. repeat (split; [assumption|]).
    rewrite !lookup_app_r by lia. rewrite L1, L2, L3, L4, Nat.sub_diag.
    repeat split; reflexivity.
  - destruct (Hcells j cj ltac:(lia) Hcj)
      as (h1 & h2 & h3 & hg & ? & ? & ? & ? & ? & ? & ? & ?).
    exists h1, h2, h3, hg. repeat (split; [assumption|]).
    rewrite !lookup_app_l by lia. repeat split; assumption.
Qed.

Lemma gradients_loop_extracted (tape : Tape F) (class_index : list Z) :
  tape_ok tape class_index ->
  exists st, gradients_loop tape class_index = Ok st /\
             extracted tape class_index (length class_index) st.
Proof.
  intros Hok. unfold gradients_loop.
  apply (for_range_inv (extracted tape class_index)).
  - repeat split; try reflexivity. intros i c Hi. lia.
  - intros i s Hi HP. apply gradients_step_extracted; assumption.
Qed.
End ExtractorFacts.

(** ** IEEE single precision satisfies the shared laws *)

Lemma fexp_canonical (m : positive) (e : Z) :
  canonical_mantissa 24 128 m e = true ->
  fexp 24 128 (Z.pos (digits2_pos m) + e) = e.
Proof. unfold canonical_mantissa. intros Hc. apply Z.eqb_eq in Hc. exact Hc. Qed.

(** the product of 1 and a single-precision value is that value: the
    rounding of the shifted mantissa is exact *)
Lemma b32_mul_one_value (x : spec_float) :
  valid_binary 24 128 x = true ->
  SFmul 24 128 (S754_finite false 8388608 (-23)) x = x.
Proof.
  destruct x as [s|s| |s m e]; try reflexivity.
  unfold valid_binary, bounded. intros Hb.
  apply andb_prop in Hb as [Hc He]. apply fexp_canonical in Hc.
  unfold SFmul. cbn [xorb].
  change (8388608 * m)%positive
    with (m~0~0~0~0~0~0~0~0~0~0~0~0~0~0~0~0~0~0~0~0~0~0~0)%positive.
  unfold binary_round_aux. unfold shr_fexp at 1.
  cbn [Zdigits2 digits2_pos shr_record_of_loc].
  match goal with
  | |- context [(fexp 24 128 ?a - ?b)%Z] =>
      replace (fexp 24 128 a - b)%Z with 23%Z
  end.
  2:{ match goal with
      | |- context [fexp 24 128 ?a] =>
          replace a with (Z.pos (digits2_pos m) + e)%Z by lia
      end.
      rewrite Hc. lia. }
  cbn [shr SpecFloat.iter_pos shr_1 orb shr_m loc_of_shr_record
       round_nearest_even].
  replace (-23 + e + 23)%Z with e by lia.
  unfold shr_fexp. cbn [Zdigits2 shr_record_of_loc].
  rewrite Hc, Z.sub_diag. cbn [shr shr_m]. rewrite He. reflexivity.
Qed.

Lemma shr_1_pos (m : positive) (r s : bool) :
  (1 < Z.pos (digits2_pos m))%Z ->
  exists m' r' s',
    shr_1 (Build_shr_record (Z.pos m) r s) = Build_shr_record (Z.pos m') r' s' /\
    Z.pos (digits2_pos m') = (Z.pos (digits2_pos m) - 1)%Z.
Proof.
  intros Hd. destruct m as [p|p|]; cbn [digits2_pos] in Hd |- *; [| |lia].
  - exists p, true, (r || s). split; [reflexivity | lia].
  - exists p, false, (r || s). split; [reflexivity | lia].
Qed.

(** shifting a mantissa right by fewer places than it has digits leaves a
    positive mantissa *)
Lemma iter_shr_1_pos (k : positive) : forall (m : positive) (r s : bool),
  (Z.pos k < Z.pos (digits2_pos m))%Z ->
  exists m' r' s',
    SpecFloat.iter_pos shr_1 k (Build_shr_record (Z.pos m) r s)
    = Build_shr_record (Z.pos m') r' s' /\
    Z.pos (digits2_pos m') = (Z.pos (digits2_pos m) - Z.pos k)%Z.
Proof.
  induction k as [k IH|k IH|]; intros m r s Hk; cbn [SpecFloat.iter_pos].
  - destruct (shr_1_pos m r s ltac:(lia)) as (m1 & r1 & s1 & -> & Hd1).
    destruct (IH m1 r1 s1 ltac:(lia)) as (m2 & r2 & s2 & -> & Hd2).
    destruct (IH m2 r2 s2 ltac:(lia)) as (m3 & r3 & s3 & -> & Hd3).
    exists m3, r3, s3. split; [reflexivity | lia].
  - destruct (IH m r s ltac:(lia)) as (m2 & r2 & s2 & -> & Hd2).
    destruct (IH m2 r2 s2 ltac:(lia)) as (m3 & r3 & s3 & -> & Hd3).
    exists m3, r3, s3. split; [reflexivity | lia].
  - apply shr_1_pos. lia.
Qed.

Lemma shr_fexp_pos (m : positive) (e : Z) (l : location) :
  (-149 <= e)%Z ->
  exists m' r' s' e',
    shr_fexp 24 128 (Z.pos m) e l = (Build_shr_record (Z.pos m') r' s', e') /\
    (-149 <= e')%Z.
Proof.
  intros He. unfold shr_fexp. cbn [Zdigits2].
  assert (exists r s, shr_record_of_loc (Z.pos m) l = Build_shr_record (Z.pos m) r s)
    as (r & s & ->).
  { destruct l as [|[| |]]; eexists _, _; reflexivity. }
  destruct (fexp 24 128 (Z.pos (digits2_pos m) + e) - e)%Z as [|k|k] eqn:Ha;
    cbn [shr].
  - exists m, r, s, e. split; [reflexivity | exact He].
  - destruct (iter_shr_1_pos k m r s) as (m' & r' & s' & -> & _).
    { unfold fexp, emin in Ha. lia. }
    exists m', r', s', (e + Z.pos k)%Z. split; [reflexivity | lia].
  - exists m, r, s, e. split; [reflexivity | exact He].
Qed.

(** rounding a positive mantissa above the smallest exponent gives a finite
    value that is not zero, or an infinity *)
Lemma binary_round_aux_pos (sx : bool) (m : positive) (e : Z) (l : location) :
  (-149 <= e)%Z ->
  (exists m' e', binary_round_aux 24 128 sx (Z.pos m) e l = S754_finite sx m' e') \/
  binary_round_aux 24 128 sx (Z.pos m) e l = S754_infinity sx.
Proof.
  intros He. unfold binary_round_aux.
  destruct (shr_fexp_pos m e l He) as (m1 & r1 & s1 & e1 & -> & He1).
  assert (exists m2, round_nearest_even (shr_m (Build_shr_record (Z.pos m1) r1 s1))
                       (loc_of_shr_record (Build_shr_record (Z.pos m1) r1 s1))
                     = Z.pos m2) as (m2 & ->).
  { cbn [shr_m loc_of_shr_record]. destruct r1, s1; cbn [round_nearest_even];
      try (eexists; reflexivity).
    destruct (Z.even (Z.pos m1)); eexists; reflexivity. }
  destruct (shr_fexp_pos m2 e1 loc_Exact He1) as (m3 & r3 & s3 & e3 & -> & _).
  cbn [shr_m]. destruct (e3 <=? 128 - 24)%Z.
  - left. eexists _, _. reflexivity.
  - right. reflexivity.
Qed.

(** a positive element count converts to a value that is neither zero nor
    NaN *)
Lemma b32_of_nat_pos (n : nat) :
  0 < n ->
  (exists m e, b32_of_nat n = S754_finite false m e) \/
  b32_of_nat n = S754_infinity false.
Proof.
  intros Hn. unfold b32_of_nat.
  destruct (Z.of_nat n) as [|p|p] eqn:Hp; [lia| |lia].
  unfold binary_normalize, binary_round, shl_align.
  destruct (fexp 24 128 (Z.pos (digits2_pos p) + 0) - 0)%Z as [|d|d] eqn:Hd.
  - apply binary_round_aux_pos. lia.
  - apply binary_round_aux_pos. lia.
  - apply binary_round_aux_pos. unfold fexp, emin. lia.
Qed.

#[global] Instance binary32_finite_arith : FiniteArith spec_float.
Proof.
  split.
  - intros x Hx. exact Hx.
  - intros [[]|[]| |[] m e]; cbn; congruence.
  - exact I.
  - intros [s|s| |s m e]; cbn; tauto.
  - reflexivity.
  - reflexivity.
  - reflexivity.
  - reflexivity.
  - exact b32_mul_one_value.
  - intros [s|s| |s m e] [s'|s'| |s' m' e']; cbn; tauto.
  - intros [s|s| |s m e] [s'|s'| |s' m' e']; cbn; tauto.
  - intros [[]|s| |s m e] [[]|s'| |s' m' e']; cbn; tauto.
  - intros [s|s| |s m e] n Hn; cbn; try tauto. intros _.
    change (of_nat n) with (b32_of_nat n).
    destruct (b32_of_nat_pos n Hn) as [(m' & e' & ->)| ->]; exact I.
Qed.

Section Gating.
Context {F : Type} `{FiniteArith F}.
Variable run_grad_model : Model -> tensor F -> string -> result (Tape F).

(** C4 (amended): for every class index, the guided gradient the extractor
    returns is a zero at every position where the first derivative is finite
    and the feature map is <= 0 or the first derivative is <= 0, and is the
    first derivative itself at every position where both are > 0 (the
    derivative being a value of the arithmetic, as every float32 is: the
    encoding [spec_float] also holds mantissas that no float32 has).  This
    holds in every arithmetic with the laws that exact and IEEE arithmetic
    share, single precision among them, where a zero has either sign (the
    engine is assumed to answer with tensors shaped like the feature map). *)
Theorem guided_gradient_gating (model : Model) (images : tensor F)
    (layer_name : string) (class_index : list Z) (tape : Tape F) :
  run_grad_model model images layer_name = Ok tape ->
  tape_ok tape class_index ->
  exists seconds thirds guided,
    get_gradients_and_filters run_grad_model model images layer_name class_index
    = Ok (tape_conv_outputs tape, seconds, thirds, guided, class_index) /\
    length guided = length class_index /\
    forall i c, class_index !! i = Some c ->
      exists g1 gg,
        tape_gradient tape 1 c = Ok g1 /\ guided !! i = Some gg /\
        shape gg = shape (tape_conv_outputs tape) /\
        forall idx x d,
          get (tape_conv_outputs tape) idx = Some x -> get g1 idx = Some d ->
          (is_finite d -> is_nonpos x \/ is_nonpos d ->
           exists z, get gg idx = Some z /\ is_zero z) /\
          (is_value d -> is_pos x /\ is_pos d -> get gg idx = Some d).
Proof.
  intros Hrun Hok.
  destruct (gradients_loop_extracted tape class_index Hok)
    as (st & Hloop & (_ & _ & _ & L4 & Hcells)).
  exists (second_derivative st), (third_derivative st), (guided_grads st).
  split; [|split; [exact L4|]].
  { unfold get_gradients_and_filters. rewrite Hrun. simpl. rewrite Hloop.
    reflexivity. }
  intros i c Hc.
  destruct (Hcells i c (lookup_lt_Some _ _ _ Hc) Hc)
    as (g1 & g2 & g3 & gg & Hg1 & _ & _ & Hgg & _ & _ & _ & Hlook).
  exists g1, gg. split; [exact Hg1|]. split; [exact Hlook|].
  destruct Hok as (Hwf & Htape).
  destruct (Htape c 1 (list_elem_of_lookup_2 _ _ _ Hc) ltac:(lia))
    as (g1' & Hg1' & Hs1 & Hw1).
  rewrite Hg1 in Hg1'. injection Hg1' as <-.
  destruct (guided_grad_cells (tape_conv_outputs tape) g1 Hs1 Hwf Hw1)
    as (gg' & Hgg' & Hsg & _ & Hcell).
  rewrite Hgg in Hgg'. injection Hgg' as <-.
  split; [exact Hsg|].
  intros idx x d Hx Hd. rewrite (Hcell idx x d Hx Hd). split.
  - intros Hfin Hle. eexists. split; [reflexivity|].
    assert (mul (if gtb0 x then one else zero) (if gtb0 d then one else zero)
            = zero) as ->.
    { destruct Hle as [Hle|Hle]; apply is_nonpos_gtb0 in Hle; rewrite Hle.
      - destruct (gtb0 d); [apply mul_zero_one | apply mul_zero_zero].
      - destruct (gtb0 x); [apply mul_one_zero | apply mul_zero_zero]. }
    apply mul_zero_finite; [apply is_zero_zero | exact Hfin].
  - intros Hval [Hx0 Hd0]. apply is_pos_gtb0 in Hx0, Hd0. rewrite Hx0, Hd0.
    rewrite mul_one_one, (mul_one_value d Hval). reflexivity.
Qed.
End Gating.

Lemma toy_tape_ok : tape_ok toy_tape [0%Z].
Proof.
  split; [reflexivity|]. intros c k _ _.
  eexists. split; [reflexivity|]. split; reflexivity.
Qed.

Lemma toy_tape32_ok : tape_ok toy_tape32 [0%Z].
Proof.
  split; [reflexivity|]. intros c k _ _.
  eexists. split; [reflexivity|]. split; reflexivity.
Qed.

Lemma guided_gradient_gating_witness :
  (exists seconds thirds guided,
     get_gradients_and_filters toy_engine32 toy_model tiny_image32 "conv2" [0%Z]
     = Ok (tape_conv_outputs toy_tape32, seconds, thirds, guided, [0%Z]) /\
     length guided = 1 /\
     forall i c, [0%Z] !! i = Some c ->
       exists g1 gg,
         tape_gradient toy_tape32 1 c = Ok g1 /\ guided !! i = Some gg /\
         shape gg = shape (tape_conv_outputs toy_tape32) /\
         forall idx x d,
           get (tape_conv_outputs toy_tape32) idx = Some x ->
           get g1 idx = Some d ->
           (is_finite d -> is_nonpos x \/ is_nonpos d ->
            exists z, get gg idx = Some z /\ is_zero z) /\
           (is_value d -> is_pos x /\ is_pos d -> get gg idx = Some d)) /\
  (exists seconds thirds guided,
     get_gradients_and_filters toy_engine toy_model tiny_images "conv2" [0%Z]
     = Ok (tape_conv_outputs toy_tape, seconds, thirds, guided, [0%Z]) /\
     length guided = 1 /\
     forall i c, [0%Z] !! i = Some c ->
       exists g1 gg,
         tape_gradient toy_tape 1 c = Ok g1 /\ guided !! i = Some gg /\
         shape gg = shape (tape_conv_outputs toy_tape) /\
         forall idx x d,
           get (tape_conv_outputs toy_tape) idx = Some x ->
           get g1 idx = Some d ->
           (is_finite d -> is_nonpos x \/ is_nonpos d ->
            exists z, get gg idx = Some z /\ is_zero z) /\
           (is_value d -> is_pos x /\ is_pos d -> get gg idx = Some d)).
Proof.
  split.
  - apply (guided_gradient_gating toy_engine32 toy_model tiny_image32 "conv2"
             [0%Z] toy_tape32).
    + reflexivity.
    + exact toy_tape32_ok.
  - apply (guided_gradient_gating toy_engine toy_model tiny_images "conv2"
             [0%Z] toy_tape).
    + reflexivity.
    + exact toy_tape_ok.
Defined.

(** C4 as stated fails in single precision where the first derivative is
    infinite: at an activation of -1 (so <= 0) with derivative +infinity the
    product of the masks is 0 and 0 * infinity is NaN, not zero. *)
Lemma guided_gradient_nan_at_infinite_gradient :
  is_nonpos minus_one32 /\
  get_gradients_and_filters infinite_gradient_engine toy_model tiny_image32
                            "conv2" [0%Z]
  = Ok (Tensor [1; 1; 1; 1] [minus_one32],
        [Tensor [1; 1; 1; 1] [S754_infinity false]],
        [Tensor [1; 1; 1; 1] [S754_infinity false]],
        [Tensor [1; 1; 1; 1] [S754_nan]], [0%Z]) /\
  ~ is_zero S754_nan /\ S754_nan <> zero.
Proof.
  split; [reflexivity|]. split; [reflexivity|]. split; [intros []|discriminate].
Qed.

(** ** The in-place scaling loops *)

Lemma np_setitem_spec {A} (t : tensor A) idx (v0 v : A) :
  get t idx = Some v0 ->
  exists t', np_setitem t idx v = Ok t' /\ shape t' = shape t /\
             length (data t') = length (data t) /\
             get t' idx = Some v /\
             forall idx', idx' <> idx -> get t' idx' = get t idx'.
Proof.
  unfold get, np_setitem.
  destruct (ravel (shape t) idx) as [o|] eqn:Hr; simpl; [|discriminate].
  intros Hv. assert (o < length (data t)) as Ho by (eapply lookup_lt_Some; exact Hv).
  rewrite decide_True by exact Ho. eexists. split; [reflexivity|]. simpl.
  split; [reflexivity|]. split; [apply length_insert|]. split.
  - rewrite Hr. simpl. apply list_lookup_insert_eq. exact Ho.
  - intros idx' Hne. destruct (ravel (shape t) idx') as [o'|] eqn:Hr'; simpl;
      [|reflexivity].
    apply list_lookup_insert_ne. intros ->. apply Hne.
    eapply ravel_inj; eassumption.
Qed.

Section ScalingLoops.
Context {F : Type} `{Scalar F}.
Variables (sum1 grey0 : tensor F) (Sf : nat -> nat -> F) (d0 d1 d2 : nat).
Hypothesis shape_grey0 : shape grey0 = [d0; d1; d2].
Hypothesis wf_grey0 : wf grey0.
Hypothesis sum1_cells :
  forall m j, m < d0 -> j < d2 -> get sum1 [m; j] = Some (Sf m j).

Lemma grey0_cell m k j :
  m < d0 -> k < d1 -> j < d2 -> exists v, get grey0 [m; k; j] = Some v.
Proof.
  intros Hm Hk Hj. apply get_wf_is_Some; [exact wf_grey0|].
  rewrite shape_grey0. repeat constructor; assumption.
Qed.

Lemma grey0_bounds m k j v :
  get grey0 [m; k; j] = Some v -> m < d0 /\ k < d1 /\ j < d2.
Proof.
  intros Hv. apply get_Some_bounds in Hv. rewrite shape_grey0 in Hv.
  inversion Hv as [|? ? ? ? Hm Hv1]; subst.
  inversion Hv1 as [|? ? ? ? Hk Hv2]; subst.
  inversion Hv2 as [|? ? ? ? Hj Hv3]; subst. auto.
Qed.

Lemma scaled_iff (D1 D2 : nat -> nat -> nat -> Prop) g :
  (forall m k j, m < d0 -> k < d1 -> j < d2 -> D1 m k j <-> D2 m k j) ->
  scaled Sf grey0 D1 g -> scaled Sf grey0 D2 g.
Proof.
  intros Hiff (Hs & Hl & Hc). split; [exact Hs|]. split; [exact Hl|].
  intros m k j v Hv. destruct (grey0_bounds _ _ _ _ Hv) as (Hm & Hk & Hj).
  destruct (Hc m k j v Hv) as (Hd & Hn). split.
  - intros HD. apply Hd. apply Hiff; assumption.
  - intros HD. apply Hn. intros HD1. apply HD. apply Hiff; assumption.
Qed.

(** one assignment [grey[m,k,j] = sum1[m,j]*grey[m,k,j]] *)
Lemma scale_cell_scaled (D : nat -> nat -> nat -> Prop) m j k g :
  m < d0 -> k < d1 -> j < d2 -> ~ D m k j ->
  scaled Sf grey0 D g ->
  exists g', scale_cell sum1 m j k g = Ok g' /\
    scaled Sf grey0 (fun m' k' j' => D m' k' j' \/ (m' = m /\ k' = k /\ j' = j)) g'.
Proof.
  intros Hm Hk Hj HnD (Hs & Hl & Hc).
  destruct (grey0_cell m k j Hm Hk Hj) as (v & Hv).
  destruct (Hc m k j v Hv) as (_ & Hcur). specialize (Hcur HnD).
  destruct (np_setitem_spec g [m; k; j] v (mul (Sf m j) v) Hcur)
    as (g' & Hset & Hs' & Hl' & Hnew & Hother).
  exists g'. split.
  - unfold scale_cell, np_getitem. rewrite (sum1_cells m j Hm Hj). simpl.
    rewrite Hcur. simpl. exact Hset.
  - split; [congruence|]. split; [congruence|].
    intros m' k' j' v' Hv'. destruct (Hc m' k' j' v' Hv') as (Hd & Hn).
    destruct (decide ([m'; k'; j'] = [m; k; j])) as [Heq|Hne].
    + injection Heq as -> -> ->. rewrite Hv in Hv'. injection Hv' as <-. split.
      * intros _. exact Hnew.
      * intros Hno. exfalso. apply Hno. right. auto.
    + rewrite (Hother _ Hne). split.
      * intros [HD|(-> & -> & ->)]; [apply Hd; exact HD | contradiction].
      * intros Hno. apply Hn. intros HD. apply Hno. left. exact HD.
Qed.

Lemma k_loop_scaled m j g :
  m < d0 -> j < d2 -> scaled Sf grey0 (done_j m j) g ->
  exists g', for_range d1 (fun k grey => scale_cell sum1 m j k grey) g = Ok g' /\
             scaled Sf grey0 (done_j m (S j)) g'.
Proof.
  intros Hm Hj Hg.
  destruct (for_range_inv (fun k => scaled Sf grey0 (done_k m j k)) d1
              (fun k grey => scale_cell sum1 m j k grey) g) as (g' & Hrun & Hg').
  - eapply scaled_iff; [|exact Hg]. unfold done_j, done_k. intros; lia.
  - intros k s Hk Hs.
    destruct (scale_cell_scaled (done_k m j k) m j k s Hm Hk Hj) as (s' & Hb & Hs');
      [unfold done_k; lia | exact Hs |].
    exists s'. split; [exact Hb|].
    eapply scaled_iff; [|exact Hs']. unfold done_k. intros; lia.
  - exists g'. split; [exact Hrun|].
    eapply scaled_iff; [|exact Hg']. unfold done_j, done_k. intros; lia.
Qed.

Lemma j_loop_scaled m g :
  m < d0 -> scaled Sf grey0 (done_m m) g ->
  exists g',
    for_range d2 (fun j grey =>
      d1' ← shape_at grey 1;
      for_range d1' (fun k grey => scale_cell sum1 m j k grey) grey) g = Ok g' /\
    scaled Sf grey0 (done_m (S m)) g'.
Proof.
  intros Hm Hg.
  destruct (for_range_inv (fun j => scaled Sf grey0 (done_j m j)) d2
              (fun j grey =>
                 d1' ← shape_at grey 1;
                 for_range d1' (fun k grey => scale_cell sum1 m j k grey) grey) g)
    as (g' & Hrun & Hg').
  - eapply scaled_iff; [|exact Hg]. unfold done_m, done_j. intros; lia.
  - intros j s Hj Hs.
    destruct (k_loop_scaled m j s Hm Hj Hs) as (s' & Hb & Hs').
    exists s'. split; [|exact Hs'].
    unfold shape_at. destruct Hs as (Hshape & _).
    rewrite Hshape, shape_grey0. simpl. exact Hb.
  - exists g'. split; [exact Hrun|].
    eapply scaled_iff; [|exact Hg']. unfold done_m, done_j. intros; lia.
Qed.

(** the three loops scale every cell [m,k,j] of [grey] by [sum1[m,j]] *)
Lemma scale_grey_spec :
  exists g', scale_grey sum1 grey0 = Ok g' /\
    shape g' = [d0; d1; d2] /\ wf g' /\
    forall m k j v, get grey0 [m; k; j] = Some v ->
                    get g' [m; k; j] = Some (mul (Sf m j) v).
Proof.
  destruct (for_range_inv (fun m => scaled Sf grey0 (done_m m)) d0
              (fun m grey =>
                 d2' ← shape_at grey 2;
                 for_range d2' (fun j grey =>
                   d1' ← shape_at grey 1;
                   for_range d1' (fun k grey => scale_cell sum1 m j k grey) grey)
                   grey) grey0)
    as (g' & Hrun & (Hs & Hl & Hc)).
  - split; [reflexivity|]. split; [reflexivity|].
    intros m k j v Hv. split; [unfold done_m; lia | intros _; exact Hv].
  - intros m s Hm Hs.
    destruct (j_loop_scaled m s Hm Hs) as (s' & Hb & Hs').
    exists s'. split; [|exact Hs'].
    unfold shape_at. destruct Hs as (Hshape & _).
    rewrite Hshape, shape_grey0. simpl. exact Hb.
  - exists g'. split.
    + unfold scale_grey, shape_at. rewrite shape_grey0. simpl. exact Hrun.
    + split; [congruence|]. split.
      * unfold wf. rewrite Hl, Hs. exact wf_grey0.
      * intros m k j v Hv. destruct (Hc m k j v Hv) as (Hd & _).
        apply Hd. unfold done_m. apply (grey0_bounds _ _ _ _ Hv).
Qed.
End ScalingLoops.

(** ** Reductions, slices and the guarded division *)

Section ComposerOps.
Context {F : Type} `{Scalar F}.

Lemma tf_reduce_sum_12 (t : tensor F) b h w c :
  shape t = [b; h; w; c] ->
  exists s1, tf_reduce_sum t [1; 2]%Z = Ok s1 /\ shape s1 = [b; c] /\ wf s1 /\
    forall m j, m < b -> j < c -> get s1 [m; j] = Some (spatial_sum t m j).
Proof.
  intros Hs. unfold tf_reduce_sum. rewrite Hs.
  change (mapM (norm_axis (length [b; h; w; c])) [1%Z; 2%Z]) with (Some [1; 2]).
  change (kept_shape [1; 2] 0 [b; h; w; c]) with [b; c].
  eexists. split; [reflexivity|]. split; [reflexivity|]. split; [apply wf_build|].
  intros m j Hm Hj. rewrite get_build_at by (repeat constructor; assumption).
  unfold spatial_sum. rewrite Hs. reflexivity.
Qed.

Lemma np_where_guard (a : tensor F) :
  wf a ->
  exists r, np_where (tmap neqb0 a) a (np_ones (shape a)) = Ok r /\
    shape r = shape a /\ wf r /\
    forall idx v, get a idx = Some v -> get r idx = Some (guarded v).
Proof.
  intros Hwf. unfold np_where. simpl. rewrite decide_True by (split; reflexivity).
  eexists. split; [reflexivity|]. simpl. split; [reflexivity|]. split.
  - unfold wf. simpl. rewrite length_zip_with, length_zip, length_fmap, length_replicate.
    rewrite Hwf. lia.
  - intros idx v. unfold get. simpl.
    destruct (ravel (shape a) idx) as [o|] eqn:Hr; simpl; [|discriminate].
    intros Hv. rewrite lookup_zip_with, lookup_zip_with.
    rewrite list_lookup_fmap, Hv. simpl.
    rewrite lookup_replicate_2 by (eapply ravel_lt; exact Hr). reflexivity.
Qed.

Lemma get_slice {A} (t : tensor A) n s v idx :
  shape t = n :: s -> v < n -> get (slice t v) idx = get t (v :: idx).
Proof.
  intros Hs Hv. unfold get, slice. rewrite Hs. simpl.
  rewrite decide_True by exact Hv.
  destruct (ravel s idx) as [o|] eqn:Hr; simpl; [|reflexivity].
  rewrite lookup_take_lt by (eapply ravel_lt; exact Hr).
  rewrite lookup_drop. reflexivity.
Qed.

Lemma shape_slice {A} (t : tensor A) n s v :
  shape t = n :: s -> shape (slice t v) = s.
Proof. intros Hs. unfold slice. rewrite Hs. reflexivity. Qed.

Lemma wf_slice {A} (t : tensor A) n s v :
  shape t = n :: s -> wf t -> v < n -> wf (slice t v).
Proof.
  intros Hs Hwf Hv. unfold wf, slice. rewrite Hs. simpl.
  rewrite length_take, length_drop. unfold wf in Hwf. rewrite Hs in Hwf.
  simpl in Hwf. rewrite Hwf. nia.
Qed.

Lemma unstack_slices {A} (t : tensor A) n s :
  shape t = n :: s -> unstack t = Ok (slice t <$> seq 0 n).
Proof. intros Hs. unfold unstack, slice. rewrite Hs. reflexivity. Qed.
End ComposerOps.

(** ** One class: [global_sum] and [alpha] *)

Lemma ravel_merge b h w c m y x j :
  y < h -> x < w ->
  ravel [b; h; w; c] [m; y; x; j] = ravel [b; h * w; c] [m; y * w + x; j].
Proof.
  intros Hy Hx. simpl.
  destruct (decide (m < b)); [|reflexivity].
  rewrite (decide_True (P := y < h)) by exact Hy.
  rewrite (decide_True (P := x < w)) by exact Hx.
  rewrite (decide_True (P := y * w + x < h * w)) by nia.
  destruct (decide (j < c)); [|reflexivity].
  simpl. f_equal. lia.
Qed.

Section OneClass.
Context {F : Type} `{Scalar F}.
Variables (sum1 second third : tensor F) (Sf : nat -> nat -> F) (b h w c : nat).
Hypothesis sum1_cells :
  forall m j, m < b -> j < c -> get sum1 [m; j] = Some (Sf m j).
Hypothesis shape_second : shape second = [b; h; w; c].
Hypothesis shape_third : shape third = [b; h; w; c].
Hypothesis wf_second : wf second.
Hypothesis wf_third : wf third.

Lemma global_sum_of_spec :
  exists gs, global_sum_of [b; h * w; c] [b; h; w; c] sum1 third = Ok gs /\
    shape gs = [b; h; w; c] /\ wf gs /\
    forall m y x j g3, get third [m; y; x; j] = Some g3 ->
      get gs [m; y; x; j] = Some (mul (Sf m j) g3).
Proof.
  assert (length (data third) = numel [b; h * w; c]) as Hlen.
  { unfold wf in wf_third. rewrite wf_third, shape_third. simpl. lia. }
  destruct (scale_grey_spec sum1 (Tensor [b; h * w; c] (data third)) Sf
              b (h * w) c eq_refl Hlen sum1_cells)
    as (g' & Hscale & Hs' & Hw' & Hcells).
  unfold global_sum_of, tf_reshape. rewrite decide_True by exact Hlen. simpl.
  rewrite Hscale. simpl. unfold np_reshape.
  assert (length (data g') = numel [b; h; w; c]) as Hlen'.
  { unfold wf in Hw'. rewrite Hw', Hs'. simpl. lia. }
  rewrite decide_True by exact Hlen'.
  eexists. split; [reflexivity|]. split; [reflexivity|]. split; [exact Hlen'|].
  intros m y x j g3 Hg3.
  pose proof (get_Some_bounds _ _ _ Hg3) as Hb. rewrite shape_third in Hb.
  inversion Hb as [|? ? ? ? Hm Hb1]; subst.
  inversion Hb1 as [|? ? ? ? Hy Hb2]; subst.
  inversion Hb2 as [|? ? ? ? Hx Hb3]; subst. clear Hb Hb1 Hb2 Hb3.
  specialize (Hcells m (y * w + x) j g3).
  unfold get in *. simpl shape in *. rewrite shape_third in Hg3.
  rewrite (ravel_merge b h w c m y x j Hy Hx) in *.
  rewrite Hs' in Hcells. apply Hcells. exact Hg3.
Qed.

Lemma alpha_of_spec :
  exists gs alpha,
    global_sum_of [b; h * w; c] [b; h; w; c] sum1 third = Ok gs /\
    alpha_of [b; h * w; c] [b; h; w; c] sum1 second third = Ok alpha /\
    shape alpha = [b; h; w; c] /\ wf alpha /\
    forall m y x j g2 g3,
      get second [m; y; x; j] = Some g2 -> get third [m; y; x; j] = Some g3 ->
      get gs [m; y; x; j] = Some (mul (Sf m j) g3) /\
      get alpha [m; y; x; j]
      = Some (div g2 (guarded (alpha_denominator (Sf m j) g2 g3))).
Proof.
  destruct global_sum_of_spec as (gs & Hgs & Hsgs & Hwgs & Hcells).
  unfold alpha_of, alpha_from. rewrite Hgs. simpl.
  assert (shape (scale2 second) = shape gs) as Hsame by (simpl; congruence).
  unfold tf_add. rewrite (binop_same _ _ _ _ Hsame). simpl.
  set (denom := build _ _).
  destruct (np_where_guard denom (wf_build _ _)) as (gd & Hwhere & Hsgd & Hwgd & Hgd).
  change (shape denom) with (shape second) in Hwhere.
  rewrite Hwhere. simpl.
  assert (shape second = shape gd) as Hsame2 by (rewrite Hsgd; subst denom; simpl; congruence).
  unfold tf_truediv. rewrite (binop_same _ _ _ _ Hsame2).
  exists gs. eexists. split; [reflexivity|]. split; [reflexivity|].
  split; [exact shape_second|]. split; [apply wf_build|].
  intros m y x j g2 g3 Hg2 Hg3.
  pose proof (Hcells m y x j g3 Hg3) as Hg. split; [exact Hg|].
  pose proof (get_Some_bounds _ _ _ Hg2) as Hb.
  rewrite get_build_at by exact Hb.
  f_equal. rewrite (at_get _ _ _ Hg2). f_equal.
  apply at_get. apply Hgd. subst denom.
  rewrite get_build_at by exact Hb.
  f_equal. unfold alpha_denominator. f_equal.
  - apply at_get. unfold scale2. rewrite get_tmap, Hg2. reflexivity.
  - apply at_get. exact Hg.
Qed.
End OneClass.

(** ** [ponderate_output] *)

Section Ponderate.
Context {F : Type} `{Scalar F}.

Lemma fsum_ext n (f g : nat -> F) :
  (forall i, i < n -> f i = g i) -> fsum n f = fsum n g.
Proof.
  intros Hfg. unfold fsum.
  assert (forall a m, a + m <= n ->
    foldr (fun i acc => add (f i) acc) zero (seq a m)
    = foldr (fun i acc => add (g i) acc) zero (seq a m)) as Hall.
  { intros a m. revert a. induction m as [|m IH]; intros a Ham; simpl; [reflexivity|].
    rewrite IH by lia. rewrite Hfg by lia. reflexivity. }
  apply Hall. lia.
Qed.

Lemma broadcast_shapes_channel h w c :
  broadcast_shapes [c] [h; w; c] = Some [h; w; c].
Proof.
  unfold broadcast_shapes.
  change (reverse [c]) with [c]. change (reverse [h; w; c]) with [c; w; h].
  simpl. rewrite decide_True by reflexivity. reflexivity.
Qed.

Lemma ponderate_output_spec (output alpha grad : tensor F) h w c :
  shape output = [h; w; c] -> shape alpha = [h; w; c] -> shape grad = [h; w; c] ->
  exists cam, ponderate_output output alpha grad = Ok cam /\
    shape cam = [h; w] /\ wf cam /\
    (exists g, cam = build [h; w] g) /\
    forall y x, y < h -> x < w ->
      get cam [y; x]
      = Some (fsum c (fun j => mul (channel_weight alpha grad h w j)
                                   (at_ output [y; x; j]))).
Proof.
  intros Hso Hsa Hsg. unfold ponderate_output, tf_multiply.
  rewrite binop_same by congruence. simpl.
  unfold tf_reduce_mean. simpl shape. rewrite Hsa.
  change (mapM (norm_axis (length [h; w; c])) [0%Z; 1%Z]) with (Some [0; 1]).
  change (kept_shape [0; 1] 0 [h; w; c]) with [c].
  change (reduced_count [0; 1] 0 [h; w; c]) with (h * (w * 1)).
  simpl mbind. unfold binop at 1. simpl shape. rewrite Hso.
  rewrite broadcast_shapes_channel.
  unfold tf_reduce_sum. simpl shape.
  change (mapM (norm_axis (length [h; w; c])) [(-1)%Z]) with (Some [2]).
  change (kept_shape [2] 0 [h; w; c]) with [h; w].
  eexists. split; [reflexivity|]. split; [reflexivity|]. split; [apply wf_build|].
  split; [eexists; reflexivity|].
  intros y x Hy Hx. rewrite get_build_at by (repeat constructor; assumption).
  f_equal.
  change (reduce_at [2] 0 [h; w; c]
            (at_ (build [h; w; c] (fun idx =>
               mul (at_ (build [c] (fun idx0 =>
                      div (reduce_at [0; 1] 0 [h; w; c]
                             (at_ (build [h; w; c] (fun idx1 =>
                                mul (at_ alpha idx1) (at_ grad idx1)))) idx0)
                          (of_nat (h * (w * 1))))) (bindex [c] idx))
                   (at_ output (bindex [h; w; c] idx))))) [y; x])
    with (fsum c (fun j =>
            at_ (build [h; w; c] (fun idx =>
               mul (at_ (build [c] (fun idx0 =>
                      div (reduce_at [0; 1] 0 [h; w; c]
                             (at_ (build [h; w; c] (fun idx1 =>
                                mul (at_ alpha idx1) (at_ grad idx1)))) idx0)
                          (of_nat (h * (w * 1))))) (bindex [c] idx))
                   (at_ output (bindex [h; w; c] idx)))) [y; x; j])).
  apply fsum_ext. intros j Hj.
  assert (Forall2 lt [y; x; j] [h; w; c]) as Hb by (repeat constructor; assumption).
  rewrite (at_get _ _ _ (get_build_at _ _ _ Hb)).
  rewrite (bindex_same _ _ Hb).
  f_equal. unfold bindex. simpl.
  replace (if decide (c = 1) then 0 else j) with j by (destruct (decide (c = 1)); lia).
  assert (Forall2 lt [j] [c]) as Hbj by (repeat constructor; assumption).
  rewrite (at_get _ _ _ (get_build_at _ _ _ Hbj)).
  unfold channel_weight. rewrite Nat.mul_1_r. f_equal.
  change (reduce_at [0; 1] 0 [h; w; c]
            (at_ (build [h; w; c] (fun idx1 => mul (at_ alpha idx1) (at_ grad idx1))))
            [j])
    with (fsum h (fun y' => fsum w (fun x' =>
            at_ (build [h; w; c] (fun idx1 => mul (at_ alpha idx1) (at_ grad idx1)))
                [y'; x'; j]))).
  apply fsum_ext. intros y' Hy'. apply fsum_ext. intros x' Hx'.
  apply at_get. rewrite get_build_at by (repeat constructor; assumption).
  reflexivity.
Qed.
End Ponderate.

(** ** The composer's loop *)

Section ComposerLoop.
Context {F : Type} `{Scalar F}.

(** the [zip] scan finds the row whose position is the class index's value *)
Lemma scan_batch_slices (outputs alpha grad : tensor F) (ci : Z) maps a n :
  scan_batch (zip (zip (zip (slice outputs <$> seq a n) (slice alpha <$> seq a n))
                       (slice grad <$> seq a n)) (seq a n)) (Ok ci) maps
  = if decide (Z.of_nat a <= ci < Z.of_nat (a + n))%Z
    then cam ← ponderate_output (slice outputs (Z.to_nat ci))
                                (slice alpha (Z.to_nat ci))
                                (slice grad (Z.to_nat ci));
         Ok (maps ++ [cam])
    else Ok maps.
Proof.
  revert a. induction n as [|n IH]; intros a.
  - simpl. rewrite decide_False by lia. reflexivity.
  - cbn [seq fmap list_fmap zip_with scan_batch mbind result_bind].
    destruct (decide (Z.of_nat a = ci)) as [Heq|Hne].
    + rewrite decide_True by lia. subst ci. rewrite Nat2Z.id. reflexivity.
    + rewrite IH. destruct (decide (Z.of_nat (S a) <= ci < Z.of_nat (S a + n))%Z).
      * rewrite decide_True by lia. reflexivity.
      * rewrite decide_False by lia. reflexivity.
Qed.

Variables (b h w c : nat) (outputs sum1 : tensor F).
Variables (seconds thirds grads : list (tensor F)) (class_index : list Z).
Hypothesis input_ok : composer_input b h w c outputs seconds thirds grads class_index.
Hypothesis sum1_cells :
  forall m j, m < b -> j < c -> get sum1 [m; j] = Some (spatial_sum outputs m j).

Lemma composer_step_composed i st per :
  i < length grads ->
  composed [b; h * w; c] [b; h; w; c] outputs sum1 seconds thirds grads
           class_index b i st per ->
  exists st' pc,
    composer_step [b; h * w; c] [b; h; w; c] outputs sum1 seconds thirds grads
                  class_index i st = Ok st' /\
    composed [b; h * w; c] [b; h; w; c] outputs sum1 seconds thirds grads
             class_index b (S i) st' (per ++ [pc]).
Proof.
  destruct input_ok as (Hso & Hwo & L2 & L3 & Lc & F2 & F3 & Fg).
  intros Hi (La & Lp & Hmaps & Hcls). destruct st as [maps alphas]. simpl in *.
  destruct (lookup_lt_is_Some_2 seconds i ltac:(lia)) as (second & Hsec).
  destruct (lookup_lt_is_Some_2 thirds i ltac:(lia)) as (third & Hthi).
  destruct (lookup_lt_is_Some_2 grads i Hi) as (grad & Hgr).
  destruct (lookup_lt_is_Some_2 class_index i ltac:(lia)) as (ci & Hci).
  destruct (Forall_lookup_1 _ _ _ _ F2 Hsec) as (Hs2 & Hw2).
  destruct (Forall_lookup_1 _ _ _ _ F3 Hthi) as (Hs3 & Hw3).
  destruct (Forall_lookup_1 _ _ _ _ Fg Hgr) as (Hsg & Hwg).
  destruct (alpha_of_spec sum1 second third (spatial_sum outputs) b h w c
              sum1_cells Hs2 Hs3 Hw3)
    as (gs & alpha & Hgs & Halpha & Hsa & Hwa & _).
  assert (alpha_from second gs = Ok alpha) as Hfrom.
  { unfold alpha_of in Halpha. rewrite Hgs in Halpha. exact Halpha. }
  assert (exists pc maps',
            scan_batch (zip (zip (zip (slice outputs <$> seq 0 b)
                                      (slice alpha <$> seq 0 b))
                                 (slice grad <$> seq 0 b)) (seq 0 b))
                       (Ok ci) maps = Ok maps' /\
            maps' = maps ++ omap id [pc] /\
            class_result outputs alpha grad b ci pc) as (pc & maps' & Hscan & Hm' & Hpc).
  { rewrite scan_batch_slices. unfold class_result.
    destruct (decide (0 <= ci < Z.of_nat b)%Z) as [Hin|Hout].
    - rewrite decide_True by (simpl; lia).
      destruct (ponderate_output_spec (slice outputs (Z.to_nat ci))
                  (slice alpha (Z.to_nat ci)) (slice grad (Z.to_nat ci)) h w c)
        as (cam & Hcam & _); try (eapply shape_slice; eassumption).
      rewrite Hcam. exists (Some cam). eexists. split; [reflexivity|].
      split; [reflexivity|]. exists cam. split; reflexivity.
    - rewrite decide_False by (simpl; lia).
      exists None. eexists. split; [reflexivity|].
      split; [simpl; rewrite app_nil_r; reflexivity | reflexivity]. }
  exists (maps', alphas ++ [alpha]), pc. split.
  - unfold composer_step, list_get. rewrite Hthi. simpl.
    rewrite Hgs. simpl. rewrite Hsec. simpl. rewrite Hfrom. simpl.
    rewrite lookup_app_r by lia. rewrite La, Nat.sub_diag. simpl.
    rewrite Hgr. simpl.
    unfold shape_at. rewrite Hsg. simpl.
    rewrite (unstack_slices outputs b [h; w; c] Hso). simpl.
    rewrite (unstack_slices alpha b [h; w; c] Hsa). simpl.
    rewrite (unstack_slices grad b [h; w; c] Hsg). simpl.
    rewrite Hci. simpl. rewrite Hscan. reflexivity.
  - split; [simpl; rewrite length_app; simpl; lia|].
    split; [rewrite length_app; simpl; lia|].
    split; [simpl; rewrite omap_app, <- Hmaps; exact Hm'|].
    intros i' second' third' grad' ci' Hs' Ht' Hg' Hc' Hi'. simpl.
    destruct (decide (i' = i)) as [->|Hne].
    + rewrite Hsec in Hs'. rewrite Hthi in Ht'. rewrite Hgr in Hg'. rewrite Hci in Hc'.
      injection Hs' as <-. injection Ht' as <-. injection Hg' as <-. injection Hc' as <-.
      exists alpha, pc. rewrite !lookup_app_r by lia.
      rewrite La, Lp, Nat.sub_diag. repeat split; try reflexivity; assumption.
    + destruct (Hcls i' second' third' grad' ci' Hs' Ht' Hg' Hc' ltac:(lia))
        as (alpha' & pc' & Ha' & Hao' & Hp' & Hr').
      exists alpha', pc'. rewrite !lookup_app_l by lia.
      repeat split; assumption.
Qed.

Lemma composer_loop_from_sum1 :
  exists st per,
    for_range (length grads)
      (composer_step [b; h * w; c] [b; h; w; c] outputs sum1 seconds thirds grads
                     class_index) ([], []) = Ok st /\
    composed [b; h * w; c] [b; h; w; c] outputs sum1 seconds thirds grads
             class_index b (length grads) st per.
Proof.
  destruct (for_range_inv
              (fun i st => exists per,
                 composed [b; h * w; c] [b; h; w; c] outputs sum1 seconds thirds
                          grads class_index b i st per)
              (length grads)
              (composer_step [b; h * w; c] [b; h; w; c] outputs sum1 seconds thirds
                             grads class_index) ([], []))
    as (st & Hrun & per & Hst).
  - exists []. repeat split; try reflexivity.
    intros i' ? ? ? ? _ _ _ _ Hi'. lia.
  - intros i s Hi (per & Hs).
    destruct (composer_step_composed i s per Hi Hs) as (s' & pc & Hb & Hs').
    exists s'. split; [exact Hb|]. exists (per ++ [pc]). exact Hs'.
  - exists st, per. split; assumption.
Qed.
End ComposerLoop.

(** ** The composer on the shape its reshapes expect *)

Section ComposerSpec.
Context {F : Type} `{Scalar F}.

Lemma composer_loop_spec b h w c (outputs : tensor F)
    (seconds thirds grads : list (tensor F)) (class_index : list Z) :
  composer_input b h w c outputs seconds thirds grads class_index ->
  exists sum1 st per,
    tf_reduce_sum outputs [1; 2]%Z = Ok sum1 /\
    (forall m j, m < b -> j < c -> get sum1 [m; j] = Some (spatial_sum outputs m j)) /\
    composer_loop [b; h * w; c] [b; h; w; c] outputs seconds thirds grads class_index
    = Ok st /\
    composed [b; h * w; c] [b; h; w; c] outputs sum1 seconds thirds grads
             class_index b (length grads) st per.
Proof.
  intros Hin. pose proof Hin as (Hso & _).
  destruct (tf_reduce_sum_12 outputs b h w c Hso) as (sum1 & Hsum & _ & _ & Hcells).
  destruct (composer_loop_from_sum1 b h w c outputs sum1 seconds thirds grads
              class_index Hin Hcells) as (st & per & Hrun & Hst).
  exists sum1, st, per.
  split; [exact Hsum|]. split; [exact Hcells|]. split; [|exact Hst].
  unfold composer_loop. rewrite Hsum. exact Hrun.
Qed.

(** the state of [generate_ponderated_output] when it returns, for a feature
    map of shape (4, 8, 8, 1280) *)
Lemma generate_ponderated_output_state_spec (outputs : tensor F)
    (seconds thirds grads : list (tensor F)) (class_index : list Z) :
  composer_input 4 8 8 1280 outputs seconds thirds grads class_index ->
  exists sum1 st per,
    tf_reduce_sum outputs [1; 2]%Z = Ok sum1 /\
    (forall m j, m < 4 -> j < 1280 ->
       get sum1 [m; j] = Some (spatial_sum outputs m j)) /\
    generate_ponderated_output_state outputs seconds thirds grads class_index
    = Ok st /\
    composed [4; 64; 1280] [4; 8; 8; 1280] outputs sum1 seconds thirds grads
             class_index 4 (length grads) st per.
Proof.
  intros Hin.
  exact (composer_loop_spec 4 8 8 1280 outputs seconds thirds grads class_index Hin).
Qed.
End ComposerSpec.

(** ** When the composer can return at all *)

Lemma for_each_Ok_inv {A St} (P : St -> Prop) (xs : list A)
    (body : A -> St -> result St) st st' :
  (forall x s s', P s -> body x s = Ok s' -> P s') ->
  P st -> for_each xs body st = Ok st' ->
  P st' /\ forall x, x ∈ xs -> exists s s', P s /\ body x s = Ok s'.
Proof.
  intros Hpres. revert st. induction xs as [|x xs IH]; intros st HP Hrun; simpl in Hrun.
  - injection Hrun as <-. split; [exact HP|]. intros x Hx. inversion Hx.
  - destruct (body x st) as [s1|e] eqn:Hb; simpl in Hrun; [|discriminate].
    destruct (IH s1 (Hpres _ _ _ HP Hb) Hrun) as (HP' & Hall).
    split; [exact HP'|]. intros y Hy. apply elem_of_cons in Hy as [->|Hy].
    + exists st, s1. split; assumption.
    + apply Hall. exact Hy.
Qed.

Lemma for_range_first_Ok {St} n (body : nat -> St -> result St) st st' :
  for_range (S n) body st = Ok st' -> exists s1, body 0 st = Ok s1.
Proof.
  unfold for_range. simpl. destruct (body 0 st) as [s1|e]; simpl; [|discriminate].
  intros _. exists s1. reflexivity.
Qed.

Lemma for_range_first_Raise {St} n (body : nat -> St -> result St) st e :
  body 0 st = Raise e -> for_range (S n) body st = Raise e.
Proof. unfold for_range. simpl. intros ->. reflexivity. Qed.

Section ScalingFails.
Context {F : Type} `{Scalar F}.

Lemma scale_cell_shape (sum1 : tensor F) m j k g g' :
  scale_cell sum1 m j k g = Ok g' -> shape g' = shape g.
Proof.
  unfold scale_cell, np_setitem.
  destruct (np_getitem sum1 [m; j]); simpl; [|discriminate].
  destruct (np_getitem g [m; k; j]); simpl; [|discriminate].
  destruct (ravel (shape g) [m; k; j]); [|discriminate].
  destruct (decide _); [|discriminate].
  intros [= <-]. reflexivity.
Qed.

(** if the three loops end, [sum1] had every cell they read *)
Lemma scale_grey_Ok_inv (sum1 grey g' : tensor F) d0 d1 d2 :
  shape grey = [d0; d1; d2] -> 0 < d1 ->
  scale_grey sum1 grey = Ok g' ->
  forall m j, m < d0 -> j < d2 -> is_Some (get sum1 [m; j]).
Proof.
  intros Hs Hd1 Hrun m j Hm Hj.
  set (P := fun g : tensor F => shape g = [d0; d1; d2]).
  assert (forall m j k s s', P s -> scale_cell sum1 m j k s = Ok s' -> P s') as Hcell.
  { intros m' j' k' s s' HP Hb. unfold P. rewrite (scale_cell_shape _ _ _ _ _ _ Hb).
    exact HP. }
  assert (forall m j s s', P s ->
            (d1' ← shape_at s 1;
             for_range d1' (fun k grey => scale_cell sum1 m j k grey) s) = Ok s' ->
            P s' /\ is_Some (get sum1 [m; j])) as Hk.
  { intros m' j' s s' HP. unfold shape_at. rewrite HP. simpl. intros Hb.
    destruct (for_each_Ok_inv P (seq 0 d1) _ s s' (Hcell m' j') HP Hb) as (HP' & Hall).
    split; [exact HP'|].
    destruct (Hall 0) as (s0 & s0' & _ & Hb0).
    { apply elem_of_seq. lia. }
    unfold scale_cell, np_getitem in Hb0.
    destruct (get sum1 [m'; j']) as [v|]; [eexists; reflexivity | discriminate]. }
  assert (forall m s s', P s ->
            (d2' ← shape_at s 2;
             for_range d2' (fun j grey =>
               d1' ← shape_at grey 1;
               for_range d1' (fun k grey => scale_cell sum1 m j k grey) grey) s) = Ok s' ->
            P s' /\ forall j, j < d2 -> is_Some (get sum1 [m; j])) as Hj'.
  { intros m' s s' HP. unfold shape_at. rewrite HP. simpl. intros Hb.
    destruct (for_each_Ok_inv P (seq 0 d2) _ s s'
                (fun x a a' Ha Hx => proj1 (Hk m' x a a' Ha Hx)) HP Hb) as (HP' & Hall).
    split; [exact HP'|]. intros j0 Hj0.
    destruct (Hall j0) as (s0 & s0' & HP0 & Hb0).
    { apply elem_of_seq. lia. }
    exact (proj2 (Hk m' j0 s0 s0' HP0 Hb0)). }
  unfold scale_grey, shape_at in Hrun. rewrite Hs in Hrun. simpl in Hrun.
  destruct (for_each_Ok_inv P (seq 0 d0) _ grey g'
              (fun x a a' Ha Hx => proj1 (Hj' x a a' Ha Hx)) Hs Hrun) as (_ & Hall).
  destruct (Hall m) as (s0 & s0' & HP0 & Hb0).
  { apply elem_of_seq. lia. }
  exact (proj2 (Hj' m s0 s0' HP0 Hb0) j Hj).
Qed.
End ScalingFails.

Lemma broadcast_rev_cons_inv a r1 b r2 s :
  broadcast_rev (a :: r1) (b :: r2) = Some s ->
  (a = b \/ a = 1 \/ b = 1) /\ is_Some (broadcast_rev r1 r2).
Proof.
  simpl. destruct (decide (a = b)) as [?|?]; [|destruct (decide (a = 1)) as [?|?];
    [|destruct (decide (b = 1)) as [?|?]; [|discriminate]]];
    (destruct (broadcast_rev r1 r2) as [r|]; simpl; [|discriminate]);
    intros _; (split; [tauto | eexists; reflexivity]).
Qed.

Lemma broadcast_shapes_4_inv b h w c d0 h0 w0 c0 s :
  broadcast_shapes [b; h; w; c] [d0; h0; w0; c0] = Some s ->
  (b = d0 \/ b = 1 \/ d0 = 1) /\ (h = h0 \/ h = 1 \/ h0 = 1) /\
  (w = w0 \/ w = 1 \/ w0 = 1) /\ (c = c0 \/ c = 1 \/ c0 = 1).
Proof.
  unfold broadcast_shapes.
  change (reverse [b; h; w; c]) with [c; w; h; b].
  change (reverse [d0; h0; w0; c0]) with [c0; w0; h0; d0].
  destruct (broadcast_rev [c; w; h; b] [c0; w0; h0; d0]) as [r|] eqn:Hr; [|discriminate].
  intros _.
  apply broadcast_rev_cons_inv in Hr as (Hc & (r1 & Hr)).
  apply broadcast_rev_cons_inv in Hr as (Hw & (r2 & Hr)).
  apply broadcast_rev_cons_inv in Hr as (Hh & (r3 & Hr)).
  apply broadcast_rev_cons_inv in Hr as (Hb & _).
  auto.
Qed.

Section ComposerFails.
Context {F : Type} `{Scalar F}.
Variables (d0 h0 w0 c0 b h w c : nat) (outputs : tensor F).
Variables (seconds thirds grads : list (tensor F)) (class_index : list Z).
Hypothesis input_ok : composer_input b h w c outputs seconds thirds grads class_index.
Hypothesis some_class : grads <> [].

Lemma first_class :
  exists n second third,
    length grads = S n /\ seconds !! 0 = Some second /\ thirds !! 0 = Some third /\
    shape second = [b; h; w; c] /\ shape third = [b; h; w; c] /\
    length (data third) = numel [b; h; w; c].
Proof.
  destruct input_ok as (_ & _ & L2 & L3 & _ & F2 & F3 & _).
  destruct grads as [|g gs]; [contradiction|]. simpl in L2, L3.
  destruct seconds as [|second ss]; [discriminate|].
  destruct thirds as [|third ts]; [discriminate|].
  destruct (Forall_inv F2) as (Hs2 & _).
  destruct (Forall_inv F3) as (Hs3 & Hw3).
  exists (length gs), second, third. repeat split; try assumption; try reflexivity.
  unfold wf in Hw3. rewrite Hw3, Hs3. reflexivity.
Qed.

(** a feature map with another number of elements than the reshape asks for
    stops the first class at [tf.reshape] *)
Lemma composer_loop_reshape_error :
  numel [b; h; w; c] <> numel [d0; h0 * w0; c0] ->
  composer_loop [d0; h0 * w0; c0] [d0; h0; w0; c0] outputs seconds thirds grads
                class_index
  = Raise (InvalidArgumentError "Reshape").
Proof.
  intros Hne. destruct first_class as (n & second & third & Hn & H2 & H3 & _ & _ & Hlen).
  pose proof input_ok as (Hso & _).
  destruct (tf_reduce_sum_12 outputs b h w c Hso) as (sum1 & Hsum & _).
  unfold composer_loop. rewrite Hsum, Hn. simpl mbind.
  apply for_range_first_Raise.
  unfold composer_step, list_get. rewrite H3. simpl.
  unfold global_sum_of, tf_reshape.
  rewrite decide_False by (rewrite Hlen; exact Hne). reflexivity.
Qed.

(** if the loop returns, the feature map has the shape of the reshapes *)
Lemma composer_loop_Ok_shape st :
  1 < d0 -> 1 < h0 -> 1 < w0 -> 1 < c0 ->
  composer_loop [d0; h0 * w0; c0] [d0; h0; w0; c0] outputs seconds thirds grads
                class_index = Ok st ->
  b = d0 /\ h = h0 /\ w = w0 /\ c = c0.
Proof.
  intros Hd0 Hh0 Hw0 Hc0 Hrun.
  destruct first_class as (n & second & third & Hn & H2 & H3 & Hs2 & Hs3 & Hlen).
  pose proof input_ok as (Hso & _).
  destruct (tf_reduce_sum_12 outputs b h w c Hso) as (sum1 & Hsum & Hss & _).
  unfold composer_loop in Hrun. rewrite Hsum, Hn in Hrun. simpl mbind in Hrun.
  apply for_range_first_Ok in Hrun as (s1 & Hstep).
  unfold composer_step, list_get in Hstep. rewrite H3 in Hstep. simpl in Hstep.
  destruct (global_sum_of _ _ sum1 third) as [gs|e] eqn:Hgs; [|discriminate].
  simpl in Hstep. rewrite H2 in Hstep. simpl in Hstep.
  destruct (alpha_from second gs) as [alpha|e] eqn:Ha; [|discriminate].
  clear Hstep. unfold alpha_from in Ha.
  destruct (tf_add (scale2 second) gs) as [den|e] eqn:Hadd; [|discriminate].
  clear Ha. unfold global_sum_of in Hgs.
  destruct (tf_reshape third [d0; h0 * w0; c0]) as [grey|e] eqn:Hre; [|discriminate].
  simpl in Hgs.
  destruct (scale_grey sum1 grey) as [g'|e] eqn:Hsc; [|discriminate].
  simpl in Hgs. unfold np_reshape in Hgs.
  destruct (decide (length (data g') = numel [d0; h0; w0; c0])); [|discriminate].
  injection Hgs as <-.
  unfold tf_reshape in Hre.
  destruct (decide (length (data third) = numel [d0; h0 * w0; c0])) as [Hl|];
    [|discriminate].
  injection Hre as <-.
  (* the reads of [sum1] bound the batch size and the channels *)
  assert (d0 <= b /\ c0 <= c) as (Hb & Hc).
  { destruct (scale_grey_Ok_inv sum1 (Tensor [d0; h0 * w0; c0] (data third)) g'
                d0 (h0 * w0) c0 eq_refl ltac:(nia) Hsc
                (d0 - 1) (c0 - 1) ltac:(lia) ltac:(lia)) as (v & Hv).
    apply get_Some_bounds in Hv. rewrite Hss in Hv.
    inversion Hv as [|? ? ? ? Hm Hv1]; subst.
    inversion Hv1 as [|? ? ? ? Hj _]; subst. lia. }
  (* the addition needs broadcastable shapes *)
  unfold tf_add, binop in Hadd. simpl shape in Hadd. rewrite Hs2 in Hadd.
  destruct (broadcast_shapes [b; h; w; c] [d0; h0; w0; c0]) as [s|] eqn:Hbs;
    [|discriminate].
  apply broadcast_shapes_4_inv in Hbs as (Bb & Bh & Bw & Bc).
  assert (b = d0) as -> by lia. assert (c = c0) as -> by lia.
  rewrite Hlen in Hl. simpl in Hl.
  assert (h * w = h0 * w0) as Hhw by nia.
  assert (h = h0 \/ h = 1) as [->| ->] by lia;
    (assert (w = w0 \/ w = 1) as [->| ->] by lia); repeat split; try reflexivity; nia.
Qed.
End ComposerFails.

(** ** What [generate_ponderated_output] leaves when it returns *)

Section ComposerState.
Context {F : Type} `{Scalar F}.
Variables (b h w c : nat) (outputs : tensor F).
Variables (seconds thirds grads : list (tensor F)) (class_index : list Z).
Hypothesis input_ok : composer_input b h w c outputs seconds thirds grads class_index.

Lemma state_composed maps alphas :
  generate_ponderated_output_state outputs seconds thirds grads class_index
  = Ok (maps, alphas) ->
  exists sum1 per,
    tf_reduce_sum outputs [1; 2]%Z = Ok sum1 /\
    (forall m j, m < b -> j < c -> get sum1 [m; j] = Some (spatial_sum outputs m j)) /\
    composed [4; 64; 1280] [4; 8; 8; 1280] outputs sum1 seconds thirds grads
             class_index 4 (length grads) (maps, alphas) per /\
    (grads <> [] -> b = 4 /\ h = 8 /\ w = 8 /\ c = 1280).
Proof.
  intros Hrun. pose proof input_ok as (Hso & _).
  destruct (tf_reduce_sum_12 outputs b h w c Hso) as (sum1 & Hsum & _ & _ & Hcells).
  destruct (decide (grads = [])) as [Hnil|Hsome].
  - exists sum1, []. split; [exact Hsum|]. split; [exact Hcells|].
    split; [|intros Hne; contradiction].
    unfold generate_ponderated_output_state, composer_loop in Hrun.
    rewrite Hsum, Hnil in Hrun. simpl in Hrun. injection Hrun as <- <-.
    rewrite Hnil. repeat split. intros i' ? ? ? ? _ _ _ _ Hi'. simpl in Hi'. lia.
  - assert (b = 4 /\ h = 8 /\ w = 8 /\ c = 1280) as Hdims.
    { apply (composer_loop_Ok_shape 4 8 8 1280 b h w c outputs seconds thirds grads
               class_index input_ok Hsome (maps, alphas)); try lia.
      exact Hrun. }
    destruct Hdims as (-> & -> & -> & ->).
    destruct (generate_ponderated_output_state_spec outputs seconds thirds grads
                class_index input_ok) as (sum1' & st & per & Hsum' & _ & Hrun' & Hst).
    rewrite Hsum in Hsum'. injection Hsum' as <-.
    rewrite Hrun in Hrun'. injection Hrun' as <-.
    exists sum1, per. split; [exact Hsum|]. split; [exact Hcells|].
    split; [exact Hst|]. intros _. repeat split; reflexivity.
Qed.

Lemma state_alpha_cells maps alphas :
  generate_ponderated_output_state outputs seconds thirds grads class_index
  = Ok (maps, alphas) ->
  length alphas = length class_index /\
  forall i second third,
    seconds !! i = Some second -> thirds !! i = Some third ->
    exists sum1 global_sum alpha,
      tf_reduce_sum outputs [1; 2]%Z = Ok sum1 /\
      global_sum_of [4; 64; 1280] [4; 8; 8; 1280] sum1 third = Ok global_sum /\
      alphas !! i = Some alpha /\ shape alpha = shape outputs /\
      forall m y x j g2 g3,
        get second [m; y; x; j] = Some g2 -> get third [m; y; x; j] = Some g3 ->
        get global_sum [m; y; x; j] = Some (mul (spatial_sum outputs m j) g3) /\
        get alpha [m; y; x; j]
        = Some (div g2 (guarded (alpha_denominator (spatial_sum outputs m j) g2 g3))).
Proof.
  intros Hrun.
  destruct (state_composed maps alphas Hrun)
    as (sum1 & per & Hsum & Hcells & (La & Lp & Hmaps & Hcls) & Hdims).
  pose proof input_ok as (Hso & Hwo & L2 & L3 & Lc & F2 & F3 & Fg).
  simpl in La. split; [lia|].
  intros i second third Hsec Hthi.
  assert (i < length grads) as Hi by (rewrite <- L2; eapply lookup_lt_Some; exact Hsec).
  destruct (lookup_lt_is_Some_2 grads i Hi) as (grad & Hgr).
  destruct (lookup_lt_is_Some_2 class_index i ltac:(lia)) as (ci & Hci).
  destruct (Hcls i second third grad ci Hsec Hthi Hgr Hci Hi)
    as (alpha & pc & Ha & Halpha & _ & _).
  destruct (Forall_lookup_1 _ _ _ _ F2 Hsec) as (Hs2 & Hw2).
  destruct (Forall_lookup_1 _ _ _ _ F3 Hthi) as (Hs3 & Hw3).
  destruct Hdims as (Eb & Eh & Ew & Ec).
  { intros Hnil. rewrite Hnil in Hi. simpl in Hi. lia. }
  destruct (alpha_of_spec sum1 second third (spatial_sum outputs) b h w c
              Hcells Hs2 Hs3 Hw3)
    as (gs & alpha' & Hgs & Halpha' & Hsa & _ & Hall).
  subst b h w c. change (8 * 8) with 64 in Hgs, Halpha'.
  rewrite Halpha in Halpha'. injection Halpha' as <-.
  exists sum1, gs, alpha. repeat split; try assumption.
  - congruence.
  - apply (Hall m y x j g2 g3); assumption.
  - apply (Hall m y x j g2 g3); assumption.
Qed.

Lemma state_total :
  b = 4 -> h = 8 -> w = 8 -> c = 1280 ->
  exists maps alphas,
    generate_ponderated_output_state outputs seconds thirds grads class_index
    = Ok (maps, alphas).
Proof.
  intros Eb Eh Ew Ec. pose proof input_ok as Hin. subst b h w c.
  destruct (generate_ponderated_output_state_spec outputs seconds thirds grads
              class_index Hin) as (_ & [maps alphas] & _ & _ & _ & Hrun & _).
  exists maps, alphas. exact Hrun.
Qed.
End ComposerState.

(** ** The alpha coefficients *)

Lemma big_const_ok (x : Qc) :
  shape (big_const x) = [4; 8; 8; 1280] /\ wf (big_const x).
Proof.
  split; [reflexivity|]. unfold wf, big_const. cbn [data shape].
  apply length_replicate.
Qed.

Lemma get_big_const (x : Qc) idx :
  Forall2 lt idx [4; 8; 8; 1280] -> get (big_const x) idx = Some x.
Proof.
  intros Hb.
  destruct (get_wf_is_Some (big_const x) idx (proj2 (big_const_ok x)) Hb) as (v & Hv).
  rewrite Hv. f_equal. unfold get in Hv.
  destruct (ravel (shape (big_const x)) idx) as [o|]; [|discriminate].
  cbn [mbind option_bind big_const data] in Hv.
  apply lookup_replicate in Hv as [-> _]. reflexivity.
Qed.

Lemma big_const_input (x : Qc) (class_index : list Z) :
  composer_input 4 8 8 1280 (big_const x)
    ((fun _ => big_const x) <$> class_index) ((fun _ => big_const x) <$> class_index)
    ((fun _ => big_const x) <$> class_index) class_index.
Proof.
  pose proof (big_const_ok x) as Hbig.
  assert (Forall (fun t : tensor Qc => shape t = [4; 8; 8; 1280] /\ wf t)
                 ((fun _ => big_const x) <$> class_index)) as Hall.
  { apply Forall_fmap. apply Forall_forall. intros ci _. exact Hbig. }
  unfold composer_input. rewrite !length_fmap.
  destruct Hbig as (Hs & Hw).
  split; [exact Hs|]. split; [exact Hw|]. split; [reflexivity|].
  split; [reflexivity|]. split; [reflexivity|].
  split; [exact Hall|]. split; exact Hall.
Qed.

Section AlphaClaims.
Context {F : Type} `{Scalar F}.

(** C2: whenever the composer returns, for every class position i the tensor
    [global_sum] holds at [b,h,w,c] the spatial sum of the feature map over
    height and width at (b,c) times the third derivative of class i at
    [b,h,w,c], and [alphas[i]] has the shape of the feature map and holds at
    each cell the second derivative divided by the denominator
    2 * grad2 + global_sum (after the substitution of 1 for a zero, so the
    plain quotient wherever the denominator is not zero).  On a feature map of
    shape (4, 8, 8, 1280) the composer does return. *)
Theorem composer_alpha_formula (b h w c : nat) (outputs : tensor F)
    (seconds thirds grads : list (tensor F)) (class_index : list Z) :
  composer_input b h w c outputs seconds thirds grads class_index ->
  (shape outputs = [4; 8; 8; 1280] ->
   exists maps alphas,
     generate_ponderated_output_state outputs seconds thirds grads class_index
     = Ok (maps, alphas)) /\
  forall maps alphas,
    generate_ponderated_output_state outputs seconds thirds grads class_index
    = Ok (maps, alphas) ->
    length alphas = length class_index /\
    forall i second third,
      seconds !! i = Some second -> thirds !! i = Some third ->
      exists sum1 global_sum alpha,
        tf_reduce_sum outputs [1; 2]%Z = Ok sum1 /\
        global_sum_of [4; 64; 1280] [4; 8; 8; 1280] sum1 third = Ok global_sum /\
        alphas !! i = Some alpha /\ shape alpha = shape outputs /\
        forall m y x j g2 g3,
          get second [m; y; x; j] = Some g2 -> get third [m; y; x; j] = Some g3 ->
          get global_sum [m; y; x; j] = Some (mul (spatial_sum outputs m j) g3) /\
          get alpha [m; y; x; j]
          = Some (div g2 (guarded (add (mul g2 two)
                                       (mul (spatial_sum outputs m j) g3)))) /\
          (neqb0 (add (mul g2 two) (mul (spatial_sum outputs m j) g3)) = true ->
           get alpha [m; y; x; j]
           = Some (div g2 (add (mul g2 two) (mul (spatial_sum outputs m j) g3)))).
Proof.
  intros Hin. split.
  - intros Hs. pose proof Hin as (Hso & _). rewrite Hso in Hs.
    injection Hs as -> -> -> ->.
    apply (state_total 4 8 8 1280 outputs seconds thirds grads class_index Hin);
      reflexivity.
  - intros maps alphas Hrun.
    destruct (state_alpha_cells b h w c outputs seconds thirds grads class_index
                Hin maps alphas Hrun) as (Hlen & Hcls).
    split; [exact Hlen|]. intros i second third Hsec Hthi.
    destruct (Hcls i second third Hsec Hthi)
      as (sum1 & gs & alpha & Hsum & Hgs & Ha & Hsa & Hcells).
    exists sum1, gs, alpha. repeat (split; [assumption|]).
    intros m y x j g2 g3 Hg2 Hg3.
    destruct (Hcells m y x j g2 g3 Hg2 Hg3) as (Hg & Hal).
    split; [exact Hg|]. unfold alpha_denominator in Hal. split; [exact Hal|].
    intros Hnz. rewrite Hal. unfold guarded. rewrite Hnz. reflexivity.
Qed.
End AlphaClaims.

Lemma composer_alpha_formula_witness :
  exists maps alphas,
    generate_ponderated_output_state (big_const 1%Qc)
      ((fun _ => big_const 1%Qc) <$> [0%Z]) ((fun _ => big_const 1%Qc) <$> [0%Z])
      ((fun _ => big_const 1%Qc) <$> [0%Z]) [0%Z] = Ok (maps, alphas) /\
    length alphas = 1.
Proof.
  destruct (composer_alpha_formula 4 8 8 1280 (big_const 1%Qc)
              ((fun _ => big_const 1%Qc) <$> [0%Z])
              ((fun _ => big_const 1%Qc) <$> [0%Z])
              ((fun _ => big_const 1%Qc) <$> [0%Z]) [0%Z]
              (big_const_input 1%Qc [0%Z])) as (Htotal & Hcells).
  destruct (Htotal eq_refl) as (maps & alphas & Hrun).
  exists maps, alphas. split; [exact Hrun|].
  exact (proj1 (Hcells maps alphas Hrun)).
Defined.

Section ZeroDenominator.
Context {F : Type} `{ExactArith F}.

Lemma guarded_nonzero (d : F) : guarded d <> zero.
Proof.
  unfold guarded. destruct (neqb0 d) eqn:Hd; intros Habs;
    apply neqb0_zero in Habs.
  - rewrite Hd in Habs. discriminate.
  - rewrite neqb0_one in Habs. discriminate.
Qed.

End ZeroDenominator.


(** ** Which image a class position gets its CAM from *)

Section ClassSelection.
Context {F : Type} `{Scalar F}.

Lemma state_class_results b h w c (outputs : tensor F)
    (seconds thirds grads : list (tensor F)) (class_index : list Z) maps alphas :
  composer_input b h w c outputs seconds thirds grads class_index ->
  generate_ponderated_output_state outputs seconds thirds grads class_index
  = Ok (maps, alphas) ->
  exists per,
    maps = omap id per /\ length per = length class_index /\
    (grads <> [] -> b = 4 /\ h = 8 /\ w = 8 /\ c = 1280) /\
    forall i grad ci,
      grads !! i = Some grad -> class_index !! i = Some ci ->
      exists alpha pc,
        alphas !! i = Some alpha /\ shape alpha = shape outputs /\
        per !! i = Some pc /\ class_result outputs alpha grad 4 ci pc.
Proof.
  intros Hin Hrun.
  destruct (state_composed b h w c outputs seconds thirds grads class_index
              Hin maps alphas Hrun)
    as (sum1 & per & _ & _ & (La & Lp & Hmaps & Hcls) & Hdims).
  destruct (state_alpha_cells b h w c outputs seconds thirds grads class_index
              Hin maps alphas Hrun) as (_ & Hshape).
  pose proof Hin as (_ & _ & L2 & L3 & Lc & _).
  exists per. split; [exact Hmaps|]. split; [lia|]. split; [exact Hdims|].
  intros i grad ci Hgr Hci.
  pose proof (lookup_lt_Some _ _ _ Hgr) as Hi.
  destruct (lookup_lt_is_Some_2 seconds i ltac:(lia)) as (second & Hsec).
  destruct (lookup_lt_is_Some_2 thirds i ltac:(lia)) as (third & Hthi).
  destruct (Hcls i second third grad ci Hsec Hthi Hgr Hci Hi)
    as (alpha & pc & Ha & _ & Hp & Hr).
  destruct (Hshape i second third Hsec Hthi)
    as (_ & _ & alpha' & _ & _ & Ha' & Hsa & _).
  simpl in Ha. rewrite Ha in Ha'. injection Ha' as <-.
  exists alpha, pc. repeat split; assumption.
Qed.

(** C7 (what the code does instead): whenever the composer returns (and on a
    feature map of shape (4, 8, 8, 1280) it does), for the class index at
    position i, of value [ci], the zip scan takes the image whose batch
    position equals the VALUE [ci], not the position i: the CAM appended is
    [ponderate_output] of slice [ci] of the feature map, of [alphas[i]] and
    of the guided gradient of class i, and no CAM at all is appended when
    [ci] is not a batch position (outside 0..3). *)
Theorem scan_selects_by_class_value (b h w c : nat) (outputs : tensor F)
    (seconds thirds grads : list (tensor F)) (class_index : list Z) :
  composer_input b h w c outputs seconds thirds grads class_index ->
  (shape outputs = [4; 8; 8; 1280] ->
   exists maps alphas,
     generate_ponderated_output_state outputs seconds thirds grads class_index
     = Ok (maps, alphas)) /\
  forall maps alphas,
    generate_ponderated_output_state outputs seconds thirds grads class_index
    = Ok (maps, alphas) ->
  exists per,
    maps = omap id per /\ length per = length class_index /\
    forall i grad ci,
      grads !! i = Some grad -> class_index !! i = Some ci ->
      exists alpha,
        alphas !! i = Some alpha /\
        ((0 <= ci < 4)%Z ->
         exists cam, per !! i = Some (Some cam) /\
           ponderate_output (slice outputs (Z.to_nat ci))
                            (slice alpha (Z.to_nat ci))
                            (slice grad (Z.to_nat ci)) = Ok cam) /\
        (~ (0 <= ci < 4)%Z -> per !! i = Some None).
Proof.
  intros Hin. split.
  { intros Hs. pose proof Hin as (Hso & _). rewrite Hso in Hs.
    injection Hs as -> -> -> ->.
    apply (state_total 4 8 8 1280 outputs seconds thirds grads class_index Hin);
      reflexivity. }
  intros maps alphas Hrun.
  destruct (state_class_results b h w c outputs seconds thirds grads class_index
              maps alphas Hin Hrun) as (per & Hmaps & Lp & _ & Hcls).
  exists per. split; [exact Hmaps|]. split; [exact Lp|].
  intros i grad ci Hgr Hci.
  destruct (Hcls i grad ci Hgr Hci) as (alpha & pc & Ha & _ & Hp & Hr).
  exists alpha. split; [exact Ha|]. unfold class_result in Hr.
  destruct (decide (0 <= ci < Z.of_nat 4)%Z) as [Hin4|Hout].
  - destruct Hr as (cam & -> & Hcam). split; [|intros Hno; lia].
    intros _. exists cam. split; assumption.
  - subst pc. split; [intros Hyes; lia | intros _; exact Hp].
Qed.
End ClassSelection.

Lemma scan_selects_by_class_value_witness :
  generate_ponderated_output (big_const 1%Qc)
    ((fun _ => big_const 1%Qc) <$> [7%Z]) ((fun _ => big_const 1%Qc) <$> [7%Z])
    ((fun _ => big_const 1%Qc) <$> [7%Z]) [7%Z] = Ok [].
Proof.
  destruct (scan_selects_by_class_value 4 8 8 1280 (big_const 1%Qc)
              ((fun _ => big_const 1%Qc) <$> [7%Z])
              ((fun _ => big_const 1%Qc) <$> [7%Z])
              ((fun _ => big_const 1%Qc) <$> [7%Z]) [7%Z]
              (big_const_input 1%Qc [7%Z])) as (Htotal & Hall).
  destruct (Htotal eq_refl) as (maps & alphas & Hrun).
  destruct (Hall maps alphas Hrun) as (per & Hmaps & Lp & Hcls).
  destruct (Hcls 0 (big_const 1%Qc) 7%Z eq_refl eq_refl) as (alpha & _ & _ & Hnone).
  unfold generate_ponderated_output. rewrite Hrun. cbn [mbind result_bind fst].
  rewrite Hmaps. destruct per as [|p0 [|p1 per]]; try discriminate Lp.
  assert (~ (0 <= 7 < 4)%Z) as Hout by lia.
  specialize (Hnone Hout). cbn [lookup list_lookup] in Hnone.
  injection Hnone as ->. reflexivity.
Defined.

(** ** How many CAMs come back *)

Lemma omap_all_Some {A} (per : list (option A)) :
  (forall i, i < length per -> exists x, per !! i = Some (Some x)) ->
  length (omap id per) = length per /\
  forall i x, per !! i = Some (Some x) -> omap id per !! i = Some x.
Proof.
  induction per as [|p per IH]; intros Hall.
  - split; [reflexivity|]. intros i x Hi. discriminate.
  - destruct (Hall 0 ltac:(simpl; lia)) as (x0 & Hx0). simpl in Hx0.
    injection Hx0 as ->.
    destruct IH as (Hlen & Hlook).
    { intros i Hi. apply (Hall (S i)). simpl. lia. }
    change (omap id (Some x0 :: per)) with (x0 :: omap id per).
    split; [cbn [length]; f_equal; exact Hlen|].
    intros [|i] x Hx; cbn [lookup list_lookup] in *;
      [congruence | apply Hlook; exact Hx].
Qed.

Lemma hardcoded_numel : 1 < numel [4; 8 * 8; 1280].
Proof.
  change (numel [4; 8 * 8; 1280]) with (4 * (8 * 8 * (1280 * 1))).
  apply Nat.lt_1_mul_pos; [lia|].
  apply Nat.mul_pos_pos; [lia|]. apply Nat.mul_pos_pos; lia.
Qed.

Section CamCount.
Context {F : Type} `{Scalar F}.

(** on the shape the reshapes expect, and with class indices that are batch
    positions, there is one CAM per class index, in order, of the target
    layer's height and width *)
Lemma generate_ponderated_output_in_range (outputs : tensor F)
    (seconds thirds grads : list (tensor F)) (class_index : list Z) :
  composer_input 4 8 8 1280 outputs seconds thirds grads class_index ->
  Forall (fun ci => (0 <= ci < 4)%Z) class_index ->
  exists maps,
    generate_ponderated_output outputs seconds thirds grads class_index = Ok maps /\
    length maps = length class_index /\
    forall i, i < length class_index ->
      exists cam, maps !! i = Some cam /\ shape cam = [8; 8] /\ wf cam.
Proof.
  intros Hin Hrange.
  destruct (state_total 4 8 8 1280 outputs seconds thirds grads class_index Hin
              eq_refl eq_refl eq_refl eq_refl) as (maps & alphas & Hrun).
  destruct (state_class_results 4 8 8 1280 outputs seconds thirds grads class_index
              maps alphas Hin Hrun) as (per & Hmaps & Lp & _ & Hcls).
  pose proof Hin as (Hso & _ & _ & _ & Lc & _ & _ & Fg).
  assert (forall i, i < length per ->
            exists cam, per !! i = Some (Some cam) /\ shape cam = [8; 8] /\ wf cam)
    as Hper.
  { intros i Hi.
    destruct (lookup_lt_is_Some_2 grads i ltac:(lia)) as (grad & Hgr).
    destruct (lookup_lt_is_Some_2 class_index i ltac:(lia)) as (ci & Hci).
    destruct (Hcls i grad ci Hgr Hci) as (alpha & pc & _ & Hsa & Hp & Hr).
    pose proof (Forall_lookup_1 _ _ _ _ Hrange Hci) as Hin4. cbv beta in Hin4.
    destruct (Forall_lookup_1 _ _ _ _ Fg Hgr) as (Hsg & _).
    unfold class_result in Hr.
    destruct (decide (0 <= ci < Z.of_nat 4)%Z) as [_|Hout]; [|lia].
    destruct Hr as (cam & -> & Hcam).
    rewrite Hso in Hsa.
    destruct (ponderate_output_spec (slice outputs (Z.to_nat ci))
                (slice alpha (Z.to_nat ci)) (slice grad (Z.to_nat ci)) 8 8 1280)
      as (cam' & Hcam' & Hsc & Hwc & _); try (eapply shape_slice; eassumption).
    rewrite Hcam in Hcam'. injection Hcam' as <-.
    exists cam. split; [exact Hp|]. split; assumption. }
  destruct (omap_all_Some per) as (Hlen & Hlook).
  { intros i Hi. destruct (Hper i Hi) as (cam & Hc & _). exists cam. exact Hc. }
  exists maps. split.
  - unfold generate_ponderated_output. rewrite Hrun. reflexivity.
  - rewrite Hmaps. split; [lia|]. intros i Hi.
    destruct (Hper i ltac:(lia)) as (cam & Hc & Hsc & Hwc).
    exists cam. split; [apply Hlook; exact Hc|]. split; assumption.
Qed.
End CamCount.

Lemma tiny_input : composer_input 1 1 1 1 tiny_images [tiny_images] [tiny_images]
                                  [tiny_images] [0%Z].
Proof.
  assert (shape tiny_images = [1; 1; 1; 1] /\ wf tiny_images) as Ht
    by (split; reflexivity).
  unfold composer_input. destruct Ht as (Hs & Hw).
  split; [exact Hs|]. split; [exact Hw|]. split; [reflexivity|].
  split; [reflexivity|]. split; [reflexivity|].
  repeat split; repeat constructor; assumption.
Qed.

Lemma toy_feature_map_input :
  composer_input 1 8 8 4 toy_feature_map [toy_feature_map] [toy_feature_map]
                 [toy_feature_map] [0%Z].
Proof.
  assert (shape toy_feature_map = [1; 8; 8; 4] /\ wf toy_feature_map) as (Hs & Hw).
  { split; [reflexivity|]. unfold wf, toy_feature_map. cbn [data shape].
    apply length_replicate. }
  unfold composer_input.
  split; [exact Hs|]. split; [exact Hw|]. split; [reflexivity|].
  split; [reflexivity|]. split; [reflexivity|].
  split; [|split]; (constructor; [split; assumption | constructor]).
Qed.

Lemma toy_feature_map_numel : numel [1; 8; 8; 4] <> numel [4; 8 * 8; 1280].
Proof.
  change (numel [1; 8; 8; 4]) with (1 * (8 * (8 * (4 * 1)))).
  change (numel [4; 8 * 8; 1280]) with (4 * (8 * 8 * (1280 * 1))).
  lia.
Qed.

(** C1 (where the code departs from it): a batch of one image whose feature
    map has the shape (1, 8, 8, 4), with one class index, gives no CAM but the
    reshape error; and on a batch of four images whose feature map has the
    shape (4, 8, 8, 1280), the four class indices 7, 0, 1, 2 give three
    CAMs. *)
Theorem composer_misses_cams :
  generate_ponderated_output toy_feature_map [toy_feature_map] [toy_feature_map]
                             [toy_feature_map] [0%Z]
  = Raise (InvalidArgumentError "Reshape") /\
  exists maps,
    generate_ponderated_output (big_const 1%Qc)
      ((fun _ => big_const 1%Qc) <$> [7; 0; 1; 2]%Z)
      ((fun _ => big_const 1%Qc) <$> [7; 0; 1; 2]%Z)
      ((fun _ => big_const 1%Qc) <$> [7; 0; 1; 2]%Z) [7; 0; 1; 2]%Z = Ok maps /\
    length maps = 3.
Proof.
  split.
  - unfold generate_ponderated_output, generate_ponderated_output_state.
    change [4; 64; 1280] with [4; 8 * 8; 1280].
    rewrite (composer_loop_reshape_error 4 8 8 1280 1 8 8 4 toy_feature_map
               [toy_feature_map] [toy_feature_map] [toy_feature_map] [0%Z]
               toy_feature_map_input);
      [reflexivity | discriminate | exact toy_feature_map_numel].
  - destruct (state_total 4 8 8 1280 (big_const 1%Qc) _ _ _ _
                (big_const_input 1%Qc [7; 0; 1; 2]%Z) eq_refl eq_refl eq_refl eq_refl)
      as (maps & alphas & Hrun).
    destruct (state_class_results 4 8 8 1280 (big_const 1%Qc) _ _ _ _
                maps alphas (big_const_input 1%Qc [7; 0; 1; 2]%Z) Hrun)
      as (per & Hmaps & Lp & _ & Hcls).
    exists maps. split.
    { unfold generate_ponderated_output. rewrite Hrun. reflexivity. }
    destruct (Hcls 0 (big_const 1%Qc) 7%Z eq_refl eq_refl) as (a0 & p0 & _ & _ & H0 & R0).
    destruct (Hcls 1 (big_const 1%Qc) 0%Z eq_refl eq_refl) as (a1 & p1 & _ & _ & H1 & R1).
    destruct (Hcls 2 (big_const 1%Qc) 1%Z eq_refl eq_refl) as (a2 & p2 & _ & _ & H2 & R2).
    destruct (Hcls 3 (big_const 1%Qc) 2%Z eq_refl eq_refl) as (a3 & p3 & _ & _ & H3 & R3).
    unfold class_result in R0, R1, R2, R3.
    rewrite decide_False in R0 by lia.
    rewrite decide_True in R1 by lia. rewrite decide_True in R2 by lia.
    rewrite decide_True in R3 by lia.
    destruct R1 as (c1 & -> & _). destruct R2 as (c2 & -> & _).
    destruct R3 as (c3 & -> & _). subst p0.
    destruct per as [|q0 [|q1 [|q2 [|q3 [|q4 per]]]]]; try discriminate Lp.
    cbn [lookup list_lookup] in H0, H1, H2, H3.
    injection H0 as ->. injection H1 as ->. injection H2 as ->. injection H3 as ->.
    rewrite Hmaps. reflexivity.
Qed.

(** ** The hardcoded reshapes *)

Lemma numel_merge b h w c : numel [b; h * w; c] = numel [b; h; w; c].
Proof. unfold numel. simpl. lia. Qed.

Lemma global_sum_of_shape {F : Type} `{Scalar F} grey_shape sum_shape
    (sum1 third gs : tensor F) :
  global_sum_of grey_shape sum_shape sum1 third = Ok gs ->
  tf_reshape third grey_shape = Ok (Tensor grey_shape (data third)) /\
  shape gs = sum_shape.
Proof.
  unfold global_sum_of, tf_reshape.
  destruct (decide (length (data third) = numel grey_shape)); [|discriminate].
  simpl. destruct (scale_grey sum1 _) as [g'|]; simpl; [|discriminate].
  unfold np_reshape. destruct (decide _); [|discriminate].
  intros [= <-]. split; reflexivity.
Qed.

Section HardcodedShape.
Context {F : Type} `{Scalar F}.

(** C9 (amended): as soon as one class index is processed, the composer
    reshapes the third derivative of each class to [4, 64, 1280] and the
    scaled result to (4, 8, 8, 1280); it returns only if the feature map has
    shape (4, 8, 8, 1280), and it does return then; on a feature map that does
    not have 4*8*8*1280 elements it raises the reshape error.  With an empty
    class list it returns the empty list, for any 4-dimensional feature
    map. *)
Theorem hardcoded_reshape (b h w c : nat) (outputs : tensor F)
    (seconds thirds grads : list (tensor F)) (class_index : list Z) :
  composer_input b h w c outputs seconds thirds grads class_index ->
  (grads = [] ->
   generate_ponderated_output outputs seconds thirds grads class_index = Ok []) /\
  (grads <> [] ->
   numel [b; h; w; c] <> numel [4; 8; 8; 1280] ->
   generate_ponderated_output outputs seconds thirds grads class_index
   = Raise (InvalidArgumentError "Reshape")) /\
  (grads <> [] ->
   forall maps,
     generate_ponderated_output outputs seconds thirds grads class_index = Ok maps ->
     shape outputs = [4; 8; 8; 1280] /\
     forall i third, thirds !! i = Some third ->
       exists sum1 global_sum,
         tf_reshape third [4; 64; 1280] = Ok (Tensor [4; 64; 1280] (data third)) /\
         global_sum_of [4; 64; 1280] [4; 8; 8; 1280] sum1 third = Ok global_sum /\
         shape global_sum = [4; 8; 8; 1280]) /\
  (shape outputs = [4; 8; 8; 1280] ->
   exists maps,
     generate_ponderated_output outputs seconds thirds grads class_index = Ok maps).
Proof.
  intros Hin. split; [|split; [|split]].
  - intros Hnil. pose proof Hin as (Hso & _).
    destruct (tf_reduce_sum_12 outputs b h w c Hso) as (sum1 & Hsum & _).
    unfold generate_ponderated_output, generate_ponderated_output_state,
      composer_loop.
    rewrite Hsum, Hnil. reflexivity.
  - intros Hsome Hne.
    unfold generate_ponderated_output, generate_ponderated_output_state.
    change [4; 64; 1280] with [4; 8 * 8; 1280].
    rewrite (composer_loop_reshape_error 4 8 8 1280 b h w c outputs seconds thirds
               grads class_index Hin Hsome); [reflexivity|].
    rewrite (numel_merge 4 8 8 1280). exact Hne.
  - intros Hsome maps Hrun. unfold generate_ponderated_output in Hrun.
    destruct (generate_ponderated_output_state outputs seconds thirds grads
                class_index) as [[maps' alphas]|e] eqn:Hst; [|discriminate].
    simpl in Hrun. injection Hrun as ->.
    destruct (state_composed b h w c outputs seconds thirds grads class_index
                Hin maps alphas Hst) as (_ & _ & _ & _ & _ & Hdims).
    destruct (Hdims Hsome) as (-> & -> & -> & ->).
    pose proof Hin as (Hso & _ & L2 & L3 & _). split; [exact Hso|].
    intros i third Hthi.
    destruct (lookup_lt_is_Some_2 seconds i) as (second & Hsec).
    { rewrite L2, <- L3. eapply lookup_lt_Some. exact Hthi. }
    destruct (state_alpha_cells 4 8 8 1280 outputs seconds thirds grads class_index
                Hin maps alphas Hst) as (_ & Hcls).
    destruct (Hcls i second third Hsec Hthi) as (sum1 & gs & _ & _ & Hgs & _).
    destruct (global_sum_of_shape _ _ _ _ _ Hgs) as (Hre & Hsg).
    exists sum1, gs. split; [exact Hre|]. split; assumption.
  - intros Hs. pose proof Hin as (Hso & _). rewrite Hso in Hs.
    injection Hs as -> -> -> ->.
    destruct (state_total 4 8 8 1280 outputs seconds thirds grads class_index Hin
                eq_refl eq_refl eq_refl eq_refl) as (maps & alphas & Hrun).
    exists maps. unfold generate_ponderated_output. rewrite Hrun. reflexivity.
Qed.
End HardcodedShape.

Lemma hardcoded_reshape_witness :
  generate_ponderated_output tiny_images [tiny_images] [tiny_images]
                             [tiny_images] [2%Z]
  = Raise (InvalidArgumentError "Reshape") /\
  generate_ponderated_output toy_feature_map [] [] [] [] = Ok [].
Proof.
  assert (composer_input 1 1 1 1 tiny_images [tiny_images] [tiny_images]
                         [tiny_images] [2%Z]) as Hin.
  { destruct tiny_input as (Hs & Hw & L2 & L3 & _ & F2 & F3 & Fg).
    split; [exact Hs|]. split; [exact Hw|]. split; [exact L2|]. split; [exact L3|].
    split; [reflexivity|]. split; [exact F2|]. split; [exact F3 | exact Fg]. }
  assert (composer_input 1 8 8 4 toy_feature_map [] [] [] []) as Hempty.
  { split; [reflexivity|]. split; [apply length_replicate|].
    split; [reflexivity|]. split; [reflexivity|]. split; [reflexivity|].
    split; [constructor|]. split; constructor. }
  split.
  - apply (hardcoded_reshape 1 1 1 1 tiny_images [tiny_images] [tiny_images]
             [tiny_images] [2%Z] Hin); [discriminate|].
    rewrite <- (numel_merge 4 8 8 1280). change (numel [1; 1; 1; 1]) with 1.
    pose proof hardcoded_numel. lia.
  - apply (hardcoded_reshape 1 8 8 4 toy_feature_map [] [] [] [] Hempty).
    reflexivity.
Defined.

(** C9 as stated fails when no class index is processed: the composer returns
    the empty list, whatever the feature map, and no reshape is attempted. *)
Lemma empty_class_list_no_reshape_error :
  numel (shape tiny_images) <> numel [4; 8; 8; 1280] /\
  generate_ponderated_output tiny_images [] [] [] [] = Ok [].
Proof.
  split.
  - rewrite <- (numel_merge 4 8 8 1280). change (numel (shape tiny_images)) with 1.
    pose proof hardcoded_numel. lia.
  - reflexivity.
Qed.

(** ** A guided gradient that is zero everywhere *)

Section ZeroGradient.
Context {F : Type} `{ExactArith F}.

Lemma at_all_zero (t : tensor F) idx : all_zero t -> at_ t idx = zero.
Proof.
  intros Hz. unfold at_, get.
  destruct (ravel (shape t) idx) as [o|]; simpl; [|reflexivity].
  destruct (data t !! o) as [v|] eqn:Hv; simpl; [|reflexivity].
  exact (Forall_lookup_1 _ _ _ _ Hz Hv).
Qed.

Lemma all_zero_slice (t : tensor F) v : all_zero t -> all_zero (slice t v).
Proof.
  intros Hz. unfold all_zero, slice. cbn [data].
  apply Forall_take, Forall_drop. exact Hz.
Qed.

Lemma fsum_zero n : fsum n (fun _ => zero) = zero.
Proof.
  unfold fsum. generalize 0 as a.
  induction n as [|n IH]; intros a; simpl; [reflexivity|].
  rewrite IH. apply add_zero_zero.
Qed.

(** zero weights, hence a zero CAM *)
Lemma ponderate_output_zero_grad (output alpha grad cam : tensor F) h w c :
  shape output = [h; w; c] -> shape alpha = [h; w; c] -> shape grad = [h; w; c] ->
  all_zero grad ->
  ponderate_output output alpha grad = Ok cam ->
  (forall j, channel_weight alpha grad h w j = zero) /\
  shape cam = [h; w] /\ all_zero cam.
Proof.
  intros Hso Hsa Hsg Hz Hcam.
  assert (forall j, channel_weight alpha grad h w j = zero) as Hweights.
  { intros j. unfold channel_weight.
    rewrite (fsum_ext h _ (fun _ => zero)).
    - rewrite fsum_zero. apply div_zero_l.
    - intros y _. rewrite (fsum_ext w _ (fun _ => zero)); [apply fsum_zero|].
      intros x _. rewrite (at_all_zero grad _ Hz). apply mul_zero_r. }
  split; [exact Hweights|].
  destruct (ponderate_output_spec output alpha grad h w c Hso Hsa Hsg)
    as (cam' & Hcam' & Hsc & _ & (g & Hg) & Hcells).
  rewrite Hcam in Hcam'. injection Hcam' as Heq. subst cam'.
  split; [exact Hsc|].
  unfold all_zero. rewrite Hg. unfold build. cbn [data].
  rewrite (tabulate_ext [h; w] g (fun _ => zero)).
  - rewrite tabulate_const. apply Forall_replicate. reflexivity.
  - intros idx Hidx.
    inversion Hidx as [|y h' idx1 s1 Hy Hidx1]; subst.
    inversion Hidx1 as [|x w' idx2 s2 Hx Hidx2]; subst.
    inversion Hidx2; subst.
    pose proof (Hcells y x Hy Hx) as Hcell.
    rewrite get_build_at in Hcell by (repeat constructor; assumption).
    injection Hcell as ->.
    rewrite (fsum_ext c _ (fun _ => zero)); [apply fsum_zero|].
    intros j _. rewrite Hweights. apply mul_zero_l.
Qed.

End ZeroGradient.

Lemma Forall_tabulate {A} (P : A -> Prop) s (f : list nat -> A) :
  (forall idx, Forall2 lt idx s -> P (f idx)) -> Forall P (tabulate s f).
Proof.
  revert f. induction s as [|n s IH]; intros f Hf; simpl.
  - constructor; [apply Hf; constructor | constructor].
  - apply Forall_flat_map. apply List.Forall_forall. intros i Hi.
    apply in_seq in Hi. apply IH. intros idx Hidx. apply Hf.
    constructor; [lia | exact Hidx].
Qed.

Section ZeroGradientFinite.
Context {F : Type} `{FiniteArith F}.

Lemma at_zero_everywhere (t : tensor F) idx : zero_everywhere t -> is_zero (at_ t idx).
Proof.
  intros Hz. unfold at_, get.
  destruct (ravel (shape t) idx) as [o|]; simpl; [|apply is_zero_zero].
  destruct (data t !! o) as [v|] eqn:Hv; simpl; [|apply is_zero_zero].
  exact (Forall_lookup_1 _ _ _ _ Hz Hv).
Qed.

Lemma at_finite_everywhere (t : tensor F) idx :
  finite_everywhere t -> is_finite (at_ t idx).
Proof.
  intros Hz. unfold at_.
  destruct (get t idx) as [v|] eqn:Hv; simpl;
    [exact (Hz idx v Hv) | apply is_zero_finite, is_zero_zero].
Qed.

Lemma finite_everywhere_slice (t : tensor F) n s v :
  shape t = n :: s -> v < n -> finite_everywhere t -> finite_everywhere (slice t v).
Proof.
  intros Hs Hv Hfin idx x Hx. rewrite (get_slice t n s v idx Hs Hv) in Hx.
  exact (Hfin _ _ Hx).
Qed.

Lemma Forall_slice {A} (P : A -> Prop) (t : tensor A) v :
  Forall P (data t) -> Forall P (data (slice t v)).
Proof. intros Hz. unfold slice. cbn [data]. apply Forall_take, Forall_drop, Hz. Qed.

Lemma fsum_is_zero n (f : nat -> F) :
  (forall i, is_zero (f i)) -> is_zero (fsum n f).
Proof.
  intros Hf. unfold fsum. generalize 0 as a.
  induction n as [|n IH]; intros a; simpl; [apply is_zero_zero|].
  apply add_zeros; [apply Hf | apply IH].
Qed.

(** zero weights and, on a finite feature map, a zero CAM *)
Lemma ponderate_output_zero_weights (output alpha grad cam : tensor F) h w c :
  shape output = [h; w; c] -> shape alpha = [h; w; c] -> shape grad = [h; w; c] ->
  0 < h * w ->
  zero_everywhere grad -> finite_everywhere alpha ->
  ponderate_output output alpha grad = Ok cam ->
  (forall j, is_zero (channel_weight alpha grad h w j)) /\
  shape cam = [h; w] /\
  (finite_everywhere output -> zero_everywhere cam).
Proof.
  intros Hso Hsa Hsg Hhw Hz Hfa Hcam.
  assert (forall j, is_zero (channel_weight alpha grad h w j)) as Hweights.
  { intros j. unfold channel_weight. apply div_zero_count; [exact Hhw|].
    apply fsum_is_zero. intros y. apply fsum_is_zero. intros x.
    apply mul_finite_zero;
      [apply at_finite_everywhere; exact Hfa | apply at_zero_everywhere; exact Hz]. }
  split; [exact Hweights|].
  destruct (ponderate_output_spec output alpha grad h w c Hso Hsa Hsg)
    as (cam' & Hcam' & Hsc & _ & (g & Hg) & Hcells).
  rewrite Hcam in Hcam'. injection Hcam' as Heq. subst cam'.
  split; [exact Hsc|]. intros Hfo.
  unfold zero_everywhere. rewrite Hg. unfold build. cbn [data].
  apply Forall_tabulate. intros idx Hidx.
  inversion Hidx as [|y h' idx1 s1 Hy Hidx1]; subst.
  inversion Hidx1 as [|x w' idx2 s2 Hx Hidx2]; subst.
  inversion Hidx2; subst.
  pose proof (Hcells y x Hy Hx) as Hcell.
  rewrite get_build_at in Hcell by (repeat constructor; assumption).
  injection Hcell as ->.
  apply fsum_is_zero. intros j.
  apply mul_zero_finite; [apply Hweights | apply at_finite_everywhere; exact Hfo].
Qed.

(** C8 (amended): whenever the composer returns (and on a feature map of
    shape (4, 8, 8, 1280) it does), the CAM it appended for a class whose
    guided gradient is a zero everywhere and whose alpha is finite everywhere
    has every channel weight (spatial mean of alpha times guided gradient)
    zero and, when the feature map is finite everywhere too, is a zero
    everywhere.  [per] lists, per class position, the CAM appended for it,
    which is what [ponderate_output] returned; one is appended when the class
    index is a batch position.  This holds in every arithmetic with the laws
    that exact and IEEE arithmetic share; in exact arithmetic every value is
    finite. *)
Theorem zero_guided_gradient_zero_cam (b h w c : nat) (outputs : tensor F)
    (seconds thirds grads : list (tensor F)) (class_index : list Z) :
  composer_input b h w c outputs seconds thirds grads class_index ->
  (shape outputs = [4; 8; 8; 1280] ->
   exists maps alphas,
     generate_ponderated_output_state outputs seconds thirds grads class_index
     = Ok (maps, alphas)) /\
  forall maps alphas,
    generate_ponderated_output_state outputs seconds thirds grads class_index
    = Ok (maps, alphas) ->
  exists per,
    maps = omap id per /\ length per = length class_index /\
    forall i grad ci,
      grads !! i = Some grad -> class_index !! i = Some ci ->
      zero_everywhere grad ->
      exists alpha,
        alphas !! i = Some alpha /\
        ((0 <= ci < 4)%Z -> exists cam, per !! i = Some (Some cam)) /\
        forall cam, per !! i = Some (Some cam) ->
          ponderate_output (slice outputs (Z.to_nat ci))
                           (slice alpha (Z.to_nat ci))
                           (slice grad (Z.to_nat ci)) = Ok cam /\
          shape cam = [8; 8] /\
          (finite_everywhere alpha ->
           (forall j, is_zero (channel_weight (slice alpha (Z.to_nat ci))
                                              (slice grad (Z.to_nat ci)) 8 8 j)) /\
           (finite_everywhere outputs -> zero_everywhere cam)).
Proof.
  intros Hin. split.
  { intros Hs. pose proof Hin as (Hso & _). rewrite Hso in Hs.
    injection Hs as -> -> -> ->.
    apply (state_total 4 8 8 1280 outputs seconds thirds grads class_index Hin);
      reflexivity. }
  intros maps alphas Hrun.
  destruct (state_class_results b h w c outputs seconds thirds grads class_index
              maps alphas Hin Hrun) as (per & Hmaps & Lp & Hdims & Hcls).
  exists per. split; [exact Hmaps|]. split; [exact Lp|].
  intros i grad ci Hgr Hci Hz.
  destruct (Hcls i grad ci Hgr Hci) as (alpha & pc & Ha & Hsa & Hp & Hr).
  destruct Hdims as (-> & -> & -> & ->).
  { intros Hnil. rewrite Hnil in Hgr. discriminate. }
  pose proof Hin as (Hso & _ & _ & _ & _ & _ & _ & Fg).
  destruct (Forall_lookup_1 _ _ _ _ Fg Hgr) as (Hsg & _).
  rewrite Hso in Hsa. unfold class_result in Hr.
  exists alpha. split; [exact Ha|].
  destruct (decide (0 <= ci < Z.of_nat 4)%Z) as [Hin4|Hout].
  - destruct Hr as (cam & -> & Hcam). split.
    + intros _. exists cam. exact Hp.
    + intros cam' Hp'. rewrite Hp in Hp'. injection Hp' as <-.
      split; [exact Hcam|].
      destruct (ponderate_output_spec (slice outputs (Z.to_nat ci))
                  (slice alpha (Z.to_nat ci)) (slice grad (Z.to_nat ci))
                  8 8 1280) as (cam' & Hcam' & Hsc & _);
        try (eapply shape_slice; eassumption).
      rewrite Hcam in Hcam'. injection Hcam' as <-.
      split; [exact Hsc|]. intros Hfa.
      destruct (ponderate_output_zero_weights (slice outputs (Z.to_nat ci))
                  (slice alpha (Z.to_nat ci)) (slice grad (Z.to_nat ci)) cam
                  8 8 1280) as (Hwz & _ & Hcz);
        try (eapply shape_slice; eassumption);
        [lia | apply Forall_slice; exact Hz
         | apply (finite_everywhere_slice alpha 4 [8; 8; 1280]);
           [exact Hsa | lia | exact Hfa]
         | exact Hcam |].
      split; [exact Hwz|]. intros Hfo. apply Hcz.
      apply (finite_everywhere_slice outputs 4 [8; 8; 1280]);
        [exact Hso | lia | exact Hfo].
  - subst pc. split; [intros Hyes; lia|].
    intros cam Hp'. rewrite Hp in Hp'. discriminate.
Qed.
End ZeroGradientFinite.

(** ** Constant tensors of the composer's shape *)

Lemma in_bounds_4 a b c d m y x j :
  m < a -> y < b -> x < c -> j < d -> Forall2 lt [m; y; x; j] [a; b; c; d].
Proof.
  intros Hm Hy Hx Hj.
  constructor; [exact Hm|]. constructor; [exact Hy|].
  constructor; [exact Hx|]. constructor; [exact Hj|]. constructor.
Qed.

Lemma full_ok {A} (s : list nat) (x : A) : shape (full s x) = s /\ wf (full s x).
Proof.
  split; [reflexivity|]. unfold wf, full. cbn [data shape]. apply length_replicate.
Qed.

Lemma get_full {A} (s : list nat) (x : A) idx :
  Forall2 lt idx s -> get (full s x) idx = Some x.
Proof.
  intros Hb.
  destruct (get_wf_is_Some (full s x) idx (proj2 (full_ok s x)) Hb) as (v & Hv).
  rewrite Hv. f_equal. unfold get in Hv.
  destruct (ravel (shape (full s x)) idx) as [o|]; [|discriminate].
  cbn [mbind option_bind full data] in Hv.
  apply lookup_replicate in Hv as [-> _]. reflexivity.
Qed.

Lemma Forall_full {A} (P : A -> Prop) (s : list nat) (x : A) :
  P x -> Forall P (data (full s x)).
Proof. intros Hx. unfold full. cbn [data]. apply Forall_replicate. exact Hx. Qed.

Lemma finite_everywhere_full (s : list nat) (x : spec_float) :
  is_finite x -> finite_everywhere (full s x).
Proof.
  intros Hx idx v Hv. pose proof (get_Some_bounds _ _ _ Hv) as Hb.
  rewrite (get_full s x idx Hb) in Hv. injection Hv as <-. exact Hx.
Qed.

Lemma full_input {F : Type} (o g2 g3 gg : F) :
  composer_input 4 8 8 1280 (full [4; 8; 8; 1280] o) [full [4; 8; 8; 1280] g2]
                 [full [4; 8; 8; 1280] g3] [full [4; 8; 8; 1280] gg] [0%Z].
Proof.
  assert (forall x : F,
            Forall (fun t : tensor F => shape t = [4; 8; 8; 1280] /\ wf t)
                   [full [4; 8; 8; 1280] x]) as Hall.
  { intros x. constructor; [exact (full_ok [4; 8; 8; 1280] x) | constructor]. }
  destruct (full_ok [4; 8; 8; 1280] o) as (Hs & Hw).
  split; [exact Hs|]. split; [exact Hw|]. split; [exact (eq_refl 1)|].
  split; [exact (eq_refl 1)|]. split; [exact (eq_refl 1)|].
  split; [apply Hall|]. split; apply Hall.
Qed.

(** on constant tensors alpha is the same in every cell *)
Lemma const_alpha {F : Type} `{Scalar F} (o g2 g3 : F)
    (alpha global_sum : tensor F) :
  (forall m y x j v2 v3,
     get (full [4; 8; 8; 1280] g2) [m; y; x; j] = Some v2 ->
     get (full [4; 8; 8; 1280] g3) [m; y; x; j] = Some v3 ->
     get global_sum [m; y; x; j]
     = Some (mul (spatial_sum (full [4; 8; 8; 1280] o) m j) v3) /\
     get alpha [m; y; x; j]
     = Some (div v2 (guarded (alpha_denominator
                                (spatial_sum (full [4; 8; 8; 1280] o) m j) v2 v3)))) ->
  forall m y x j, m < 4 -> y < 8 -> x < 8 -> j < 1280 ->
    get alpha [m; y; x; j]
    = Some (div g2 (guarded (alpha_denominator
                               (fsum 8 (fun _ => fsum 8 (fun _ => o))) g2 g3))).
Proof.
  intros Hformula m y x j Hm Hy Hx Hj.
  assert (Forall2 lt [m; y; x; j] [4; 8; 8; 1280]) as Hb
    by (apply in_bounds_4; assumption).
  destruct (Hformula m y x j g2 g3 (get_full _ _ _ Hb) (get_full _ _ _ Hb))
    as (_ & ->).
  do 4 f_equal. unfold spatial_sum.
  change (shape (full [4; 8; 8; 1280] o)) with [4; 8; 8; 1280]. cbv beta iota.
  apply fsum_ext. intros y' Hy'. apply fsum_ext. intros x' Hx'.
  apply at_get, get_full. apply in_bounds_4; assumption.
Qed.

(** with 1 everywhere, alpha is 1 / (2 + 64), a finite value *)
Lemma unit_alpha_finite :
  is_finite (div (S754_finite false 8388608 (-23))
               (guarded (alpha_denominator
                           (fsum 8 (fun _ => fsum 8 (fun _ =>
                              S754_finite false 8388608 (-23))))
                           (S754_finite false 8388608 (-23))
                           (S754_finite false 8388608 (-23))))).
Proof. vm_compute. exact I. Qed.

Lemma zero_guided_gradient_zero_cam_witness :
  (exists maps cam,
     generate_ponderated_output (big_const 1%Qc)
       ((fun _ => big_const 0%Qc) <$> [0%Z]) ((fun _ => big_const 0%Qc) <$> [0%Z])
       ((fun _ => big_const 0%Qc) <$> [0%Z]) [0%Z] = Ok maps /\
     maps = [cam] /\ shape cam = [8; 8] /\ zero_everywhere cam) /\
  (exists cam,
     generate_ponderated_output unit_map32 [unit_map32] [unit_map32]
                                [zero_guided32] [0%Z] = Ok [cam] /\
     shape cam = [8; 8] /\ zero_everywhere cam).
Proof.
  split.
  - assert (composer_input 4 8 8 1280 (big_const 1%Qc)
              ((fun _ => big_const 0%Qc) <$> [0%Z])
              ((fun _ => big_const 0%Qc) <$> [0%Z])
              ((fun _ => big_const 0%Qc) <$> [0%Z]) [0%Z]) as Hin.
    { destruct (big_const_input 0%Qc [0%Z])
        as (_ & _ & L2 & L3 & Lc & F2 & F3 & Fg).
      destruct (big_const_ok 1%Qc) as (Hs & Hw).
      split; [exact Hs|]. split; [exact Hw|]. split; [exact L2|].
      split; [exact L3|]. split; [exact Lc|]. split; [exact F2|].
      split; [exact F3 | exact Fg]. }
    destruct (zero_guided_gradient_zero_cam 4 8 8 1280 _ _ _ _ _ Hin)
      as (Htotal & Hall).
    destruct (Htotal eq_refl) as (maps & alphas & Hrun).
    destruct (Hall maps alphas Hrun) as (per & Hmaps & Lp & Hcls).
    assert (zero_everywhere (big_const 0%Qc)) as Hz.
    { unfold zero_everywhere, big_const. cbn [data]. apply Forall_replicate.
      reflexivity. }
    destruct (Hcls 0 (big_const 0%Qc) 0%Z eq_refl eq_refl Hz)
      as (alpha & _ & Hsome & Hzero).
    destruct (Hsome ltac:(lia)) as (cam & Hcam).
    destruct (Hzero cam Hcam) as (_ & Hsc & Hcz).
    exists maps, cam. split.
    { unfold generate_ponderated_output. rewrite Hrun. reflexivity. }
    split; [|split; [exact Hsc|]].
    + rewrite Hmaps. destruct per as [|p0 [|p1 per]]; try discriminate Lp.
      cbn [lookup list_lookup] in Hcam. injection Hcam as ->. reflexivity.
    + apply Hcz; intros idx x _; exact I.
  - assert (composer_input 4 8 8 1280 unit_map32 [unit_map32] [unit_map32]
                           [zero_guided32] [0%Z]) as Hin
      by exact (full_input (S754_finite false 8388608 (-23))
                  (S754_finite false 8388608 (-23))
                  (S754_finite false 8388608 (-23)) (S754_zero false)).
    destruct (zero_guided_gradient_zero_cam 4 8 8 1280 unit_map32 [unit_map32]
                [unit_map32] [zero_guided32] [0%Z] Hin)
      as (Htotal & Hall).
    destruct (Htotal eq_refl) as (maps & alphas & Hrun).
    destruct (Hall maps alphas Hrun) as (per & Hmaps & Lp & Hcls).
    assert (zero_everywhere zero_guided32) as Hz
      by (apply Forall_full; exact I).
    destruct (Hcls 0 zero_guided32 0%Z eq_refl eq_refl Hz)
      as (alpha & Ha & Hsome & Hzero).
    destruct (Hsome ltac:(lia)) as (cam & Hcam).
    destruct (Hzero cam Hcam) as (_ & Hsc & Hcz).
    destruct per as [|p0 [|p1 per]]; try discriminate Lp.
    cbn [lookup list_lookup] in Hcam. injection Hcam as ->.
    change (omap id [Some cam]) with [cam] in Hmaps. subst maps.
    exists cam. split.
    { unfold generate_ponderated_output. rewrite Hrun. reflexivity. }
    split; [exact Hsc|].
    destruct (state_alpha_cells 4 8 8 1280 _ _ _ _ _ Hin [cam] alphas Hrun)
      as (_ & Hcells).
    destruct (Hcells 0 unit_map32 unit_map32 eq_refl eq_refl)
      as (sum1 & gs & alpha' & _ & _ & Ha' & Hsa & Hformula).
    rewrite Ha in Ha'. injection Ha' as <-.
    apply Hcz.
    + intros idx v Hv. pose proof (get_Some_bounds _ _ _ Hv) as Hb.
      rewrite Hsa in Hb. change (shape unit_map32) with [4; 8; 8; 1280] in Hb.
      inversion Hb as [|m a idx1 s1 Hm Hb1]; subst.
      inversion Hb1 as [|y b idx2 s2 Hy Hb2]; subst.
      inversion Hb2 as [|x c idx3 s3 Hx Hb3]; subst.
      inversion Hb3 as [|j d idx4 s4 Hj Hb4]; subst.
      inversion Hb4; subst.
      rewrite (const_alpha _ _ _ alpha gs Hformula m y x j Hm Hy Hx Hj) in Hv.
      apply (inj Some) in Hv. rewrite <- Hv. exact unit_alpha_finite.
    + apply finite_everywhere_full. exact I.
Defined.

(** ** A zero guided gradient under an alpha that overflowed *)

(** C8 as stated fails in single precision, on finite inputs: with a feature
    map of 2^70, second derivatives of 2^127 and third derivatives of -2^70
    everywhere, alpha is NaN in every cell (2 * 2^127 overflows to +infinity,
    2^76 * -2^70 to -infinity, and their sum is NaN), and the CAM of a class
    whose guided gradient is zero everywhere is NaN, not zero. *)
Lemma zero_guided_gradient_nan_cam :
  all_zero zero_guided32 /\
  finite_everywhere hot_map32 /\ finite_everywhere steep_second32 /\
  finite_everywhere steep_third32 /\
  exists cam,
    generate_ponderated_output hot_map32 [steep_second32] [steep_third32]
                               [zero_guided32] [0%Z] = Ok [cam] /\
    get cam [0; 0] = Some S754_nan /\
    ~ all_zero cam /\ ~ zero_everywhere cam.
Proof.
  split; [apply Forall_full; reflexivity|].
  split; [apply finite_everywhere_full; exact I|].
  split; [apply finite_everywhere_full; exact I|].
  split; [apply finite_everywhere_full; exact I|].
  assert (composer_input 4 8 8 1280 hot_map32 [steep_second32] [steep_third32]
                         [zero_guided32] [0%Z]) as Hin
    by exact (full_input pow70_32 pow127_32 minus_pow70_32 (S754_zero false)).
  destruct (state_total 4 8 8 1280 hot_map32 _ _ _ _ Hin
              eq_refl eq_refl eq_refl eq_refl) as (maps & alphas & Hrun).
  destruct (state_class_results 4 8 8 1280 hot_map32 _ _ _ _ maps alphas
              Hin Hrun) as (per & Hmaps & Lp & _ & Hcls).
  destruct (Hcls 0 zero_guided32 0%Z eq_refl eq_refl)
    as (alpha & pc & Ha & Hsa & Hp & Hr).
  unfold class_result in Hr. rewrite decide_True in Hr by lia.
  destruct Hr as (cam & -> & Hcam).
  destruct per as [|q0 [|q1 per]]; try discriminate Lp.
  cbn [lookup list_lookup] in Hp. injection Hp as ->.
  change (omap id [Some cam]) with [cam] in Hmaps. subst maps.
  destruct (state_alpha_cells 4 8 8 1280 hot_map32 _ _ _ _ Hin
              [cam] alphas Hrun) as (_ & Hcells).
  destruct (Hcells 0 steep_second32 steep_third32 eq_refl eq_refl)
    as (sum1 & gs & alpha' & _ & _ & Ha' & _ & Hformula).
  rewrite Ha in Ha'. injection Ha' as <-.
  assert (forall y x j, y < 8 -> x < 8 -> j < 1280 ->
            get alpha [0; y; x; j] = Some S754_nan) as Hnan.
  { intros y x j Hy Hx Hj.
    rewrite (const_alpha _ _ _ alpha gs Hformula 0 y x j ltac:(lia) Hy Hx Hj).
    vm_compute. reflexivity. }
  change (shape hot_map32) with [4; 8; 8; 1280] in Hsa.
  change (Z.to_nat 0) with 0 in Hcam.
  destruct (ponderate_output_spec (slice hot_map32 0) (slice alpha 0)
              (slice zero_guided32 0) 8 8 1280)
    as (cam' & Hcam' & _ & _ & _ & Hcell);
    try (eapply shape_slice; first [exact Hsa | reflexivity]).
  rewrite Hcam in Hcam'. injection Hcam' as <-.
  assert (get cam [0; 0] = Some S754_nan) as Hcam00.
  { rewrite (Hcell 0 0) by lia. f_equal.
    rewrite (fsum_ext 1280 _ (fun _ => S754_nan)); [vm_compute; reflexivity|].
    intros j Hj. unfold channel_weight.
    rewrite (fsum_ext 8 _
               (fun _ => fsum 8 (fun _ => mul S754_nan (S754_zero false)))).
    - rewrite (at_get (slice hot_map32 0) [0; 0; j] pow70_32).
      + vm_compute. reflexivity.
      + rewrite (get_slice hot_map32 4 [8; 8; 1280]) by (reflexivity || lia).
        apply get_full. apply in_bounds_4; lia.
    - intros y Hy. apply fsum_ext. intros x Hx.
      rewrite (at_get (slice alpha 0) [y; x; j] S754_nan).
      + rewrite (at_get (slice zero_guided32 0) [y; x; j] (S754_zero false));
          [reflexivity|].
        rewrite (get_slice zero_guided32 4 [8; 8; 1280]) by (reflexivity || lia).
        apply get_full. apply in_bounds_4; lia.
      + rewrite (get_slice alpha 4 [8; 8; 1280]) by (exact Hsa || lia).
        apply Hnan; assumption. }
  exists cam. split.
  { unfold generate_ponderated_output. rewrite Hrun. reflexivity. }
  split; [exact Hcam00|].
  unfold get in Hcam00.
  destruct (ravel (shape cam) [0; 0]) as [o|]; [|discriminate].
  cbn [mbind option_bind] in Hcam00.
  split; intros Hz.
  - pose proof (Forall_lookup_1 _ _ _ _ Hz Hcam00) as Hbad. discriminate.
  - exact (Forall_lookup_1 _ _ _ _ Hz Hcam00).
Qed.

(** * Further properties of the code *)

(** ** The selector looks at the end of the network only *)

Lemma scan_layers_skip skipped ls :
  Forall (fun l => ~ has_length_4 l) skipped ->
  scan_layers (skipped ++ ls) = scan_layers ls.
Proof.
  induction 1 as [|l sk Hl _ IH]; simpl; [reflexivity|].
  rewrite decide_False by exact Hl. exact IH.
Qed.

Lemma scan_layers_found ls rest :
  Exists has_length_4 ls -> scan_layers (ls ++ rest) = scan_layers ls.
Proof.
  induction ls as [|l ls IH]; intros Hex; [inversion Hex|].
  simpl. destruct (decide (len_output_shape (output_shape l) = 4)) as [H4|H4]; [reflexivity|].
  apply IH. inversion Hex; subst; [contradiction | assumption].
Qed.

(** X1: the selected layer depends only on the network from the last layer
    that passes the test [len(layer.output_shape) == 4] on: layers put in
    front of a network that has such a layer, and layers that do not pass the
    test (a dense head, an input layer) put behind it, do not change what the
    selector returns. *)
Theorem selector_ignores_surrounding_layers (before ls after : list Layer) :
  Exists has_length_4 ls ->
  Forall (fun l => ~ has_length_4 l) after ->
  infer_grad_cam_target_layer {| layers := before ++ ls ++ after |}
  = infer_grad_cam_target_layer {| layers := ls |}.
Proof.
  intros Hex Hafter. unfold infer_grad_cam_target_layer. simpl.
  rewrite !reverse_app, <- app_assoc.
  rewrite scan_layers_skip by (apply Forall_reverse; exact Hafter).
  apply scan_layers_found.
  apply Exists_exists. apply Exists_exists in Hex as (l & Hin & Hl).
  exists l. split; [|exact Hl].
  apply list_elem_of_In, elem_of_reverse, list_elem_of_In, Hin.
Qed.

Lemma selector_ignores_surrounding_layers_witness :
  infer_grad_cam_target_layer
    {| layers := [ {| name := "input";
                      output_shape := shape_list [[None; Some 8; Some 8; Some 3]] |} ]
                 ++ layers toy_model ++ layers dense_model |}
  = infer_grad_cam_target_layer {| layers := layers toy_model |}.
Proof.
  apply (selector_ignores_surrounding_layers _ (layers toy_model)
           (layers dense_model)).
  - apply Exists_cons_hd. reflexivity.
  - repeat constructor; unfold has_length_4; simpl; lia.
Defined.

(** ** Class indices derived from labels *)

Section LabelFacts.
Context {F : Type} `{Scalar F}.

Lemma where_eq1_positions (a : nat) (flat : list F) pos :
  pos ∈ where_eq1 a flat <->
  exists x, a <= pos /\ flat !! (pos - a) = Some x /\ eqb1 x = true.
Proof.
  revert a. induction flat as [|y flat IH]; intros a; simpl.
  - split; [intros Hin; inversion Hin | intros (x & _ & Hx & _); discriminate].
  - assert (pos ∈ where_eq1 (S a) flat <->
            exists x, a < pos /\ flat !! (pos - S a) = Some x /\ eqb1 x = true) as IH'.
    { rewrite IH. split; intros (x & Hle & Hx & H1); exists x; (split; [lia|]);
        split; assumption. }
    destruct (eqb1 y) eqn:Hy.
    + rewrite elem_of_cons, IH'. split.
      * intros [->|(x & Hlt & Hx & H1)].
        -- exists y. rewrite Nat.sub_diag. repeat split; [lia | exact Hy].
        -- exists x. split; [lia|]. split; [|exact H1].
           replace (pos - a) with (S (pos - S a)) by lia. exact Hx.
      * intros (x & Hle & Hx & H1).
        destruct (decide (pos = a)) as [->|Hne]; [left; reflexivity|].
        right. exists x. split; [lia|]. split; [|exact H1].
        replace (pos - a) with (S (pos - S a)) in Hx by lia. exact Hx.
    + rewrite IH'. split.
      * intros (x & Hlt & Hx & H1). exists x. split; [lia|]. split; [|exact H1].
        replace (pos - a) with (S (pos - S a)) by lia. exact Hx.
      * intros (x & Hle & Hx & H1).
        destruct (decide (pos = a)) as [->|Hne].
        -- rewrite Nat.sub_diag in Hx. simpl in Hx. injection Hx as ->. congruence.
        -- exists x. split; [lia|]. split; [|exact H1].
           replace (pos - a) with (S (pos - S a)) in Hx by lia. exact Hx.
Qed.

Lemma length_where_eq1 (a : nat) (flat : list F) :
  length (where_eq1 a flat) = length (filter (fun x => eqb1 x = true) flat).
Proof.
  revert a. induction flat as [|y flat IH]; intros a; simpl; [reflexivity|].
  destruct (eqb1 y) eqn:Hy.
  - rewrite filter_cons_True by exact Hy. simpl. rewrite IH. reflexivity.
  - rewrite filter_cons_False by congruence. apply IH.
Qed.

Lemma where_eq1_increasing (a : nat) (flat : list F) i j p q :
  i < j -> where_eq1 a flat !! i = Some p -> where_eq1 a flat !! j = Some q ->
  p < q.
Proof.
  revert a i j. induction flat as [|y flat IH]; intros a i j Hij Hp Hq;
    simpl in Hp, Hq; [discriminate|].
  destruct (eqb1 y); [|exact (IH (S a) i j Hij Hp Hq)].
  destruct j as [|j]; [lia|]. simpl in Hq. destruct i as [|i].
  - injection Hp as <-.
    apply list_elem_of_lookup_2, where_eq1_positions in Hq as (x & Hle & _). lia.
  - simpl in Hp. exact (IH (S a) i j ltac:(lia) Hp Hq).
Qed.

(** X2: in batch mode there is one class index per label entry equal to 1,
    not one per image: their number is the number of such entries (so a row
    with two 1s gives two class indices, and labels with no exact 1, such as
    soft labels, give none).  With [hits] the flat positions of the entries
    equal to 1, in increasing order, the i-th class index is [hits[i]] minus
    4 * i. *)
Theorem class_indices_follow_the_ones (labels : tensor F) :
  exists hits : list nat,
    (forall pos, pos ∈ hits <->
                 exists x, data labels !! pos = Some x /\ eqb1 x = true) /\
    (forall i j p q, i < j -> hits !! i = Some p -> hits !! j = Some q -> p < q) /\
    length hits = length (filter (fun x => eqb1 x = true) (data labels)) /\
    length (labels_to_class_index labels) = length hits /\
    (forall i pos, hits !! i = Some pos ->
       labels_to_class_index labels !! i
       = Some (Z.of_nat pos - Z.of_nat i * 4)%Z) /\
    (Forall (fun x => eqb1 x = false) (data labels) ->
     labels_to_class_index labels = []).
Proof.
  exists (where_eq1 0 (data labels)). unfold labels_to_class_index.
  split; [|split; [|split; [|split; [|split]]]].
  - intros pos. rewrite where_eq1_positions. rewrite Nat.sub_0_r.
    split; intros (x & Hx); exists x; [tauto | split; [lia | tauto]].
  - intros i j p q. apply where_eq1_increasing.
  - apply length_where_eq1.
  - apply length_imap.
  - intros i pos Hpos. rewrite list_lookup_imap, Hpos. reflexivity.
  - intros Hcold. rewrite where_eq1_cold; [reflexivity|].
    intros k x Hk. exact (Forall_lookup_1 _ _ _ _ Hcold Hk).
Qed.
End LabelFacts.

Lemma class_indices_follow_the_ones_witness :
  (exists hits : list nat,
     (forall pos, pos ∈ hits <->
                  exists x, data tiny_labels !! pos = Some x /\ eqb1 x = true) /\
     (forall i j p q, i < j -> hits !! i = Some p -> hits !! j = Some q -> p < q) /\
     length hits = length (filter (fun x => eqb1 x = true) (data tiny_labels)) /\
     length (labels_to_class_index tiny_labels) = length hits /\
     (forall i pos, hits !! i = Some pos ->
        labels_to_class_index tiny_labels !! i
        = Some (Z.of_nat pos - Z.of_nat i * 4)%Z) /\
     (Forall (fun x => eqb1 x = false) (data tiny_labels) ->
      labels_to_class_index tiny_labels = [])) /\
  labels_to_class_index tiny_labels = [1%Z; 1%Z].
Proof.
  split; [exact (class_indices_follow_the_ones tiny_labels) | reflexivity].
Defined.

(** ** What the extractor hands over *)

Section ExtractorOutput.
Context {F : Type} `{Scalar F}.
Variable run_grad_model : Model -> tensor F -> string -> result (Tape F).

(** the run of the extractor on a tape that answers every query: the loop's
    final lists, and the composer's precondition on them *)
Lemma extractor_hands_over (model : Model) (images : tensor F)
    (layer_name : string) (class_index : list Z) (tape : Tape F) (b h w c : nat) :
  run_grad_model model images layer_name = Ok tape ->
  tape_ok tape class_index ->
  shape (tape_conv_outputs tape) = [b; h; w; c] ->
  exists st,
    extracted tape class_index (length class_index) st /\
    get_gradients_and_filters run_grad_model model images layer_name class_index
    = Ok (tape_conv_outputs tape, second_derivative st, third_derivative st,
          guided_grads st, class_index) /\
    composer_input b h w c (tape_conv_outputs tape) (second_derivative st)
                   (third_derivative st) (guided_grads st) class_index.
Proof.
  intros Hrun Hok Hshape.
  destruct (gradients_loop_extracted tape class_index Hok)
    as (st & Hloop & (L1 & L2 & L3 & L4 & Hcells)).
  exists st. split; [exact (conj L1 (conj L2 (conj L3 (conj L4 Hcells))))|].
  split.
  - unfold get_gradients_and_filters. rewrite Hrun. simpl. rewrite Hloop.
    reflexivity.
  - destruct Hok as (Hwf & Htape).
    assert (forall (l : list (tensor F)) (k : nat),
              length l = length class_index ->
              (forall i ci x, class_index !! i = Some ci -> l !! i = Some x ->
                 (exists g, tape_gradient tape k ci = Ok g /\ 1 <= k <= 3 /\ x = g) \/
                 (exists g1, tape_gradient tape 1 ci = Ok g1 /\
                             guided_grad (tape_conv_outputs tape) g1 = Ok x)) ->
              Forall (fun t => shape t = [b; h; w; c] /\ wf t) l) as Hall.
    { intros l k Hlen Hl. apply Forall_lookup_2. intros i x Hx.
      destruct (lookup_lt_is_Some_2 class_index i) as (ci & Hci).
      { rewrite <- Hlen. eapply lookup_lt_Some. exact Hx. }
      pose proof (list_elem_of_lookup_2 _ _ _ Hci) as Hin.
      destruct (Hl i ci x Hci Hx) as [(g & Hg & Hk & ->)|(g1 & Hg1 & Hgg)].
      - destruct (Htape ci k Hin Hk) as (g' & Hg' & Hs & Hw).
        rewrite Hg in Hg'. injection Hg' as <-. rewrite Hs, Hshape. auto.
      - destruct (Htape ci 1 Hin ltac:(lia)) as (g' & Hg' & Hs & Hw).
        rewrite Hg1 in Hg'. injection Hg' as <-.
        destruct (guided_grad_cells (tape_conv_outputs tape) g1 Hs Hwf Hw)
          as (gg & Hgg' & Hsg & Hwg & _).
        rewrite Hgg in Hgg'. injection Hgg' as <-. rewrite Hsg, Hshape. auto. }
    split; [exact Hshape|]. split; [exact Hwf|].
    split; [lia|]. split; [lia|]. split; [lia|].
    split; [|split].
    + apply (Hall _ 2); [lia|]. intros i ci x Hci Hx.
      destruct (Hcells i ci (lookup_lt_Some _ _ _ Hci) Hci)
        as (g1 & g2 & g3 & gg & _ & Hg2 & _ & _ & _ & Hl2 & _ & _).
      left. exists g2. split; [exact Hg2|]. split; [lia | congruence].
    + apply (Hall _ 3); [lia|]. intros i ci x Hci Hx.
      destruct (Hcells i ci (lookup_lt_Some _ _ _ Hci) Hci)
        as (g1 & g2 & g3 & gg & _ & _ & Hg3 & _ & _ & _ & Hl3 & _).
      left. exists g3. split; [exact Hg3|]. split; [lia | congruence].
    + apply (Hall _ 1); [lia|]. intros i ci x Hci Hx.
      destruct (Hcells i ci (lookup_lt_Some _ _ _ Hci) Hci)
        as (g1 & g2 & g3 & gg & Hg1 & _ & _ & Hgg & _ & _ & _ & Hl4).
      right. exists g1. split; [exact Hg1|]. congruence.
Qed.

(** X3: the extractor returns the feature map, the class indices unchanged,
    and three lists aligned with the class indices: at position i the second
    and the third derivative the engine gives for class [class_index[i]], and
    the guided gradient of that class.  All of them have the feature map's
    shape, so the result is an input the composer accepts. *)
Theorem extractor_output_aligned (model : Model) (images : tensor F)
    (layer_name : string) (class_index : list Z) (tape : Tape F) (b h w c : nat) :
  run_grad_model model images layer_name = Ok tape ->
  tape_ok tape class_index ->
  shape (tape_conv_outputs tape) = [b; h; w; c] ->
  exists seconds thirds guided,
    get_gradients_and_filters run_grad_model model images layer_name class_index
    = Ok (tape_conv_outputs tape, seconds, thirds, guided, class_index) /\
    composer_input b h w c (tape_conv_outputs tape) seconds thirds guided
                   class_index /\
    forall i ci, class_index !! i = Some ci ->
      exists g1 g2 g3 gg,
        tape_gradient tape 1 ci = Ok g1 /\
        tape_gradient tape 2 ci = Ok g2 /\ seconds !! i = Some g2 /\
        tape_gradient tape 3 ci = Ok g3 /\ thirds !! i = Some g3 /\
        guided_grad (tape_conv_outputs tape) g1 = Ok gg /\ guided !! i = Some gg.
Proof.
  intros Hrun Hok Hshape.
  destruct (extractor_hands_over model images layer_name class_index tape b h w c
              Hrun Hok Hshape) as (st & (_ & _ & _ & _ & Hcells) & Hget & Hin).
  exists (second_derivative st), (third_derivative st), (guided_grads st).
  split; [exact Hget|]. split; [exact Hin|].
  intros i ci Hci.
  destruct (Hcells i ci (lookup_lt_Some _ _ _ Hci) Hci)
    as (g1 & g2 & g3 & gg & Hg1 & Hg2 & Hg3 & Hgg & _ & Hl2 & Hl3 & Hl4).
  exists g1, g2, g3, gg. repeat split; assumption.
Qed.
End ExtractorOutput.

Lemma extractor_output_aligned_witness :
  exists seconds thirds guided,
    get_gradients_and_filters toy_engine toy_model tiny_images "conv2" [0%Z]
    = Ok (tape_conv_outputs toy_tape, seconds, thirds, guided, [0%Z]) /\
    composer_input 1 1 1 2 (tape_conv_outputs toy_tape) seconds thirds guided [0%Z].
Proof.
  destruct (extractor_output_aligned toy_engine toy_model tiny_images "conv2"
              [0%Z] toy_tape 1 1 1 2 eq_refl toy_tape_ok eq_refl)
    as (seconds & thirds & guided & Hrun & Hin & _).
  exists seconds, thirds, guided. split; assumption.
Defined.

(** ** A failing gradient query *)

Lemma for_range_raise {St} (P : nat -> St -> Prop) n k
    (body : nat -> St -> result St) st e :
  k < n -> P 0 st ->
  (forall i s, i < k -> P i s -> exists s', body i s = Ok s' /\ P (S i) s') ->
  (forall s, P k s -> body k s = Raise e) ->
  for_range n body st = Raise e.
Proof.
  intros Hk H0 Hstep Hfail.
  destruct (for_range_inv P k body st H0 Hstep) as (s' & Hrun & HP).
  unfold for_range in *. replace n with (k + S (n - S k)) by lia.
  rewrite seq_app, for_each_app, Hrun. simpl. rewrite (Hfail s' HP). reflexivity.
Qed.

Section ExtractorFailure.
Context {F : Type} `{Scalar F}.
Variable run_grad_model : Model -> tensor F -> string -> result (Tape F).

Lemma gradients_step_extracted_at (tape : Tape F) (class_index : list Z) i c st :
  wf (tape_conv_outputs tape) ->
  class_index !! i = Some c ->
  (forall k, 1 <= k <= 3 ->
     exists g, tape_gradient tape k c = Ok g /\
               shape g = shape (tape_conv_outputs tape) /\ wf g) ->
  extracted tape class_index i st ->
  exists st', gradients_step tape class_index i st = Ok st' /\
              extracted tape class_index (S i) st'.
Proof.
  intros Hwf Hc Htape (L1 & L2 & L3 & L4 & Hcells).
  destruct (Htape 1 ltac:(lia)) as (g1 & Hg1 & Hs1 & Hw1).
  destruct (Htape 2 ltac:(lia)) as (g2 & Hg2 & _ & _).
  destruct (Htape 3 ltac:(lia)) as (g3 & Hg3 & _ & _).
  destruct (guided_grad_cells (tape_conv_outputs tape) g1 Hs1 Hwf Hw1)
    as (gg & Hgg & _).
  unfold gradients_step, list_get. rewrite Hc. simpl.
  rewrite Hg1. simpl. rewrite Hg2. simpl. rewrite Hg3. simpl.
  rewrite lookup_app_r by lia. rewrite L1, Nat.sub_diag. simpl.
  rewrite Hgg. simpl. eexists. split; [reflexivity|].
  unfold extracted. simpl. rewrite !length_app. simpl.
  repeat (split; [lia|]).
  intros j cj Hj Hcj. destruct (decide (j = i)) as [->|Hne].
  - rewrite Hc in Hcj. injection Hcj as <-.
    exists g1, g2, g3, gg. repeat (split; [assumption|]).
    rewrite !lookup_app_r by lia. rewrite L1, L2, L3, L4, Nat.sub_diag.
    repeat split; reflexivity.
  - destruct (Hcells j cj ltac:(lia) Hcj)
      as (h1 & h2 & h3 & hg & ? & ? & ? & ? & ? & ? & ? & ?).
    exists h1, h2, h3, hg. repeat (split; [assumption|]).
    rewrite !lookup_app_l by lia. repeat split; assumption.
Qed.

(** X4: the extractor stops at the first gradient query that raises: when
    the engine answers for the classes before position i and, for the class
    at position i, raises [e] at derivative order k (after answering the
    lower orders), the extractor raises [e] and returns nothing. *)
Theorem extractor_first_failure (model : Model) (images : tensor F)
    (layer_name : string) (class_index : list Z) (tape : Tape F)
    (i : nat) (c : Z) (k : nat) (e : exception) :
  run_grad_model model images layer_name = Ok tape ->
  wf (tape_conv_outputs tape) ->
  (forall j cj kj, j < i -> class_index !! j = Some cj -> 1 <= kj <= 3 ->
     exists g, tape_gradient tape kj cj = Ok g /\
               shape g = shape (tape_conv_outputs tape) /\ wf g) ->
  class_index !! i = Some c ->
  1 <= k <= 3 ->
  (forall k', 1 <= k' < k -> exists g, tape_gradient tape k' c = Ok g) ->
  tape_gradient tape k c = Raise e ->
  get_gradients_and_filters run_grad_model model images layer_name class_index
  = Raise e.
Proof.
  intros Hrun Hwf Hbefore Hc Hk Hlow Hfail.
  unfold get_gradients_and_filters. rewrite Hrun. simpl.
  unfold gradients_loop.
  rewrite (for_range_raise (extracted tape class_index) (length class_index) i
             (gradients_step tape class_index) _ e); [reflexivity | | | |].
  - eapply lookup_lt_Some. exact Hc.
  - repeat split; try reflexivity. intros j cj Hj. lia.
  - intros j s Hj Hs.
    destruct (lookup_lt_is_Some_2 class_index j) as (cj & Hcj).
    { pose proof (lookup_lt_Some _ _ _ Hc). lia. }
    apply (gradients_step_extracted_at tape class_index j cj s Hwf Hcj);
      [|exact Hs].
    intros kj Hkj. apply (Hbefore j cj kj Hj Hcj Hkj).
  - intros s _. unfold gradients_step, list_get. rewrite Hc. simpl.
    assert (k = 1 \/ k = 2 \/ k = 3) as [->|[->| ->]] by lia.
    + rewrite Hfail. reflexivity.
    + destruct (Hlow 1 ltac:(lia)) as (g1 & ->). simpl.
      rewrite Hfail. reflexivity.
    + destruct (Hlow 1 ltac:(lia)) as (g1 & ->). simpl.
      destruct (Hlow 2 ltac:(lia)) as (g2 & ->). simpl.
      rewrite Hfail. reflexivity.
Qed.
End ExtractorFailure.

Lemma extractor_first_failure_witness :
  get_gradients_and_filters five_class_engine toy_model tiny_images "conv2"
                            [0%Z; 7%Z; 1%Z]
  = Raise (InvalidArgumentError "StridedSlice").
Proof.
  apply (extractor_first_failure five_class_engine toy_model tiny_images "conv2"
           [0%Z; 7%Z; 1%Z] five_class_tape 1 7%Z 1).
  - reflexivity.
  - reflexivity.
  - intros j cj kj Hj Hcj _. destruct j as [|j]; [|lia].
    simpl in Hcj. injection Hcj as <-.
    eexists. split; [reflexivity|]. split; reflexivity.
  - reflexivity.
  - lia.
  - intros k' Hk'. lia.
  - reflexivity.
Defined.

(** ** Tensors are determined by their cells *)

Lemma ravel_surj s o : o < numel s -> exists idx, ravel s idx = Some o.
Proof.
  revert o. induction s as [|n s IH]; intros o Ho.
  - exists []. simpl in *. f_equal. lia.
  - change (numel (n :: s)) with (n * numel s) in Ho.
    assert (0 < numel s) as Hpos by nia.
    destruct (IH (o mod numel s)) as (idx & Hidx).
    { apply Nat.mod_upper_bound. lia. }
    exists (o / numel s :: idx). simpl.
    rewrite decide_True by (apply Nat.Div0.div_lt_upper_bound; lia).
    rewrite Hidx. simpl. f_equal.
    pose proof (Nat.div_mod_eq o (numel s)). lia.
Qed.

Lemma tensor_ext {A} (t1 t2 : tensor A) :
  shape t1 = shape t2 -> wf t1 -> wf t2 ->
  (forall idx, get t1 idx = get t2 idx) -> t1 = t2.
Proof.
  destruct t1 as [s1 d1], t2 as [s2 d2]. unfold wf, get. simpl.
  intros <- Hw1 Hw2 Hget. f_equal. apply list_eq. intros o.
  destruct (decide (o < numel s1)) as [Ho|Ho].
  - destruct (ravel_surj s1 o Ho) as (idx & Hidx).
    specialize (Hget idx). rewrite Hidx in Hget. exact Hget.
  - rewrite !lookup_ge_None_2 by lia. reflexivity.
Qed.

Section GuidedIdempotent.
Context {F : Type} `{ExactArith F}.

(** X5: guiding is idempotent: the guided gradient of a guided gradient
    (against the same feature map) is that guided gradient (scalars with the
    laws of exact arithmetic). *)
Theorem guided_grad_idempotent (conv g : tensor F) :
  shape g = shape conv -> wf conv -> wf g ->
  exists gg, guided_grad conv g = Ok gg /\ guided_grad conv gg = Ok gg.
Proof.
  intros Hs Hwc Hwg.
  destruct (guided_grad_cells conv g Hs Hwc Hwg) as (gg & Hgg & Hsg & Hwgg & Hcells).
  destruct (guided_grad_cells conv gg Hsg Hwc Hwgg)
    as (gg2 & Hgg2 & Hsg2 & Hwgg2 & Hcells2).
  exists gg. split; [exact Hgg|]. rewrite Hgg2. f_equal.
  apply tensor_ext; [congruence | assumption | assumption |].
  intros idx. unfold get at 1 2. rewrite Hsg2, Hsg.
  destruct (ravel (shape conv) idx) as [o|] eqn:Hr; [|reflexivity].
  assert (Forall2 lt idx (shape conv)) as Hb by (eapply ravel_Some_inv; exact Hr).
  destruct (get_wf_is_Some conv idx Hwc Hb) as (x & Hx).
  destruct (get_wf_is_Some g idx Hwg ltac:(rewrite Hs; exact Hb)) as (d & Hd).
  pose proof (Hcells idx x d Hx Hd) as Hv.
  pose proof (Hcells2 idx x _ Hx Hv) as Hv2.
  unfold get in Hv, Hv2. rewrite Hsg, Hr in Hv. rewrite Hsg2, Hr in Hv2.
  simpl in *. rewrite Hv, Hv2. f_equal.
  destruct (gtb0 x) eqn:Hx0; destruct (gtb0 d) eqn:Hd0;
    rewrite ?mul_one_l, ?mul_zero_l, ?mul_zero_r, ?Hd0, ?mul_one_l, ?mul_zero_l,
            ?mul_zero_r; reflexivity.
Qed.
End GuidedIdempotent.

Lemma guided_grad_idempotent_witness :
  exists gg, guided_grad (tape_conv_outputs toy_tape)
                         (Tensor [1; 1; 1; 2] [Q2Qc 3; Q2Qc 5]) = Ok gg /\
             guided_grad (tape_conv_outputs toy_tape) gg = Ok gg.
Proof.
  apply (guided_grad_idempotent (tape_conv_outputs toy_tape)
           (Tensor [1; 1; 1; 2] [Q2Qc 3; Q2Qc 5])); reflexivity.
Defined.

(** ** The ponderated sum *)

Section PonderateFormula.
Context {F : Type} `{Scalar F}.

(** X6: for a feature map, an alpha and a guided gradient of one shape
    (h, w, c), [ponderate_output] returns a well-formed (h, w) map whose
    value at (y, x) is the sum over the channels j of weight_j times
    output[y, x, j], weight_j being the mean over height and width of
    alpha * grad in channel j. *)
Theorem ponderate_output_formula (output alpha grad : tensor F) (h w c : nat) :
  shape output = [h; w; c] -> shape alpha = [h; w; c] -> shape grad = [h; w; c] ->
  exists cam, ponderate_output output alpha grad = Ok cam /\
    shape cam = [h; w] /\ wf cam /\
    forall y x, y < h -> x < w ->
      get cam [y; x]
      = Some (fsum c (fun j =>
                mul (div (fsum h (fun y' => fsum w (fun x' =>
                            mul (at_ alpha [y'; x'; j]) (at_ grad [y'; x'; j]))))
                         (of_nat (h * w)))
                    (at_ output [y; x; j]))).
Proof.
  intros Hso Hsa Hsg.
  destruct (ponderate_output_spec output alpha grad h w c Hso Hsa Hsg)
    as (cam & Hcam & Hsc & Hwc & _ & Hcells).
  exists cam. repeat (split; [assumption|]). exact Hcells.
Qed.
End PonderateFormula.

Lemma ponderate_output_formula_witness :
  exists cam, ponderate_output (two_channels 1 1) (two_channels 1 1)
                               (two_channels 1 1) = Ok cam /\
              shape cam = [1; 1] /\ wf cam.
Proof.
  destruct (ponderate_output_formula (two_channels 1 1) (two_channels 1 1)
              (two_channels 1 1) 1 1 2 eq_refl eq_refl eq_refl)
    as (cam & Hcam & Hs & Hw & _).
  exists cam. repeat split; assumption.
Defined.

Section PonderateZero.
Context {F : Type} `{ExactArith F}.

(** X7: an image whose feature map is zero everywhere gets a CAM that is
    zero everywhere, whatever alpha and the guided gradient are (scalars with
    the laws of exact arithmetic). *)
Theorem zero_feature_map_zero_cam (output alpha grad : tensor F) (h w c : nat) :
  shape output = [h; w; c] -> shape alpha = [h; w; c] -> shape grad = [h; w; c] ->
  all_zero output ->
  exists cam, ponderate_output output alpha grad = Ok cam /\
              shape cam = [h; w] /\ all_zero cam.
Proof.
  intros Hso Hsa Hsg Hz.
  destruct (ponderate_output_spec output alpha grad h w c Hso Hsa Hsg)
    as (cam & Hcam & Hsc & _ & (g & Hg) & Hcells).
  exists cam. split; [exact Hcam|]. split; [exact Hsc|].
  unfold all_zero. rewrite Hg. unfold build. cbn [data].
  rewrite (tabulate_ext [h; w] g (fun _ => zero)).
  - rewrite tabulate_const. apply Forall_replicate. reflexivity.
  - intros idx Hidx.
    inversion Hidx as [|y h' idx1 s1 Hy Hidx1]; subst.
    inversion Hidx1 as [|x w' idx2 s2 Hx Hidx2]; subst.
    inversion Hidx2; subst.
    pose proof (Hcells y x Hy Hx) as Hcell.
    rewrite get_build_at in Hcell by (repeat constructor; assumption).
    injection Hcell as ->.
    rewrite (fsum_ext c _ (fun _ => zero)); [apply fsum_zero|].
    intros j _. rewrite (at_all_zero output _ Hz). apply mul_zero_r.
Qed.
End PonderateZero.

Lemma zero_feature_map_zero_cam_witness :
  exists cam, ponderate_output (two_channels 0 0) (two_channels 1 1)
                               (two_channels 1 1) = Ok cam /\
              shape cam = [1; 1] /\ all_zero cam.
Proof.
  apply (zero_feature_map_zero_cam (two_channels 0 0) (two_channels 1 1)
           (two_channels 1 1) 1 1 2); try reflexivity.
  repeat constructor.
Defined.

(** ** How many CAMs, and of what shape *)

Lemma length_omap_filter (class_index : list Z) {A} (per : list (option A)) :
  length per = length class_index ->
  (forall i ci, class_index !! i = Some ci ->
     exists pc, per !! i = Some pc /\ (is_Some pc <-> (0 <= ci < 4)%Z)) ->
  length (omap id per) = length (filter (fun ci => (0 <= ci < 4)%Z) class_index).
Proof.
  revert per. induction class_index as [|ci cis IH]; intros per Hlen Hall.
  - destruct per; [reflexivity | discriminate].
  - destruct per as [|p per]; [discriminate|].
    destruct (Hall 0 ci eq_refl) as (pc & Hpc & Hiff). simpl in Hpc.
    injection Hpc as <-.
    assert (length (omap id per)
            = length (filter (fun ci => (0 <= ci < 4)%Z) cis)) as Hrest.
    { apply IH; [simpl in Hlen; lia|]. intros i c Hc. apply (Hall (S i) c Hc). }
    destruct p as [x|].
    + change (omap id (Some x :: per)) with (x :: omap id per).
      rewrite filter_cons_True by (apply Hiff; eexists; reflexivity).
      simpl. rewrite Hrest. reflexivity.
    + change (omap id (None :: per)) with (omap id per).
      rewrite filter_cons_False; [exact Hrest|].
      intros Hin. apply Hiff in Hin as (x & Hx). discriminate.
Qed.

Section CamsReturned.
Context {F : Type} `{Scalar F}.

(** the CAMs of a returning composer: their number and their shape *)
Lemma cams_count (b h w c : nat) (outputs : tensor F)
    (seconds thirds grads : list (tensor F)) (class_index : list Z) maps :
  composer_input b h w c outputs seconds thirds grads class_index ->
  generate_ponderated_output outputs seconds thirds grads class_index = Ok maps ->
  length maps = length (filter (fun ci => (0 <= ci < 4)%Z) class_index) /\
  Forall (fun cam => shape cam = [8; 8] /\ wf cam) maps.
Proof.
  intros Hin Hrun. unfold generate_ponderated_output in Hrun.
  destruct (generate_ponderated_output_state outputs seconds thirds grads
              class_index) as [[maps' alphas]|e] eqn:Hst; [|discriminate].
  simpl in Hrun. injection Hrun as ->.
  destruct (state_class_results b h w c outputs seconds thirds grads class_index
              maps alphas Hin Hst) as (per & Hmaps & Lp & Hdims & Hcls).
  pose proof Hin as (Hso & _ & _ & _ & Lc & _ & _ & Fg).
  assert (forall i ci, class_index !! i = Some ci ->
            exists pc, per !! i = Some pc /\
              (is_Some pc <-> (0 <= ci < 4)%Z) /\
              forall cam, pc = Some cam -> shape cam = [8; 8] /\ wf cam) as Hper.
  { intros i ci Hci.
    destruct (lookup_lt_is_Some_2 grads i) as (grad & Hgr).
    { rewrite <- Lc. eapply lookup_lt_Some. exact Hci. }
    destruct (Hcls i grad ci Hgr Hci) as (alpha & pc & _ & Hsa & Hp & Hr).
    destruct Hdims as (-> & -> & -> & ->).
    { intros Hnil. rewrite Hnil in Hgr. discriminate. }
    destruct (Forall_lookup_1 _ _ _ _ Fg Hgr) as (Hsg & _).
    rewrite Hso in Hsa. exists pc. split; [exact Hp|].
    unfold class_result in Hr.
    destruct (decide (0 <= ci < Z.of_nat 4)%Z) as [Hin4|Hout].
    - destruct Hr as (cam & -> & Hcam). split.
      + split; [intros _; lia | intros _; eexists; reflexivity].
      + intros cam' [= <-].
        destruct (ponderate_output_spec (slice outputs (Z.to_nat ci))
                    (slice alpha (Z.to_nat ci)) (slice grad (Z.to_nat ci)) 8 8 1280)
          as (cam' & Hcam' & Hsc & Hwc & _); try (eapply shape_slice; eassumption).
        rewrite Hcam in Hcam'. injection Hcam' as <-. split; assumption.
    - subst pc. split.
      + split; [intros (x & Hx); discriminate | intros Hyes; lia].
      + intros cam Hcam. discriminate. }
  split.
  - rewrite Hmaps. apply length_omap_filter; [exact Lp|].
    intros i ci Hci. destruct (Hper i ci Hci) as (pc & Hp & Hiff & _).
    exists pc. split; assumption.
  - rewrite Hmaps. apply Forall_forall. intros cam Hcam.
    apply list_elem_of_In, list_elem_of_omap in Hcam as (pc & Hpc & Hid).
    unfold id in Hid. subst pc.
    apply list_elem_of_lookup_1 in Hpc as (i & Hi).
    destruct (lookup_lt_is_Some_2 class_index i) as (ci & Hci).
    { rewrite <- Lp. eapply lookup_lt_Some. exact Hi. }
    destruct (Hper i ci Hci) as (pc & Hp & _ & Hshape).
    rewrite Hi in Hp. injection Hp as <-. apply Hshape. reflexivity.
Qed.

(** X8: whenever the composer returns, it returns one CAM for each class
    index whose value is a batch position (0..3) and none for the others, so
    never more CAMs than class indices; every CAM is a well-formed (8, 8)
    map.  On a feature map of shape (4, 8, 8, 1280) it does return, and with
    all class values in 0..3 there is one CAM per class index. *)
Theorem cams_returned (b h w c : nat) (outputs : tensor F)
    (seconds thirds grads : list (tensor F)) (class_index : list Z) :
  composer_input b h w c outputs seconds thirds grads class_index ->
  (shape outputs = [4; 8; 8; 1280] ->
   exists maps,
     generate_ponderated_output outputs seconds thirds grads class_index = Ok maps) /\
  forall maps,
    generate_ponderated_output outputs seconds thirds grads class_index = Ok maps ->
    length maps = length (filter (fun ci => (0 <= ci < 4)%Z) class_index) /\
    length maps <= length class_index /\
    (Forall (fun ci => (0 <= ci < 4)%Z) class_index ->
     length maps = length class_index) /\
    Forall (fun cam => shape cam = [8; 8] /\ wf cam) maps.
Proof.
  intros Hin. split.
  { intros Hs. pose proof Hin as (Hso & _). rewrite Hso in Hs.
    injection Hs as -> -> -> ->.
    destruct (state_total 4 8 8 1280 outputs seconds thirds grads class_index Hin
                eq_refl eq_refl eq_refl eq_refl) as (maps & alphas & Hrun).
    exists maps. unfold generate_ponderated_output. rewrite Hrun. reflexivity. }
  intros maps Hrun.
  destruct (cams_count b h w c outputs seconds thirds grads class_index maps
              Hin Hrun) as (Hcount & Hshapes).
  split; [exact Hcount|]. split; [|split; [|exact Hshapes]].
  - rewrite Hcount. apply length_filter.
  - intros Hall. rewrite Hcount. f_equal.
    clear -Hall. induction Hall as [|ci cis Hci _ IH]; [reflexivity|].
    rewrite filter_cons_True by exact Hci. f_equal. exact IH.
Qed.
End CamsReturned.

Lemma cams_returned_witness :
  exists maps,
    generate_ponderated_output (big_const 1%Qc)
      ((fun _ => big_const 1%Qc) <$> [3; 9; 0]%Z)
      ((fun _ => big_const 1%Qc) <$> [3; 9; 0]%Z)
      ((fun _ => big_const 1%Qc) <$> [3; 9; 0]%Z) [3; 9; 0]%Z = Ok maps /\
    length maps = 2.
Proof.
  destruct (cams_returned 4 8 8 1280 (big_const 1%Qc) _ _ _ _
              (big_const_input 1%Qc [3; 9; 0]%Z)) as (Htotal & Hall).
  destruct (Htotal eq_refl) as (maps & Hrun).
  exists maps. split; [exact Hrun|].
  destruct (Hall maps Hrun) as (Hcount & _). rewrite Hcount. reflexivity.
Defined.

(** ** The scaling loops and the bounds of [sum1] *)

Lemma for_each_Raise_inv {A St} (P : St -> Prop) (xs : list A)
    (body : A -> St -> result St) st e :
  (forall x s s', P s -> body x s = Ok s' -> P s') ->
  P st -> for_each xs body st = Raise e ->
  exists x s, x ∈ xs /\ P s /\ body x s = Raise e.
Proof.
  intros Hpres. revert st. induction xs as [|x xs IH]; intros st HP Hrun;
    simpl in Hrun; [discriminate|].
  destruct (body x st) as [s1|e1] eqn:Hb; simpl in Hrun.
  - destruct (IH s1 (Hpres _ _ _ HP Hb) Hrun) as (y & s & Hy & Hs & Hbody).
    exists y, s. split; [apply elem_of_cons; right; exact Hy|]. split; assumption.
  - injection Hrun as ->. exists x, st.
    split; [apply elem_of_cons; left; reflexivity|]. split; assumption.
Qed.

Section ScalingBounds.
Context {F : Type} `{Scalar F}.

Lemma scale_cell_raise (sum1 : tensor F) m j k g e :
  scale_cell sum1 m j k g = Raise e -> e = IndexError "index out of bounds".
Proof.
  unfold scale_cell, np_getitem, np_setitem.
  destruct (get sum1 [m; j]); simpl; [|intros [= <-]; reflexivity].
  destruct (get g [m; k; j]); simpl; [|intros [= <-]; reflexivity].
  destruct (ravel (shape g) [m; k; j]); [|intros [= <-]; reflexivity].
  destruct (decide _); [discriminate | intros [= <-]; reflexivity].
Qed.

(** the loops raise nothing but the index error *)
Lemma scale_grey_raise (sum1 grey : tensor F) d0 d1 d2 e :
  shape grey = [d0; d1; d2] ->
  scale_grey sum1 grey = Raise e -> e = IndexError "index out of bounds".
Proof.
  intros Hs Hrun.
  set (P := fun g : tensor F => shape g = [d0; d1; d2]).
  assert (forall m j k s s', P s -> scale_cell sum1 m j k s = Ok s' -> P s') as Hcell.
  { intros m j k s s' HP Hb. unfold P. rewrite (scale_cell_shape _ _ _ _ _ _ Hb).
    exact HP. }
  assert (forall m j s, P s ->
            (forall s', (d1' ← shape_at s 1;
               for_range d1' (fun k grey => scale_cell sum1 m j k grey) s) = Ok s' ->
               P s') /\
            ((d1' ← shape_at s 1;
               for_range d1' (fun k grey => scale_cell sum1 m j k grey) s) = Raise e ->
             e = IndexError "index out of bounds")) as Hk.
  { intros m j s HP. unfold shape_at. rewrite HP. simpl. split.
    - intros s' Hb.
      exact (proj1 (for_each_Ok_inv P (seq 0 d1) _ s s' (Hcell m j) HP Hb)).
    - intros Hb.
      destruct (for_each_Raise_inv P (seq 0 d1) _ s e (Hcell m j) HP Hb)
        as (k & s0 & _ & _ & Hbody).
      eapply scale_cell_raise. exact Hbody. }
  assert (forall m s, P s ->
            (forall s', (d2' ← shape_at s 2;
               for_range d2' (fun j grey =>
                 d1' ← shape_at grey 1;
                 for_range d1' (fun k grey => scale_cell sum1 m j k grey) grey) s)
               = Ok s' -> P s') /\
            ((d2' ← shape_at s 2;
               for_range d2' (fun j grey =>
                 d1' ← shape_at grey 1;
                 for_range d1' (fun k grey => scale_cell sum1 m j k grey) grey) s)
             = Raise e -> e = IndexError "index out of bounds")) as Hj.
  { intros m s HP. split; unfold shape_at; rewrite HP; simpl.
    - intros s' Hb.
      exact (proj1 (for_each_Ok_inv P (seq 0 d2) _ s s'
                      (fun x a a' Ha Hx => proj1 (Hk m x a Ha) a' Hx) HP Hb)).
    - intros Hb.
      destruct (for_each_Raise_inv P (seq 0 d2) _ s e
                  (fun x a a' Ha Hx => proj1 (Hk m x a Ha) a' Hx) HP Hb)
        as (j & s0 & _ & HP0 & Hbody).
      exact (proj2 (Hk m j s0 HP0) Hbody). }
  unfold scale_grey, shape_at in Hrun. rewrite Hs in Hrun. simpl in Hrun.
  destruct (for_each_Raise_inv P (seq 0 d0) _ grey e
              (fun x a a' Ha Hx => proj1 (Hj x a Ha) a' Hx) Hs Hrun)
    as (m & s0 & _ & HP0 & Hbody).
  exact (proj2 (Hj m s0 HP0) Hbody).
Qed.

(** a loop whose body gives the state back unchanged *)
Lemma for_range_unchanged {St} n (body : nat -> St -> result St) st :
  (forall i, i < n -> body i st = Ok st) -> for_range n body st = Ok st.
Proof.
  intros Hbody.
  destruct (for_range_inv (fun _ s => s = st) n body st eq_refl)
    as (s' & Hrun & ->); [|exact Hrun].
  intros i s Hi ->. exists st. split; [apply Hbody; exact Hi | reflexivity].
Qed.

(** X9: the three in-place loops over a well-formed [grey] of shape
    (d0, d1, d2) return exactly when [grey] has no cell (one of d0, d1, d2 is
    0, and [grey] comes back as it was) or the matrix [sum1] has at least d0
    rows and d2 columns; they then leave in every cell [m, k, j] its first
    value multiplied once by [sum1[m, j]], in a tensor of the same shape.
    Otherwise they raise the index error, and nothing else. *)
Theorem scale_grey_bounds (sum1 grey : tensor F) (rows cols d0 d1 d2 : nat) :
  shape sum1 = [rows; cols] -> wf sum1 ->
  shape grey = [d0; d1; d2] -> wf grey ->
  (d0 = 0 \/ d1 = 0 \/ d2 = 0 -> scale_grey sum1 grey = Ok grey) /\
  (d0 <= rows /\ d2 <= cols ->
   exists g', scale_grey sum1 grey = Ok g' /\
     shape g' = [d0; d1; d2] /\ wf g' /\
     forall m k j v, get grey [m; k; j] = Some v ->
       exists s, get sum1 [m; j] = Some s /\ get g' [m; k; j] = Some (mul s v)) /\
  (0 < d0 -> 0 < d1 -> 0 < d2 -> ~ (d0 <= rows /\ d2 <= cols) ->
   scale_grey sum1 grey = Raise (IndexError "index out of bounds")).
Proof.
  intros Hss Hws Hsg Hwg. split; [|split].
  - intros Hempty. unfold scale_grey, shape_at. rewrite Hsg.
    cbn [lookup list_lookup from_option mbind result_bind].
    apply for_range_unchanged. intros m Hm. rewrite Hsg.
    cbn [lookup list_lookup from_option mbind result_bind].
    apply for_range_unchanged. intros j Hj. rewrite Hsg.
    cbn [lookup list_lookup from_option mbind result_bind].
    apply for_range_unchanged. intros k Hk. exfalso. lia.
  - intros (Hr & Hc).
    assert (forall m j, m < d0 -> j < d2 -> get sum1 [m; j] = Some (at_ sum1 [m; j]))
      as Hcells.
    { intros m j Hm Hj. apply get_at; [exact Hws|]. rewrite Hss.
      repeat constructor; lia. }
    destruct (scale_grey_spec sum1 grey (fun m j => at_ sum1 [m; j]) d0 d1 d2
                Hsg Hwg Hcells) as (g' & Hrun & Hs' & Hw' & Hall).
    exists g'. repeat (split; [assumption|]).
    intros m k j v Hv. exists (at_ sum1 [m; j]). split; [|apply Hall; exact Hv].
    pose proof (get_Some_bounds _ _ _ Hv) as Hb. rewrite Hsg in Hb.
    inversion Hb as [|? ? ? ? Hm Hb1]; subst.
    inversion Hb1 as [|? ? ? ? Hk Hb2]; subst.
    inversion Hb2 as [|? ? ? ? Hj _]; subst.
    apply Hcells; assumption.
  - intros H0 H1 H2 Hno. destruct (scale_grey sum1 grey) as [g'|e] eqn:Hrun.
    + exfalso. apply Hno.
      destruct (scale_grey_Ok_inv sum1 grey g' d0 d1 d2 Hsg H1 Hrun
                  (d0 - 1) (d2 - 1) ltac:(lia) ltac:(lia)) as (v & Hv).
      apply get_Some_bounds in Hv. rewrite Hss in Hv.
      inversion Hv as [|? ? ? ? Hm Hv1]; subst.
      inversion Hv1 as [|? ? ? ? Hj _]; subst. lia.
    + f_equal. eapply scale_grey_raise; eassumption.
Qed.
End ScalingBounds.

Lemma scale_grey_bounds_witness :
  (exists g', scale_grey (Tensor [1; 1] [Q2Qc 2]) (Tensor [1; 2; 1] [Q2Qc 3; Q2Qc 5])
              = Ok g') /\
  scale_grey (Tensor [1; 1] [Q2Qc 2]) (Tensor [2; 1; 1] [Q2Qc 3; Q2Qc 5])
  = Raise (IndexError "index out of bounds") /\
  scale_grey (Tensor [1; 1] [Q2Qc 2]) (Tensor [2; 0; 1] [])
  = Ok (Tensor [2; 0; 1] []).
Proof.
  split; [|split].
  - destruct (scale_grey_bounds (Tensor [1; 1] [Q2Qc 2])
                (Tensor [1; 2; 1] [Q2Qc 3; Q2Qc 5]) 1 1 1 2 1
                eq_refl eq_refl eq_refl eq_refl)
      as (_ & Hok & _).
    destruct (Hok ltac:(lia)) as (g' & Hrun & _). exists g'. exact Hrun.
  - apply (scale_grey_bounds (Tensor [1; 1] [Q2Qc 2])
             (Tensor [2; 1; 1] [Q2Qc 3; Q2Qc 5]) 1 1 2 1 1
             eq_refl eq_refl eq_refl eq_refl); lia.
  - apply (scale_grey_bounds (Tensor [1; 1] [Q2Qc 2])
             (Tensor [2; 0; 1] []) 1 1 2 0 1
             eq_refl eq_refl eq_refl eq_refl). lia.
Defined.

(** ** How the composer fails on a feature map of another layout *)

Section ComposerErrors.
Context {F : Type} `{Scalar F}.
Variables (d0 h0 w0 c0 b h w c : nat) (outputs : tensor F).
Variables (seconds thirds grads : list (tensor F)) (class_index : list Z).
Hypothesis input_ok : composer_input b h w c outputs seconds thirds grads class_index.
Hypothesis some_class : grads <> [].
Hypothesis same_count : numel [b; h; w; c] = numel [d0; h0 * w0; c0].

(** too few images or channels: the first class stops in the scaling loops *)
Lemma composer_loop_index_error :
  0 < d0 -> 0 < h0 * w0 -> 0 < c0 ->
  b < d0 \/ c < c0 ->
  composer_loop [d0; h0 * w0; c0] [d0; h0; w0; c0] outputs seconds thirds grads
                class_index
  = Raise (IndexError "index out of bounds").
Proof.
  intros Hd0 Hhw Hc0 Hsmall.
  destruct (first_class b h w c outputs seconds thirds grads class_index
              input_ok some_class)
    as (n & second & third & Hn & H2 & H3 & _ & _ & Hlen).
  pose proof input_ok as (Hso & _).
  destruct (tf_reduce_sum_12 outputs b h w c Hso) as (sum1 & Hsum & Hss & _).
  unfold composer_loop. rewrite Hsum, Hn. simpl mbind.
  apply for_range_first_Raise.
  unfold composer_step, list_get. rewrite H3. simpl.
  unfold global_sum_of, tf_reshape.
  rewrite decide_True by (rewrite Hlen; exact same_count). simpl.
  destruct (scale_grey sum1 (Tensor [d0; h0 * w0; c0] (data third))) as [g'|e] eqn:Hsc.
  - exfalso.
    destruct (scale_grey_Ok_inv sum1 (Tensor [d0; h0 * w0; c0] (data third)) g'
                d0 (h0 * w0) c0 eq_refl Hhw Hsc
                (d0 - 1) (c0 - 1) ltac:(lia) ltac:(lia)) as (v & Hv).
    apply get_Some_bounds in Hv. rewrite Hss in Hv.
    inversion Hv as [|? ? ? ? Hm Hv1]; subst.
    inversion Hv1 as [|? ? ? ? Hj _]; subst. lia.
  - simpl. f_equal.
    exact (scale_grey_raise sum1 (Tensor [d0; h0 * w0; c0] (data third))
             d0 (h0 * w0) c0 e eq_refl Hsc).
Qed.

(** enough images and channels, but another shape: the scaling loops end, and
    the first class stops at the addition of the denominator *)
Lemma composer_loop_add_error :
  1 < d0 -> 1 < h0 -> 1 < w0 -> 1 < c0 ->
  d0 <= b -> c0 <= c -> [b; h; w; c] <> [d0; h0; w0; c0] ->
  composer_loop [d0; h0 * w0; c0] [d0; h0; w0; c0] outputs seconds thirds grads
                class_index
  = Raise (InvalidArgumentError "AddV2").
Proof.
  intros Hd0 Hh0 Hw0 Hc0 Hb Hc Hne.
  destruct (first_class b h w c outputs seconds thirds grads class_index
              input_ok some_class)
    as (n & second & third & Hn & H2 & H3 & Hs2 & _ & Hlen).
  pose proof input_ok as (Hso & _).
  destruct (tf_reduce_sum_12 outputs b h w c Hso) as (sum1 & Hsum & Hss & Hws & _).
  assert (forall m j, m < d0 -> j < c0 -> get sum1 [m; j] = Some (at_ sum1 [m; j]))
    as Hcells.
  { intros m j Hm Hj. apply get_at; [exact Hws|]. rewrite Hss.
    repeat constructor; lia. }
  assert (wf (Tensor [d0; h0 * w0; c0] (data third))) as Hwg.
  { unfold wf. cbn [data shape]. rewrite Hlen. exact same_count. }
  destruct (scale_grey_spec sum1 (Tensor [d0; h0 * w0; c0] (data third))
              (fun m j => at_ sum1 [m; j]) d0 (h0 * w0) c0 eq_refl Hwg Hcells)
    as (g' & Hsc & Hs' & Hw' & _).
  unfold composer_loop. rewrite Hsum, Hn. simpl mbind.
  apply for_range_first_Raise.
  unfold composer_step, list_get. rewrite H3. simpl.
  unfold global_sum_of, tf_reshape.
  rewrite decide_True by (rewrite Hlen; exact same_count). simpl.
  rewrite Hsc. simpl. unfold np_reshape.
  rewrite decide_True
    by (unfold wf in Hw'; rewrite Hw', Hs'; apply numel_merge).
  simpl. rewrite H2. simpl.
  unfold alpha_from, tf_add, binop. simpl shape. rewrite Hs2.
  destruct (broadcast_shapes [b; h; w; c] [d0; h0; w0; c0]) as [s|] eqn:Hbs;
    [|reflexivity].
  exfalso. apply Hne.
  apply broadcast_shapes_4_inv in Hbs as (Bb & Bh & Bw & Bc).
  assert (b = d0) as -> by lia. assert (c = c0) as -> by lia.
  pose proof same_count as Hnum. rewrite numel_merge in Hnum.
  unfold numel in Hnum. simpl in Hnum.
  assert (h * w = h0 * w0) as Hhw by nia.
  assert (h = h0 \/ h = 1) as [->| ->] by lia;
    (assert (w = w0 \/ w = 1) as [->| ->] by lia); try reflexivity; exfalso; nia.
Qed.
End ComposerErrors.

Section ComposerFailureModes.
Context {F : Type} `{Scalar F}.

(** X10: with at least one class and a feature map that has the 4*8*8*1280
    elements of the reshapes but not the shape (4, 8, 8, 1280), the composer
    never returns: with fewer than 4 images or fewer than 1280 channels the
    in-place loops raise the index error; with at least 4 images and 1280
    channels the loops end and the addition of the denominator raises the
    broadcasting error. *)
Theorem composer_failure_modes (b h w c : nat) (outputs : tensor F)
    (seconds thirds grads : list (tensor F)) (class_index : list Z) :
  composer_input b h w c outputs seconds thirds grads class_index ->
  grads <> [] ->
  numel [b; h; w; c] = numel [4; 8; 8; 1280] ->
  (b < 4 \/ c < 1280 ->
   generate_ponderated_output outputs seconds thirds grads class_index
   = Raise (IndexError "index out of bounds")) /\
  (4 <= b -> 1280 <= c -> [b; h; w; c] <> [4; 8; 8; 1280] ->
   generate_ponderated_output outputs seconds thirds grads class_index
   = Raise (InvalidArgumentError "AddV2")).
Proof.
  intros Hin Hsome Hnum.
  rewrite <- (numel_merge 4 8 8 1280) in Hnum.
  split.
  - intros Hsmall.
    unfold generate_ponderated_output, generate_ponderated_output_state.
    change [4; 64; 1280] with [4; 8 * 8; 1280].
    rewrite (composer_loop_index_error 4 8 8 1280 b h w c outputs seconds thirds
               grads class_index Hin Hsome Hnum); [reflexivity|lia|lia|lia|exact Hsmall].
  - intros Hb Hc Hne.
    unfold generate_ponderated_output, generate_ponderated_output_state.
    change [4; 64; 1280] with [4; 8 * 8; 1280].
    rewrite (composer_loop_add_error 4 8 8 1280 b h w c outputs seconds thirds
               grads class_index Hin Hsome Hnum);
      [reflexivity|lia|lia|lia|lia|exact Hb|exact Hc|exact Hne].
Qed.
End ComposerFailureModes.

Lemma replicate_input (b h w c : nat) (x : Qc) (ci : Z) :
  let t := Tensor [b; h; w; c] (replicate (numel [b; h; w; c]) x) in
  composer_input b h w c t [t] [t] [t] [ci].
Proof.
  intros t.
  assert (shape t = [b; h; w; c] /\ wf t) as Ht.
  { split; [reflexivity|]. unfold wf, t. cbn [data shape]. apply length_replicate. }
  destruct Ht as (Hs & Hw).
  split; [exact Hs|]. split; [exact Hw|]. split; [reflexivity|].
  split; [reflexivity|]. split; [reflexivity|].
  assert (Forall (fun t0 : tensor Qc => shape t0 = [b; h; w; c] /\ wf t0) [t]) as Hall.
  { constructor; [split; assumption | constructor]. }
  split; [exact Hall|]. split; exact Hall.
Qed.

Lemma numel_4 (b h w c : nat) : numel [b; h; w; c] = b * (h * (w * c)).
Proof. unfold numel. simpl. lia. Qed.

Lemma composer_failure_modes_witness :
  generate_ponderated_output two_image_map [two_image_map] [two_image_map]
                             [two_image_map] [0%Z]
  = Raise (IndexError "index out of bounds") /\
  generate_ponderated_output flat_image_map [flat_image_map] [flat_image_map]
                             [flat_image_map] [0%Z]
  = Raise (InvalidArgumentError "AddV2").
Proof.
  split.
  - apply (composer_failure_modes 2 8 8 2560 two_image_map [two_image_map]
             [two_image_map] [two_image_map] [0%Z]
             (replicate_input 2 8 8 2560 1%Qc 0%Z)); [discriminate| |lia].
    rewrite !numel_4. lia.
  - apply (composer_failure_modes 4 64 1 1280 flat_image_map [flat_image_map]
             [flat_image_map] [flat_image_map] [0%Z]
             (replicate_input 4 64 1 1280 1%Qc 0%Z)); [discriminate| |lia|lia|].
    + rewrite !numel_4. lia.
    + intros Heq. injection Heq as Heq. lia.
Defined.

(** ** The whole call: from the batch to the grid *)

Lemma mapM_total {A B} (g : A -> result B) (f : A -> B) (l : list A) :
  (forall x, g x = Ok (f x)) -> mapM g l = Ok (f <$> l).
Proof.
  intros Hg. induction l as [|x l IH]; simpl; [reflexivity|].
  rewrite Hg. simpl. rewrite IH. reflexivity.
Qed.

(** the loop of lines 76-78 appends the picture of every image, in order,
    to a list of heat maps that is not empty *)
Lemma append_images_loop {A Pic} (rows : list A) (to_rgb : A -> result Pic)
    (concat : list Pic -> Pic -> result (list Pic)) (rgb : A -> Pic)
    (heatmaps : list Pic) :
  (forall x, to_rgb x = Ok (rgb x)) ->
  (forall hs p, hs <> [] -> concat hs p = Ok (hs ++ [p])) ->
  heatmaps <> [] ->
  for_range (length rows)
    (fun i heatmaps => image ← list_get rows i;
                       pic ← to_rgb image;
                       concat heatmaps pic) heatmaps
  = Ok (heatmaps ++ (rgb <$> rows)).
Proof.
  intros Hrgb Hcat Hsome.
  destruct (for_range_inv
              (fun i hs => hs = heatmaps ++ (rgb <$> take i rows)) (length rows)
              (fun i heatmaps => image ← list_get rows i;
                                 pic ← to_rgb image;
                                 concat heatmaps pic) heatmaps)
    as (hs & Hrun & Hhs).
  - simpl. rewrite app_nil_r. reflexivity.
  - intros i s Hi ->.
    destruct (lookup_lt_is_Some_2 rows i Hi) as (row & Hrow).
    exists ((heatmaps ++ (rgb <$> take i rows)) ++ [rgb row]). split.
    + unfold list_get. rewrite Hrow. simpl. rewrite Hrgb. simpl. apply Hcat.
      intros Hnil. apply app_eq_nil in Hnil as [Hnil _]. contradiction.
    + rewrite (take_S_r _ _ _ Hrow), fmap_app, app_assoc. reflexivity.
  - rewrite Hrun, Hhs, firstn_all. reflexivity.
Qed.

(** with no heat map, the first turn of that loop raises what the
    concatenation raises *)
Lemma append_images_loop_empty {A Pic} (row : A) (rows : list A)
    (to_rgb : A -> result Pic)
    (concat : list Pic -> Pic -> result (list Pic)) (rgb : A -> Pic) e :
  (forall x, to_rgb x = Ok (rgb x)) ->
  (forall p, concat [] p = Raise e) ->
  for_range (length (row :: rows))
    (fun i heatmaps => image ← list_get (row :: rows) i;
                       pic ← to_rgb image;
                       concat heatmaps pic) []
  = Raise e.
Proof.
  intros Hrgb Hcat. apply for_range_first_Raise.
  unfold list_get. simpl. rewrite Hrgb. simpl. apply Hcat.
Qed.

Section WholeCall.
Context {F : Type} `{Scalar F} {Pic Grid : Type}.
Variable run_grad_model : Model -> tensor F -> string -> result (Tape F).
Variable heatmap_display : tensor F -> tensor F -> Z -> F -> result Pic.
Variable image_to_rgb : tensor F -> result Pic.
Variable np_concatenate : list Pic -> Pic -> result (list Pic).
Variable grid_display : list Pic -> nat -> nat -> result Grid.

(** X11: when the batch holds [n] images, the layer name is given or found,
    the engine answers every gradient query on a target layer of shape
    (4, 8, 8, 1280) and the two picture makers return, [explain] runs the
    extractor and the composer, which returns one CAM per class value in
    0..3.  Concatenation is numpy's: it appends a picture to a list of
    pictures of that size that is not empty, and raises [e] on the empty
    array.  Then,
    with no image, [explain] hands the empty list to [grid_display]; with
    images but no CAM it raises [e] at the first concatenation; with images
    and CAMs it hands to [grid_display], with 2 rows and [n] columns, first
    the heat map of the j-th CAM over the j-th image, for every j below both
    the number of CAMs and [n], and then the picture of every image of the
    batch. *)
Theorem explain_grid_layout
    (validation_data : Sequence F) (model : Model) (first : bool)
    (class_index : list Z) (batch_mode : bool) (layer_name : option string)
    (colormap : Z) (image_weight : F)
    (images : tensor F) (ci : list Z) (target : string) (tape : Tape F)
    (n : nat) (s : list nat)
    (heat : tensor F -> tensor F -> Pic) (rgb : tensor F -> Pic) (e : exception) :
  select_batch validation_data first batch_mode class_index = Ok (images, ci) ->
  shape images = n :: s ->
  match layer_name with
  | None => infer_grad_cam_target_layer model
  | Some name => Ok name
  end = Ok target ->
  run_grad_model model images target = Ok tape ->
  tape_ok tape ci ->
  shape (tape_conv_outputs tape) = [4; 8; 8; 1280] ->
  (forall cam image, heatmap_display cam image colormap image_weight
                     = Ok (heat cam image)) ->
  (forall image, image_to_rgb image = Ok (rgb image)) ->
  (forall hs p, hs <> [] -> np_concatenate hs p = Ok (hs ++ [p])) ->
  (forall p, np_concatenate [] p = Raise e) ->
  exists seconds thirds guided cams,
    get_gradients_and_filters run_grad_model model images target ci
    = Ok (tape_conv_outputs tape, seconds, thirds, guided, ci) /\
    generate_ponderated_output (tape_conv_outputs tape) seconds thirds guided ci
    = Ok cams /\
    length cams = length (filter (fun c => (0 <= c < 4)%Z) ci) /\
    (n = 0 ->
     explain run_grad_model heatmap_display image_to_rgb np_concatenate
             grid_display validation_data model first class_index batch_mode
             layer_name colormap image_weight
     = grid_display [] 2 0) /\
    (0 < n -> cams = [] ->
     explain run_grad_model heatmap_display image_to_rgb np_concatenate
             grid_display validation_data model first class_index batch_mode
             layer_name colormap image_weight
     = Raise e) /\
    (0 < n -> cams <> [] ->
     explain run_grad_model heatmap_display image_to_rgb np_concatenate
             grid_display validation_data model first class_index batch_mode
             layer_name colormap image_weight
     = grid_display
         (((fun p : tensor F * tensor F => heat p.1 p.2)
             <$> zip cams (slice images <$> seq 0 n))
          ++ (rgb <$> (slice images <$> seq 0 n)))
         2 n).
Proof.
  intros Hsel Hshape Hname Hrun Hok Hconv Hheat Hrgb Hcat Hcat0.
  destruct (extractor_hands_over run_grad_model model images target ci tape
              4 8 8 1280 Hrun Hok Hconv) as (st & _ & Hget & Hin).
  destruct (state_total 4 8 8 1280 (tape_conv_outputs tape) (second_derivative st)
              (third_derivative st) (guided_grads st) ci Hin
              eq_refl eq_refl eq_refl eq_refl) as (cams & alphas & Hst).
  assert (generate_ponderated_output (tape_conv_outputs tape) (second_derivative st)
            (third_derivative st) (guided_grads st) ci = Ok cams) as Hcams.
  { unfold generate_ponderated_output. rewrite Hst. reflexivity. }
  exists (second_derivative st), (third_derivative st), (guided_grads st), cams.
  split; [exact Hget|]. split; [exact Hcams|].
  split; [exact (proj1 (cams_count 4 8 8 1280 _ _ _ _ _ _ Hin Hcams))|].
  assert (explain run_grad_model heatmap_display image_to_rgb np_concatenate
            grid_display validation_data model first class_index batch_mode
            layer_name colormap image_weight
          = (heatmaps ← for_range n
               (fun i heatmaps =>
                  image ← list_get (slice images <$> seq 0 n) i;
                  pic ← image_to_rgb image;
                  np_concatenate heatmaps pic)
               ((fun p : tensor F * tensor F => heat p.1 p.2)
                  <$> zip cams (slice images <$> seq 0 n));
             grid_display heatmaps 2 n)) as Hexplain.
  { unfold explain. rewrite Hsel. cbn [mbind result_bind]. rewrite Hname.
    cbn [mbind result_bind]. rewrite Hget. cbn [mbind result_bind]. rewrite Hcams.
    cbn [mbind result_bind]. rewrite (unstack_slices images n s Hshape).
    cbn [mbind result_bind].
    rewrite (mapM_total _ (fun p : tensor F * tensor F => heat p.1 p.2))
      by (intros [cam image]; apply Hheat).
    cbn [mbind result_bind]. unfold shape_at. rewrite Hshape. reflexivity. }
  rewrite Hexplain. split; [|split].
  - intros ->. change (slice images <$> seq 0 0) with (@nil (tensor F)).
    rewrite zip_with_nil_r. reflexivity.
  - intros Hn ->. destruct n as [|n']; [lia|].
    pose proof (append_images_loop_empty (slice images 0)
                  (slice images <$> seq 1 n') image_to_rgb np_concatenate rgb e
                  Hrgb Hcat0) as Hloop.
    cbn [length] in Hloop. rewrite length_fmap, length_seq in Hloop.
    change (slice images <$> seq 0 (S n'))
      with (slice images 0 :: (slice images <$> seq 1 n')).
    change ((fun p : tensor F * tensor F => heat p.1 p.2)
              <$> zip [] (slice images 0 :: (slice images <$> seq 1 n')))
      with (@nil Pic).
    rewrite Hloop. reflexivity.
  - intros Hn Hsome.
    pose proof (append_images_loop (slice images <$> seq 0 n) image_to_rgb
                  np_concatenate rgb
                  ((fun p : tensor F * tensor F => heat p.1 p.2)
                     <$> zip cams (slice images <$> seq 0 n)) Hrgb Hcat) as Hloop.
    rewrite length_fmap, length_seq in Hloop. rewrite Hloop; [reflexivity|].
    destruct cams as [|cam cams']; [contradiction|].
    destruct n as [|n']; [lia|]. discriminate.
Qed.
End WholeCall.

Lemma big_tape_ok (class_index : list Z) : tape_ok big_tape class_index.
Proof.
  destruct (big_const_ok 1%Qc) as (Hs & Hw).
  split; [exact Hw|]. intros c k _ _. exists (big_const 1%Qc).
  split; [reflexivity|]. split; [reflexivity | exact Hw].
Qed.

Lemma explain_grid_layout_witness :
  (exists cams,
     length cams = 4 /\
     explain big_engine draw_heatmap draw_rgb concatenate_one lay_out
             four_data toy_model true [] true None 2%Z 1%Qc
     = lay_out
         (((fun p : tensor Qc * tensor Qc => Heatmap p.1 p.2)
             <$> zip cams (slice four_images <$> seq 0 4))
          ++ (Rgb <$> (slice four_images <$> seq 0 4)))
         2 4) /\
  explain big_engine draw_heatmap draw_rgb concatenate_one lay_out
          four_data toy_model true [7%Z] false None 2%Z 1%Qc
  = Raise (ValueError "all the input arrays must have same number of dimensions").
Proof.
  split.
  - destruct (explain_grid_layout big_engine draw_heatmap draw_rgb concatenate_one
                lay_out four_data toy_model true [] true None 2%Z 1%Qc
                four_images [2%Z; 0%Z; 1%Z; 3%Z] "conv2" big_tape 4 [1; 1; 1]
                Heatmap Rgb
                (ValueError "all the input arrays must have same number of dimensions"))
      as (seconds & thirds & guided & cams & _ & _ & Hlen & _ & _ & Hgrid).
    + vm_compute. reflexivity.
    + reflexivity.
    + reflexivity.
    + reflexivity.
    + apply big_tape_ok.
    + reflexivity.
    + intros cam image. reflexivity.
    + intros image. reflexivity.
    + intros [|h hs] p Hne; [contradiction | reflexivity].
    + intros p. reflexivity.
    + exists cams. split; [exact Hlen|]. apply Hgrid; [lia|].
      destruct cams; [discriminate Hlen | discriminate].
  - destruct (explain_grid_layout big_engine draw_heatmap draw_rgb concatenate_one
                lay_out four_data toy_model true [7%Z] false None 2%Z 1%Qc
                four_images [7%Z] "conv2" big_tape 4 [1; 1; 1]
                Heatmap Rgb
                (ValueError "all the input arrays must have same number of dimensions"))
      as (seconds & thirds & guided & cams & _ & _ & Hlen & _ & Hraise & _).
    + reflexivity.
    + reflexivity.
    + reflexivity.
    + reflexivity.
    + apply big_tape_ok.
    + reflexivity.
    + intros cam image. reflexivity.
    + intros image. reflexivity.
    + intros [|h hs] p Hne; [contradiction | reflexivity].
    + intros p. reflexivity.
    + apply Hraise; [lia|]. destruct cams; [reflexivity | discriminate Hlen].
Defined.
